(** * react-sortable-hoc (Nuclino fork): the sortable container and its utilities

    A shallow embedding of [src/utils] ([arrayMove], [omit], [closest],
    [limit]) and of the class returned by [sortableContainer] in
    [src/SortableContainer/index.js].

    Conventions of the embedding.
    - JavaScript numbers that carry pixel quantities are modelled as
      rationals ([Q]): sums, differences, halves and comparisons are the
      exact ones; IEEE rounding, infinities and NaN produced by arithmetic
      are outside the model.  A lock offset that is not finite, given as
      a number or read from digits too large for a double, is [None].
      A property that is [undefined] in the source
      ([minTranslate.x] of a disabled axis) is an [option Q]; a comparison
      with it is false, as a comparison with NaN is.
    - Item indices and array positions are integers ([Z]).
    - Objects that are shared and mutated (arrays, DOM elements) live in an
      explicit store and are named by their address.
    - A JavaScript exception is the left injection of a sum type; the state
      in which an exception leaves the component is not followed.
    - [setState] takes effect at once.
    - Division by the extent of the dragged element is the exact one; what
      is proved about a quotient assumes the extent positive. *)

From Stdlib Require Import ZArith QArith Qabs Lqa Lia Ascii String.
From stdpp Require Import base option list sorting functions gmap strings.

Local Open Scope Z_scope.

(** ** Utilities *)

Module Utils.

Section ArrayMove.
(** Array elements: [None] is JavaScript's [undefined]. *)
Context {A : Type}.

Abbreviation elem := (option A).
Abbreviation undefined := (@None A).
Abbreviation loc := nat.

(** The arrays of the program, by address. *)
Abbreviation heap := (gmap nat (list elem)).

(** [arr.slice(0)]: a new array object holding the same elements. *)
Definition slice0 (h : heap) (arr : loc) : option (heap * loc) :=
  a ← h !! arr;
  let array := fresh (dom h) in
  Some (<[array := a]> h, array).

(** [array.push(x)] *)
Definition push (h : heap) (array : loc) (x : elem) : heap :=
  alter (λ a, a ++ [x]) array h.

(** [splice]'s start position: a negative start counts from the end,
    and the result is clamped to [0, len]. *)
Definition spliceStart (len start : Z) : nat :=
  Z.to_nat (if start <? 0 then Z.max (len + start) 0 else Z.min start len).

(** [splice]'s effective delete count, clamped to what is left. *)
Definition spliceCount (len : Z) (actualStart : nat) (deleteCount : Z) : nat :=
  Z.to_nat (Z.min (Z.max deleteCount 0) (len - Z.of_nat actualStart)).

(** [a.splice(start, deleteCount, ...items)] on the contents: the new
    contents and the array of removed elements. *)
Definition spliceList (a : list elem) (start deleteCount : Z) (items : list elem)
  : list elem * list elem :=
  let len := Z.of_nat (length a) in
  let s := spliceStart len start in
  let dc := spliceCount len s deleteCount in
  (take s a ++ items ++ drop (s + dc)%nat a, take dc (drop s a)).

(** [array.splice(start, deleteCount, ...items)] in the heap. *)
Definition splice (h : heap) (array : loc) (start deleteCount : Z) (items : list elem)
  : option (heap * list elem) :=
  a ← h !! array;
  let '(a', removed) := spliceList a start deleteCount items in
  Some (<[array := a']> h, removed).

(** [removed[0]]: reading past the end gives [undefined]. *)
Definition first (removed : list elem) : elem :=
  match removed with
  | [] => undefined
  | x :: _ => x
  end.

(** [while (k-- + 1) { array.push(undefined); }] *)
Fixpoint pushLoop (fuel : nat) (h : heap) (array : loc) (k : Z) : option heap :=
  match fuel with
  | O => None
  | S fuel' =>
      if k + 1 =? 0 then Some h
      else pushLoop fuel' (push h array undefined) array (k - 1)
  end.

(** [arrayMove(arr, previousIndex, newIndex)].  The result is the heap
    after the call and the address of the returned array; [None] when the
    loop runs out of fuel or [arr] is not an array of the heap. *)
Definition arrayMove (fuel : nat) (h : heap) (arr : loc) (previousIndex newIndex : Z)
  : option (heap * loc) :=
  '(h, array) ← slice0 h arr;
  a ← h !! array;
  h ← (if Z.of_nat (length a) <=? newIndex
       then pushLoop fuel h array (newIndex - Z.of_nat (length a))
       else Some h);
  '(h, removed) ← splice h array previousIndex 1 [];
  '(h, _) ← splice h array newIndex 0 [first removed];
  Some (h, array).

End ArrayMove.

(** [limit(min, max, value)].  A bound that is NaN (here [None]) fails both
    comparisons. *)
Definition Qltb (a b : Q) : bool := negb (Qle_bool b a).

Definition limit (min max : option Q) (value : Q) : Q :=
  let upper :=
    match max with
    | Some M => if Qltb M value then M else value
    | None => value
    end in
  match min with
  | Some m => if Qltb value m then m else upper
  | None => upper
  end.

End Utils.


(** ** Exceptions *)

Module Js.

(** The two ways a call of the container ends abnormally: a [TypeError]
    raised by reading a property of [null] or [undefined], and the [Error]
    thrown by [invariant(condition, message)] when the condition is falsy. *)
Inductive error :=
  | TypeError
  | Invariant (message : string).

Definition result (A : Type) : Type := error + A.

Definition throw {A} (e : error) : result A := inl e.
Definition ok {A} (a : A) : result A := inr a.

Definition bind {A B} (m : result A) (k : A → result B) : result B :=
  match m with
  | inl e => inl e
  | inr a => k a
  end.

(** [o.p] where [o] may be [null] or [undefined]. *)
Definition deref {A} (o : option A) : result A :=
  match o with
  | Some a => ok a
  | None => throw TypeError
  end.

(** [invariant(condition, message)] *)
Definition invariant (condition : bool) (message : string) : result unit :=
  if condition then ok tt else throw (Invariant message).

(** Truthiness of a number. *)
Definition truthy (q : Q) : bool := negb (Qeq_bool q 0).

(** [ToNumber] of an index that may be [null]: [null] converts to 0. *)
Definition toNumber (i : option Z) : Z := default 0 i.

(** [i === j] for a number [i] and [j] a number or [null]. *)
Definition strictEq (i : Z) (j : option Z) : bool :=
  match j with
  | Some j => i =? j
  | None => false
  end.

(** [for (let i = 0, len = ...; i < len; i++) body], the body run for
    [i = start, ..., start + len - 1] until one iteration throws. *)
Fixpoint forLoop {S} (len : nat) (start : nat) (body : nat → S → result S) (s : S)
  : result S :=
  match len with
  | O => ok s
  | Datatypes.S len' => bind (body start s) (forLoop len' (Datatypes.S start) body)
  end.

End Js.

Notation "'let!' p ':=' m 'in' k" := (Js.bind m (λ p, k))
  (at level 10, p pattern, m at level 200, k at level 200, only parsing).


(** ** The data of the sortable container *)

Module Container.
Import Js Utils.

Local Open Scope Q_scope.

(** [{x, y}] *)
Record point := Point { x : Q; y : Q }.

(** [{top, left}] *)
Record edge := Edge { top : Q; left : Q }.

(** [{x, y}] whose properties exist only for an enabled axis
    ([minTranslate], [maxTranslate]). *)
Record bounds := Bounds { boundX : option Q; boundY : option Q }.

(** The properties of a [DOMRect] the container reads. *)
Record rect := Rect { rectTop : Q; rectLeft : Q; rectWidth : Q; rectHeight : Q }.

(** The result of [getElementMargin]. *)
Record margins := Margins { marginTop : Q; marginRight : Q; marginBottom : Q; marginLeft : Q }.

(** *** Styles *)

(** [style.Transform] of an item. *)
Inductive transform :=
  | transformUnset                 (* never assigned *)
  | transformEmpty                 (* '' *)
  | translate3dZero                (* 'translate3d(0,0,0)' *)
  | translate3d (tx ty : Q).       (* `translate3d(${tx}px,${ty}px,0)` *)

(** [style.TransitionDuration] *)
Inductive duration :=
  | durationUnset
  | durationEmpty                  (* '' *)
  | durationMs (ms : Q).           (* `${ms}ms` *)

(** [style.visibility] and [style.opacity] *)
Inductive visibility := visibilityUnset | visibilityEmpty | visibilityHidden.
Inductive opacity := opacityUnset | opacityEmpty | opacityZero.

Record style := Style {
  Transform : transform;
  TransitionDuration : duration;
  styleVisibility : visibility;
  styleOpacity : opacity;
}.

(** *** Elements *)

(** [node.sortableInfo], written by [setDraggable] of the sortable element;
    [translate] is [None] when the property holds no object. *)
Record sortableInfo := SortableInfo {
  index : Z;
  collection : string;
  translate : option point;
}.

(** What lies above an element: its [parentNode] is the container, or is
    missing, or is another element with its own offsets and parent. *)
Inductive parent :=
  | inContainer
  | detached
  | inside (parentOffsetTop parentOffsetLeft : Q) (up : parent).

(** A sortable DOM element: the properties the container reads and writes. *)
Record element := Element {
  info : sortableInfo;
  offsetTop : Q;
  offsetLeft : Q;
  offsetWidth : Q;
  offsetHeight : Q;
  parentNode : parent;
  nodeStyle : style;
}.

(** The DOM elements, by address. *)
Abbreviation dom := (nat → element).

(** *** The manager *)

(** A registered item [{node, edgeOffset}]: the address of its element and
    the cached edge offset. *)
Record ref := Ref { node : nat; edgeOffset : option edge }.

(** [manager.active]: [{index, collection}] *)
Record marker := Marker { activeIndex : option Z; activeCollection : string }.

Record manager := Manager {
  refs : gmap string (list ref);
  active : option marker;
}.

(** *** Events, callbacks and configuration *)

Record touch := Touch { touchPageX : Q; touchPageY : Q }.

(** A mouse or touch event: [touches] is [None] for a mouse event. *)
Record event := Event { pageX : Q; pageY : Q; touches : option (list touch) }.

Inductive gap := ABOVE | BELOW.

(** The argument of [onSortHover]. *)
Record hover := Hover {
  hoverIsOrigin : bool;
  draggedIndex : option Z;
  draggedTop : Q;
  draggedBottom : Q;
  targetIndex : Z;
  targetTop : Q;
  targetBottom : Q;
  gapIndex : Z;
  gapPosition : gap;
}.

(** The argument of [canSortDrop]. *)
Record dropArg := Drop {
  dropIsOrigin : bool;
  dropOldIndex : option Z;
  dropNewIndex : option Z;
  dropCollection : string;
}.

(** [lockOffset]: a number or a string, alone or in an array.  A number
    that is not finite (NaN, [Infinity] or [-Infinity]) is [None]. *)
Inductive lockValue := lockNumber (q : option Q) | lockString (s : string).
Inductive lockProp := lockSingle (v : lockValue) | lockArray (vs : list lockValue).

Record props := Props {
  axis : string;
  lockAxis : option string;
  lockToContainerEdges : bool;
  lockOffset : lockProp;
  transitionDuration : Q;
  hideSortableGhost : bool;
  useWindowAsScrollContainer : bool;
  useCustomEvents : bool;
  helperClass : option string;
  distance : Q;
  pressDelay : Q;
  getHelperDimensions : option Z → element → string → Q * Q;
  onSortHover : option (hover → bool);
  canSortDrop : option (dropArg → bool);
  onSortStart : bool;
  onSortMove : bool;
  onSortEnd : bool;
}.

(** The calls made to the callbacks of the host, oldest first. *)
Record commit := Commit {
  oldIndex : option (option Z);
  newIndex : option (option Z);
  commitCollection : string;
}.

Inductive call :=
  | sortStart (startNode : nat) (startIndex : option Z) (startCollection : string)
  | sortMove (e : event)
  | sortEnd (c : commit).

(** *** The host: scroll positions and window *)

Record scroll := Scroll { scrollTop : Q; scrollLeft : Q }.

(** [settle] is the value the DOM keeps when a scroll position is
    assigned (it clamps to the scrollable range). *)
Record host := Host {
  pageXOffset : Q;
  pageYOffset : Q;
  innerWidth : Q;
  innerHeight : Q;
  containerScroll : scroll;
  bodyScroll : scroll;
  settle : Q → Q;
}.

(** What the DOM answers when a press is handled. *)
Record layout := Layout {
  elementMargin : margins;
  nodeBoundingClientRect : rect;
  containerRect : rect;
}.

(** *** The component *)

(** The helper overlay: its fixed box, classes and
    [`translate3d(${x}px,${y}px, 0)`] transform. *)
Record helper := Helper {
  helperTop : Q;
  helperLeft : Q;
  helperWidth : Q;
  helperHeight : Q;
  helperClassList : option string;
  helperTransform : option point;
}.

(** The running autoscroll interval: the [speed] and [direction] objects
    its callback closes over. *)
Record interval := Interval { speed : point; direction : point }.

Inductive listener := onNode (n : nat) | onWindow.

(** The fields of [this] written by [handlePress]. *)
Record session := Session {
  this_node : nat;
  this_margin : margins;
  this_width : Q;
  this_height : Q;
  this_marginOffset : point;
  this_boundingClientRect : rect;
  this_containerBoundingRect : rect;
  this_index : option Z;
  this_newIndex : option Z;
  this_axis : bool * bool;
  this_offsetEdge : edge;
  this_initialOffset : point;
  this_initialScroll : edge;
  this_initialWindowScroll : edge;
  this_minTranslate : bounds;
  this_maxTranslate : bounds;
}.

(** The component instance.  [this_session] is [None] until the first
    press; [state_sorting] and [state_isOrigin] are [this.state];
    [listeners] are the targets on which [handleSortMove] and
    [handleSortEnd] are registered. *)
Record t := Component {
  this_props : props;
  this_manager : manager;
  elements : dom;
  window : host;
  state_sorting : bool;
  state_isOrigin : bool;
  this_session : option session;
  this_translate : option point;
  this_helper : option helper;
  this_sortableGhost : option nat;
  this_listenerNode : option listener;
  listeners : list listener;
  this_autoscrollInterval : option interval;
  this_isAutoScrolling : bool;
  this_pressTimer : option event;
  this_paused : bool;
  this_touched : bool;
  calls : list call;
}.

(** Assignments to the fields of the component. *)
Definition set_this_manager v (s : t) : t :=
  Component (this_props s) v (elements s) (window s) (state_sorting s) (state_isOrigin s) (this_session s) (this_translate s) (this_helper s) (this_sortableGhost s) (this_listenerNode s) (listeners s) (this_autoscrollInterval s) (this_isAutoScrolling s) (this_pressTimer s) (this_paused s) (this_touched s) (calls s).
Definition set_elements v (s : t) : t :=
  Component (this_props s) (this_manager s) v (window s) (state_sorting s) (state_isOrigin s) (this_session s) (this_translate s) (this_helper s) (this_sortableGhost s) (this_listenerNode s) (listeners s) (this_autoscrollInterval s) (this_isAutoScrolling s) (this_pressTimer s) (this_paused s) (this_touched s) (calls s).
Definition set_window v (s : t) : t :=
  Component (this_props s) (this_manager s) (elements s) v (state_sorting s) (state_isOrigin s) (this_session s) (this_translate s) (this_helper s) (this_sortableGhost s) (this_listenerNode s) (listeners s) (this_autoscrollInterval s) (this_isAutoScrolling s) (this_pressTimer s) (this_paused s) (this_touched s) (calls s).
Definition set_state_sorting v (s : t) : t :=
  Component (this_props s) (this_manager s) (elements s) (window s) v (state_isOrigin s) (this_session s) (this_translate s) (this_helper s) (this_sortableGhost s) (this_listenerNode s) (listeners s) (this_autoscrollInterval s) (this_isAutoScrolling s) (this_pressTimer s) (this_paused s) (this_touched s) (calls s).
Definition set_state_isOrigin v (s : t) : t :=
  Component (this_props s) (this_manager s) (elements s) (window s) (state_sorting s) v (this_session s) (this_translate s) (this_helper s) (this_sortableGhost s) (this_listenerNode s) (listeners s) (this_autoscrollInterval s) (this_isAutoScrolling s) (this_pressTimer s) (this_paused s) (this_touched s) (calls s).
Definition set_this_session v (s : t) : t :=
  Component (this_props s) (this_manager s) (elements s) (window s) (state_sorting s) (state_isOrigin s) v (this_translate s) (this_helper s) (this_sortableGhost s) (this_listenerNode s) (listeners s) (this_autoscrollInterval s) (this_isAutoScrolling s) (this_pressTimer s) (this_paused s) (this_touched s) (calls s).
Definition set_this_translate v (s : t) : t :=
  Component (this_props s) (this_manager s) (elements s) (window s) (state_sorting s) (state_isOrigin s) (this_session s) v (this_helper s) (this_sortableGhost s) (this_listenerNode s) (listeners s) (this_autoscrollInterval s) (this_isAutoScrolling s) (this_pressTimer s) (this_paused s) (this_touched s) (calls s).
Definition set_this_helper v (s : t) : t :=
  Component (this_props s) (this_manager s) (elements s) (window s) (state_sorting s) (state_isOrigin s) (this_session s) (this_translate s) v (this_sortableGhost s) (this_listenerNode s) (listeners s) (this_autoscrollInterval s) (this_isAutoScrolling s) (this_pressTimer s) (this_paused s) (this_touched s) (calls s).
Definition set_this_sortableGhost v (s : t) : t :=
  Component (this_props s) (this_manager s) (elements s) (window s) (state_sorting s) (state_isOrigin s) (this_session s) (this_translate s) (this_helper s) v (this_listenerNode s) (listeners s) (this_autoscrollInterval s) (this_isAutoScrolling s) (this_pressTimer s) (this_paused s) (this_touched s) (calls s).
Definition set_this_listenerNode v (s : t) : t :=
  Component (this_props s) (this_manager s) (elements s) (window s) (state_sorting s) (state_isOrigin s) (this_session s) (this_translate s) (this_helper s) (this_sortableGhost s) v (listeners s) (this_autoscrollInterval s) (this_isAutoScrolling s) (this_pressTimer s) (this_paused s) (this_touched s) (calls s).
Definition set_listeners v (s : t) : t :=
  Component (this_props s) (this_manager s) (elements s) (window s) (state_sorting s) (state_isOrigin s) (this_session s) (this_translate s) (this_helper s) (this_sortableGhost s) (this_listenerNode s) v (this_autoscrollInterval s) (this_isAutoScrolling s) (this_pressTimer s) (this_paused s) (this_touched s) (calls s).
Definition set_this_autoscrollInterval v (s : t) : t :=
  Component (this_props s) (this_manager s) (elements s) (window s) (state_sorting s) (state_isOrigin s) (this_session s) (this_translate s) (this_helper s) (this_sortableGhost s) (this_listenerNode s) (listeners s) v (this_isAutoScrolling s) (this_pressTimer s) (this_paused s) (this_touched s) (calls s).
Definition set_this_isAutoScrolling v (s : t) : t :=
  Component (this_props s) (this_manager s) (elements s) (window s) (state_sorting s) (state_isOrigin s) (this_session s) (this_translate s) (this_helper s) (this_sortableGhost s) (this_listenerNode s) (listeners s) (this_autoscrollInterval s) v (this_pressTimer s) (this_paused s) (this_touched s) (calls s).
Definition set_this_pressTimer v (s : t) : t :=
  Component (this_props s) (this_manager s) (elements s) (window s) (state_sorting s) (state_isOrigin s) (this_session s) (this_translate s) (this_helper s) (this_sortableGhost s) (this_listenerNode s) (listeners s) (this_autoscrollInterval s) (this_isAutoScrolling s) v (this_paused s) (this_touched s) (calls s).
Definition set_this_paused v (s : t) : t :=
  Component (this_props s) (this_manager s) (elements s) (window s) (state_sorting s) (state_isOrigin s) (this_session s) (this_translate s) (this_helper s) (this_sortableGhost s) (this_listenerNode s) (listeners s) (this_autoscrollInterval s) (this_isAutoScrolling s) (this_pressTimer s) v (this_touched s) (calls s).
Definition set_this_touched v (s : t) : t :=
  Component (this_props s) (this_manager s) (elements s) (window s) (state_sorting s) (state_isOrigin s) (this_session s) (this_translate s) (this_helper s) (this_sortableGhost s) (this_listenerNode s) (listeners s) (this_autoscrollInterval s) (this_isAutoScrolling s) (this_pressTimer s) (this_paused s) v (calls s).
Definition set_calls v (s : t) : t :=
  Component (this_props s) (this_manager s) (elements s) (window s) (state_sorting s) (state_isOrigin s) (this_session s) (this_translate s) (this_helper s) (this_sortableGhost s) (this_listenerNode s) (listeners s) (this_autoscrollInterval s) (this_isAutoScrolling s) (this_pressTimer s) (this_paused s) (this_touched s) v.
Definition set_this_newIndex v (s : session) : session :=
  Session (this_node s) (this_margin s) (this_width s) (this_height s) (this_marginOffset s) (this_boundingClientRect s) (this_containerBoundingRect s) (this_index s) v (this_axis s) (this_offsetEdge s) (this_initialOffset s) (this_initialScroll s) (this_initialWindowScroll s) (this_minTranslate s) (this_maxTranslate s).
Definition set_translate v (i : sortableInfo) : sortableInfo :=
  SortableInfo (index i) (collection i) v.
Definition set_info v (el : element) : element :=
  Element v (offsetTop el) (offsetLeft el) (offsetWidth el) (offsetHeight el)
    (parentNode el) (nodeStyle el).
Definition set_nodeStyle v (el : element) : element :=
  Element (info el) (offsetTop el) (offsetLeft el) (offsetWidth el) (offsetHeight el)
    (parentNode el) v.
Definition set_Transform v (st : style) : style :=
  Style v (TransitionDuration st) (styleVisibility st) (styleOpacity st).
Definition set_TransitionDuration v (st : style) : style :=
  Style (Transform st) v (styleVisibility st) (styleOpacity st).
Definition set_visibility v o (st : style) : style :=
  Style (Transform st) (TransitionDuration st) v o.
Definition set_active v (m : manager) : manager := Manager (refs m) v.
Definition set_refs v (m : manager) : manager := Manager v (active m).

(** ** The operations of the sortable container *)

(** [invariant(!(props.distance && props.pressDelay), ...)] and the rest of
    the constructor: a new manager, an empty [state]. *)
Definition bothMessage : string :=
  "Attempted to set both `pressDelay` and `distance` on SortableContainer, you may only use one or the other, not both at the same time.".

Definition constructor (p : props) (d : dom) (w : host) : result t :=
  let! _ := invariant (negb (truthy (distance p) && truthy (pressDelay p))) bothMessage in
  ok (Component p (Manager ∅ None) d w false false None None None None None []
        None false None false false []).

(** [this.scrollContainer] is the body of the document when the window
    is the scroll container, and the container otherwise. *)
Definition scrollContainer (s : t) : scroll :=
  if useWindowAsScrollContainer (this_props s)
  then bodyScroll (window s) else containerScroll (window s).

Definition set_scrollContainer (v : scroll) (s : t) : t :=
  let w := window s in
  set_window
    (if useWindowAsScrollContainer (this_props s)
     then Host (pageXOffset w) (pageYOffset w) (innerWidth w) (innerHeight w)
            (containerScroll w) v (settle w)
     else Host (pageXOffset w) (pageYOffset w) (innerWidth w) (innerHeight w)
            v (bodyScroll w) (settle w)) s.

(** [cancel] *)
Definition cancel (s : t) : t :=
  if state_sorting s then s
  else set_this_manager (set_active None (this_manager s)) (set_this_pressTimer None s).

(** [getEdgeOffset(node, offset)]: the offsets summed up to the child of
    the container; [None] ([undefined]) when the walk leaves the document
    before it meets the container. *)
Fixpoint getEdgeOffsetFrom (p : parent) (nodeTop nodeLeft : Q) (offset : edge) : option edge :=
  let nodeOffset := Edge (top offset + nodeTop) (left offset + nodeLeft) in
  match p with
  | inContainer => Some nodeOffset
  | detached => None
  | inside upTop upLeft up => getEdgeOffsetFrom up upTop upLeft nodeOffset
  end.

Definition getEdgeOffset (el : element) : option edge :=
  getEdgeOffsetFrom (parentNode el) (offsetTop el) (offsetLeft el) (Edge 0 0).

(** [getOffset(e)] *)
Definition getOffset (e : event) : result point :=
  match touches e with
  | Some ts =>
      let! t0 := deref (head ts) in
      ok (Point (touchPageX t0) (touchPageY t0))
  | None => ok (Point (pageX e) (pageY e))
  end.

(** *** Lock offsets *)

Inductive cssUnit := px | percent.

(** A string accepted by the pattern of [getLockPixelOffset] (an optional
    sign, digits, an optional point and digits, then [px] or [%], and
    nothing else): its sign, the digits before and after the point, and
    the unit, which is the capture. *)
Record lockMatch := LockMatch {
  negative : bool;
  intDigits : list Z;
  fracDigits : list Z;
  matchUnit : cssUnit;
}.

Definition isDigit (c : ascii) : bool :=
  let n := nat_of_ascii c in (48 <=? n)%nat && (n <=? 57)%nat.

(** The leading decimal digits of a string, and what follows them. *)
Fixpoint digits (s : string) : list Z * string :=
  match s with
  | String c rest =>
      if isDigit c
      then let '(ds, r) := digits rest in (Z.of_nat (nat_of_ascii c - 48) :: ds, r)
      else ([], s)
  | EmptyString => ([], s)
  end.

Definition execLockOffset (s : string) : option lockMatch :=
  let '(neg, s1) :=
    match s with
    | String "+" r => (false, r)
    | String "-" r => (true, r)
    | _ => (false, s)
    end in
  let '(ints, s2) := digits s1 in
  let '(fracs, s3) :=
    match s2 with
    | String "." r => digits r
    | _ => ([], s2)
    end in
  if String.eqb s3 "px" then Some (LockMatch neg ints fracs px)
  else if String.eqb s3 "%" then Some (LockMatch neg ints fracs percent)
  else None.

Definition decimal (ds : list Z) : Z := foldl (λ acc d, 10 * acc + d)%Z 0%Z ds.

(** The least magnitude whose nearest double is [Infinity]: half way
    between the largest double, [2^1024 - 2^971], and [2^1024]. *)
Definition overflow : Q := inject_Z (2 ^ 1024 - 2 ^ 970)%Z.

(** [parseFloat] of a string accepted by the pattern, when the result is
    finite.  [None] is NaN, for a string with no digit at all, and
    [Infinity] or [-Infinity], for digits that spell a magnitude at or
    above [overflow]. *)
Definition parseFloat (m : lockMatch) : option Q :=
  match intDigits m, fracDigits m with
  | [], [] => None
  | ints, fracs =>
      let magnitude :=
        inject_Z (decimal ints)
        + inject_Z (decimal fracs) / inject_Z (10 ^ Z.of_nat (length fracs)) in
      if Qle_bool overflow magnitude then None
      else Some (if negative m then - magnitude else magnitude)
  end.

Definition dquote : string := String (ascii_of_nat 34) EmptyString.

Definition lockStringMessage : string :=
  ("lockOffset value should be a number or a string of a number followed by "
   ++ dquote ++ "px" ++ dquote ++ " or " ++ dquote ++ "%" ++ dquote ++ ". Given %s")%string.

Definition lockFiniteMessage : string :=
  "lockOffset value should be a finite. Given %s".

Definition lockArrayMessage : string :=
  "lockOffset prop of SortableContainer should be a single value or an array of exactly two values. Given %s".

(** [getLockPixelOffset(lockOffset)] *)
Definition getLockPixelOffset (ss : session) (lockOffset : lockValue) : result point :=
  let! (offset, unit) :=
    match lockOffset with
    | lockNumber q => ok (q, px)
    | lockString str =>
        let m := execLockOffset str in
        let! _ := invariant (bool_decide (is_Some m)) lockStringMessage in
        let! m := deref m in
        ok (parseFloat m, matchUnit m)
    end in
  let! _ := invariant (bool_decide (is_Some offset)) lockFiniteMessage in
  let! offset := deref offset in
  match unit with
  | percent => ok (Point (offset * this_width ss / 100) (offset * this_height ss / 100))
  | px => ok (Point offset offset)
  end.

(** [getLockPixelOffsets()] *)
Definition getLockPixelOffsets (p : props) (ss : session) : result (point * point) :=
  let lockOffset :=
    match lockOffset p with
    | lockSingle v => [v; v]
    | lockArray vs => vs
    end in
  match lockOffset with
  | [minLockOffset; maxLockOffset] =>
      let! a := getLockPixelOffset ss minLockOffset in
      let! b := getLockPixelOffset ss maxLockOffset in
      ok (a, b)
  | _ => throw (Invariant lockArrayMessage)
  end.

(** *** The position of the helper *)

(** [updatePosition(e)] *)
Definition updatePosition (e : event) (s : t) : result t :=
  let p := this_props s in
  let! offset := getOffset e in
  let! ss := deref (this_session s) in
  let tx := x offset - x (this_initialOffset ss) in
  let ty := y offset - y (this_initialOffset ss) in
  let ty := ty - (pageYOffset (window s) - top (this_initialWindowScroll ss)) in
  let tx := tx - (pageXOffset (window s) - left (this_initialWindowScroll ss)) in
  let! (tx, ty) :=
    if lockToContainerEdges p then
      let! (minLockOffset, maxLockOffset) := getLockPixelOffsets p ss in
      let minOffset := Point (this_width ss / 2 - x minLockOffset)
                             (this_height ss / 2 - y minLockOffset) in
      let maxOffset := Point (this_width ss / 2 - x maxLockOffset)
                             (this_height ss / 2 - y maxLockOffset) in
      ok (limit ((λ m, m + x minOffset) <$> boundX (this_minTranslate ss))
                ((λ m, m - x maxOffset) <$> boundX (this_maxTranslate ss)) tx,
          limit ((λ m, m + y minOffset) <$> boundY (this_minTranslate ss))
                ((λ m, m - y maxOffset) <$> boundY (this_maxTranslate ss)) ty)
    else ok (tx, ty) in
  let translate :=
    match lockAxis p with
    | Some a =>
        if String.eqb a "x" then Point tx 0
        else if String.eqb a "y" then Point 0 ty
        else Point tx ty
    | None => Point tx ty
    end in
  let s := set_this_translate (Some translate) s in
  ok match this_helper s with
     | Some h =>
         set_this_helper
           (Some (Helper (helperTop h) (helperLeft h) (helperWidth h) (helperHeight h)
                    (helperClassList h) (Some translate))) s
     | None => s
     end.

(** *** The reflow *)

(** The order of the registered items: by the [index] their elements carry. *)
Definition byIndex (d : dom) (a b : ref) : Prop :=
  (index (info (d (node a))) ≤ index (info (d (node b))))%Z.

#[export] Instance byIndex_dec d a b : Decision (byIndex d a b) := Z_le_dec _ _.

(** Modelled from the spec: the manager's [getOrderedRefs], whose source is
    not part of these files.  It needs the active marker, and returns the
    items registered for the active collection in ascending order of the
    [index] their elements carry.  What the manager returns for a
    collection without registered items is not known from these files;
    the model stops there, and what is stated about a reflow is stated
    for a collection that has them. *)
Definition getOrderedRefs (d : dom) (m : manager) : result (list ref) :=
  let! a := deref (active m) in
  let! registered := deref (refs m !! activeCollection a) in
  ok (merge_sort (byIndex d) registered).

(** What one reflow iterates over and writes: the ordered items with
    their cached offsets, the elements, [this.newIndex] and
    [this.sortableGhost]. *)
Record frame := Frame {
  nodes : list ref;
  els : dom;
  newIdx : option Z;
  ghost : option nat;
}.

(** What one reflow reads and does not change. *)
Record reflow := Reflow {
  config : props;
  isOrigin : bool;
  drag : session;
  sortingOffset : edge;
  scrollDifference : edge;
}.

(** [if (!ref.edgeOffset) ref.edgeOffset = this.getEdgeOffset(ref.node)] *)
Definition cacheEdgeOffset (d : dom) (r : ref) : ref :=
  match edgeOffset r with
  | Some _ => r
  | None => Ref (node r) (getEdgeOffset (d (node r)))
  end.

(** [this.newIndex == null ? index : this.newIndex] *)
Definition orIndex (current : option Z) (index : Z) : option Z :=
  match current with
  | Some i => Some i
  | None => Some index
  end.

(** [{width: this.width > width ? width / 2 : this.width / 2, height: ...}],
    as the pair of the two halves. *)
Definition halfSmaller (mine theirs : Q) : Q :=
  if Qltb theirs mine then theirs / 2 else mine / 2.

(** The grid branch of the loop (both axes): the translate of the item
    and the value of [this.newIndex] after it. *)
Definition gridNode (c : reflow) (el : element) (edgeOffset : option edge)
    (nextNode prevNode : option ref) (current : option Z) : result (point * option Z) :=
  let ss := drag c in
  let index := index (info el) in
  let offW := halfSmaller (this_width ss) (offsetWidth el) in
  let offH := halfSmaller (this_height ss) (offsetHeight el) in
  let sl := left (sortingOffset c) + left (scrollDifference c) in
  let st := top (sortingOffset c) + top (scrollDifference c) in
  let! before :=
    if (index <? toNumber (this_index ss))%Z then
      let! e := deref edgeOffset in
      ok ((Qle_bool (sl - offW) (left e) && Qle_bool st (top e + offH))
          || Qle_bool (st + offH) (top e))
    else ok false in
  if before then
    let! e := deref edgeOffset in
    let tx := this_width ss + x (this_marginOffset ss) in
    let! translate :=
      if Qltb (rectWidth (this_containerBoundingRect ss) - offW) (left e + tx) then
        let! n := deref (nextNode ≫= Container.edgeOffset) in
        ok (Point (left n - left e) (top n - top e))
      else ok (Point tx 0) in
    ok (translate, orIndex current index)
  else
    let! after :=
      if (toNumber (this_index ss) <? index)%Z then
        let! e := deref edgeOffset in
        ok ((Qle_bool (left e) (sl + offW) && Qle_bool (top e) (st + offH))
            || Qle_bool (top e + offsetHeight el) (st + offH))
      else ok false in
    if after then
      let! e := deref edgeOffset in
      let tx := - (this_width ss + x (this_marginOffset ss)) in
      let! translate :=
        if Qltb (left e + tx) (rectLeft (this_containerBoundingRect ss) + offW) then
          let! n := deref (prevNode ≫= Container.edgeOffset) in
          ok (Point (left n - left e) (top n - top e))
        else ok (Point tx 0) in
      ok (translate, Some index)
    else ok (Point 0 0, current).

(** The branch of a horizontal list ([axis.x] only). *)
Definition rowNode (c : reflow) (el : element) (edgeOffset : option edge)
    (current : option Z) : result (point * option Z) :=
  let ss := drag c in
  let index := index (info el) in
  let offW := halfSmaller (this_width ss) (offsetWidth el) in
  let sl := left (sortingOffset c) + left (scrollDifference c) in
  let! after :=
    if (toNumber (this_index ss) <? index)%Z then
      let! e := deref edgeOffset in
      ok (Qle_bool (left e) (sl + offW))
    else ok false in
  if after then
    ok (Point (- (this_width ss + x (this_marginOffset ss))) 0, Some index)
  else
    let! before :=
      if negb (isOrigin c) || (index <? toNumber (this_index ss))%Z then
        let! e := deref edgeOffset in
        ok (Qle_bool sl (left e + offW))
      else ok false in
    if before then
      ok (Point (this_width ss + x (this_marginOffset ss)) 0, orIndex current index)
    else ok (Point 0 0, current).

(** The branch of a vertical list ([axis.y] only), with the optional
    [onSortHover] callback. *)
Definition columnNode (c : reflow) (el : element) (edgeOffset : option edge)
    (current : option Z) : result (point * option Z) :=
  let ss := drag c in
  let index := index (info el) in
  let draggedTop := top (sortingOffset c) + top (scrollDifference c) in
  let draggedBottom := draggedTop + this_height ss in
  let! e := deref edgeOffset in
  let edgeTop := top e in
  let edgeBottom := edgeTop + offsetHeight el in
  if negb (isOrigin c) || (index <? toNumber (this_index ss))%Z then
    let! shouldTranslate :=
      match onSortHover (config c) with
      | Some hovering =>
          if Qltb draggedTop edgeBottom && Qltb edgeTop draggedTop then
            let! tr := deref (translate (info el)) in
            let hoverFromBelow := Qeq_bool (y tr) 0 in
            ok (hovering
                  (Hover (isOrigin c) (this_index ss) draggedTop draggedBottom
                     index edgeTop edgeBottom
                     (if hoverFromBelow then index + 1 else index)%Z
                     (if hoverFromBelow then BELOW else ABOVE)))
          else ok (Qltb draggedTop edgeBottom)
      | None => ok (Qltb draggedTop edgeBottom)
      end in
    if shouldTranslate
    then ok (Point 0 (this_height ss + y (this_marginOffset ss)), orIndex current index)
    else ok (Point 0 0, current)
  else if (toNumber (this_index ss) <? index)%Z then
    let! shouldTranslate :=
      match onSortHover (config c) with
      | Some hovering =>
          if Qltb edgeTop draggedBottom && Qltb draggedBottom edgeBottom then
            let! tr := deref (translate (info el)) in
            let hoverFromAbove := Qeq_bool (y tr) 0 in
            ok (hovering
                  (Hover (isOrigin c) (this_index ss) draggedTop draggedBottom
                     index edgeTop edgeBottom
                     (if hoverFromAbove then index - 1 else index)%Z
                     (if hoverFromAbove then ABOVE else BELOW)))
          else ok (Qltb edgeTop draggedBottom)
      | None => ok (Qltb edgeTop draggedBottom)
      end in
    if shouldTranslate
    then ok (Point 0 (- (this_height ss + y (this_marginOffset ss))), Some index)
    else ok (Point 0 0, current)
  else ok (Point 0 0, current).

(** The axis dispatch of the loop body. *)
Definition moveNode (c : reflow) (el : element) (edgeOffset : option edge)
    (nextNode prevNode : option ref) (current : option Z) : result (point * option Z) :=
  let '(axisX, axisY) := this_axis (drag c) in
  if axisX then
    if axisY then gridNode c el edgeOffset nextNode prevNode current
    else rowNode c el edgeOffset current
  else if axisY then columnNode c el edgeOffset current
  else ok (Point 0 0, current).

(** [node.style.visibility = 'hidden'; node.style.opacity = 0] *)
Definition hide (el : element) : element :=
  set_nodeStyle (set_visibility visibilityHidden opacityZero (nodeStyle el)) el.

(** The body of the first loop of [animateNodes], for position [i]. *)
Definition animateNode (c : reflow) (i : nat) (f : frame) : result frame :=
  let! r := deref (nodes f !! i) in
  let el := els f (node r) in
  let r := cacheEdgeOffset (els f) r in
  let ns := <[i := r]> (nodes f) in
  let edgeOffset := edgeOffset r in
  let ns :=
    match (if (S i <? length ns)%nat then ns !! S i else None) with
    | Some next => <[S i := cacheEdgeOffset (els f) next]> ns
    | None => ns
    end in
  let nextNode := if (S i <? length ns)%nat then ns !! S i else None in
  let prevNode := if (0 <? i)%nat then ns !! (i - 1)%nat else None in
  if strictEq (index (info el)) (this_index (drag c)) then
    if hideSortableGhost (config c)
    then ok (Frame ns (<[node r := hide el]> (els f)) (newIdx f) (Some (node r)))
    else ok (Frame ns (els f) (newIdx f) (ghost f))
  else
    let! (translate, current) := moveNode c el edgeOffset nextNode prevNode (newIdx f) in
    ok (Frame ns
          (<[node r := set_info (set_translate (Some translate) (info el)) el]> (els f))
          current (ghost f)).

(** The body of the second loop, for position [i]. *)
Definition applyNode (p : props) (isDropAllowed : bool) (i : nat) (f : frame)
  : result frame :=
  let! r := deref (nodes f !! i) in
  let el := els f (node r) in
  match translate (info el) with
  | None => ok f
  | Some tr =>
      let tr := if isDropAllowed then tr else Point 0 0 in
      let st := nodeStyle el in
      let st :=
        if truthy (transitionDuration p)
        then set_TransitionDuration (durationMs (transitionDuration p)) st
        else st in
      let st := set_Transform (translate3d (x tr) (y tr)) st in
      ok (Frame (nodes f)
            (<[node r := set_nodeStyle st (set_info (set_translate (Some tr) (info el)) el)]>
               (els f))
            (newIdx f) (ghost f))
  end.

(** The constants of one call of [animateNodes]: [deltaScroll],
    [sortingOffset] and [scrollDifference], after the ordered items. *)
Definition dragContext (s : t) : result (list ref * reflow) :=
  let! ordered := getOrderedRefs (elements s) (this_manager s) in
  let! ss := deref (this_session s) in
  let deltaScroll :=
    Edge (scrollTop (scrollContainer s) - top (this_initialScroll ss))
         (scrollLeft (scrollContainer s) - left (this_initialScroll ss)) in
  let! tr := deref (this_translate s) in
  let sortingOffset :=
    Edge (top (this_offsetEdge ss) + y tr + top deltaScroll)
         (left (this_offsetEdge ss) + x tr + left deltaScroll) in
  let scrollDifference :=
    Edge (pageYOffset (window s) - top (this_initialWindowScroll ss))
         (pageXOffset (window s) - left (this_initialWindowScroll ss)) in
  ok (ordered, Reflow (this_props s) (state_isOrigin s) ss sortingOffset scrollDifference).

(** [animateNodes] up to the default of [this.newIndex]: the first loop
    over the ordered items, which leaves the tentative new index in
    [newIdx]. *)
Definition computeNodes (s : t) : result (reflow * frame) :=
  let! (ordered, c) := dragContext s in
  let! f := forLoop (length ordered) 0 (animateNode c)
              (Frame ordered (elements s) None (this_sortableGhost s)) in
  ok (c, Frame (nodes f) (els f)
           (match newIdx f with
            | Some i => Some i
            | None => this_index (drag c)
            end)
           (ghost f)).

(** [!canSortDrop || canSortDrop({isOrigin, oldIndex, newIndex, collection})] *)
Definition isDropAllowed (c : reflow) (tentative : option Z) (a : marker) : bool :=
  match canSortDrop (config c) with
  | None => true
  | Some allowed =>
      allowed (Drop (isOrigin c) (this_index (drag c)) tentative (activeCollection a))
  end.

(** [animateNodes()] *)
Definition animateNodes (s : t) : result t :=
  let! (c, f) := computeNodes s in
  let! a := deref (active (this_manager s)) in
  let allowed := isDropAllowed c (newIdx f) a in
  let! f := forLoop (length (nodes f)) 0 (applyNode (config c) allowed) f in
  let final := if allowed then newIdx f else this_index (drag c) in
  ok (set_this_session (Some (set_this_newIndex final (drag c)))
        (set_this_sortableGhost (ghost f)
           (set_elements (els f)
              (set_this_manager
                 (set_refs (<[activeCollection a := nodes f]> (refs (this_manager s)))
                    (this_manager s)) s)))).

(** *** Autoscroll *)

(** The direction and speed objects after the chain of tests on the
    translate of the helper. *)
Definition edgeScroll (ss : session) (translate : point) : interval :=
  let h := this_height ss in
  let w := this_width ss in
  let still := Interval (Point 1 1) (Point 0 0) in
  let down :=
    match boundY (this_maxTranslate ss) with
    | Some maxY =>
        if Qle_bool (maxY - h / 2) (y translate)
        then Some (Interval (Point 1 (10 * Qabs ((maxY - h / 2 - y translate) / h)))
                     (Point 0 1))
        else None
    | None => None
    end in
  let right :=
    match boundX (this_maxTranslate ss) with
    | Some maxX =>
        if Qle_bool (maxX - w / 2) (x translate)
        then Some (Interval (Point (10 * Qabs ((maxX - w / 2 - x translate) / w)) 1)
                     (Point 1 0))
        else None
    | None => None
    end in
  let up :=
    match boundY (this_minTranslate ss) with
    | Some minY =>
        if Qle_bool (y translate) (minY + h / 2)
        then Some (Interval (Point 1 (10 * Qabs ((y translate - h / 2 - minY) / h)))
                     (Point 0 (-1)))
        else None
    | None => None
    end in
  let left :=
    match boundX (this_minTranslate ss) with
    | Some minX =>
        if Qle_bool (x translate) (minX + w / 2)
        then Some (Interval (Point (10 * Qabs ((x translate - w / 2 - minX) / w)) 1)
                     (Point (-1) 0))
        else None
    | None => None
    end in
  match down, right, up, left with
  | Some v, _, _, _ => v
  | None, Some v, _, _ => v
  | None, None, Some v, _ => v
  | None, None, None, Some v => v
  | None, None, None, None => still
  end.

(** [autoscroll()]: the running interval is cleared, and a new one is set
    when a direction is not zero. *)
Definition autoscroll (s : t) : result t :=
  let! translate := deref (this_translate s) in
  let! ss := deref (this_session s) in
  let v := edgeScroll ss translate in
  let s :=
    match this_autoscrollInterval s with
    | Some _ => set_this_isAutoScrolling false (set_this_autoscrollInterval None s)
    | None => s
    end in
  ok (if negb (Qeq_bool (x (direction v)) 0) || negb (Qeq_bool (y (direction v)) 0)
      then set_this_autoscrollInterval (Some v) s
      else s).

(** One run of the callback of the autoscroll interval; nothing runs
    when no interval is set. *)
Definition autoscrollTick (s : t) : result t :=
  match this_autoscrollInterval s with
  | None => ok s
  | Some v =>
      let s := set_this_isAutoScrolling true s in
      let offsetLeft := 1 * x (speed v) * x (direction v) in
      let offsetTop := 1 * y (speed v) * y (direction v) in
      let sc := scrollContainer s in
      let s := set_scrollContainer
                 (Scroll (settle (window s) (scrollTop sc + offsetTop)) (scrollLeft sc)) s in
      let sc := scrollContainer s in
      let s := set_scrollContainer
                 (Scroll (scrollTop sc) (settle (window s) (scrollLeft sc + offsetLeft))) s in
      let! tr := deref (this_translate s) in
      let s := set_this_translate (Some (Point (x tr + offsetLeft) (y tr + offsetTop))) s in
      animateNodes s
  end.

(** [handleSortMove(e)] *)
Definition handleSortMove (e : event) (s : t) : result t :=
  let s := if this_paused s then set_this_paused false s else s in
  let! s := updatePosition e s in
  let! s := animateNodes s in
  let! s := autoscroll s in
  ok (if onSortMove (this_props s) then set_calls (calls s ++ [sortMove e]) s else s).

(** *** Pausing, ending and starting a drag *)

#[export] Instance listener_eq_dec : EqDecision listener.
Proof. solve_decision. Defined.

(** The reset of one registered item in [pauseSortMove] and
    [handleSortEnd]: the cached offset is dropped, the translate is a new
    zero object, and the styles get the given values. *)
Definition resetRef (r : ref) : ref := Ref (node r) None.

Definition resetElement (restyle : style → style) (d : dom) (r : ref) : dom :=
  let el := d (node r) in
  <[node r := set_nodeStyle (restyle (nodeStyle el))
                (set_info (set_translate (Some (Point 0 0)) (info el)) el)]> d.

(** [pauseSortMove()] *)
Definition pauseSortMove (s : t) : t :=
  let s :=
    match this_autoscrollInterval s with
    | Some _ => set_this_isAutoScrolling false (set_this_autoscrollInterval None s)
    | None => s
    end in
  match this_paused s, active (this_manager s) with
  | false, Some a =>
      match refs (this_manager s) !! activeCollection a with
      | Some registered =>
          set_elements (foldl (resetElement (set_Transform translate3dZero)) (elements s) registered)
            (set_this_manager
               (set_refs (<[activeCollection a := resetRef <$> registered]> (refs (this_manager s)))
                  (this_manager s))
               (set_this_paused true s))
      | None => s
      end
  | _, _ => s
  end.

(** [handleSortEnd(e)] *)
Definition handleSortEnd (e : event) (s : t) : result t :=
  let p := this_props s in
  let! a := deref (active (this_manager s)) in
  let collection := activeCollection a in
  let s :=
    match this_listenerNode s with
    | Some l => set_listeners (filter (λ l', l' ≠ l) (listeners s)) s
    | None => s
    end in
  let s :=
    match this_helper s with
    | Some _ =>
        let s := set_this_helper None s in
        match hideSortableGhost p, this_sortableGhost s with
        | true, Some g =>
            set_this_sortableGhost None
              (set_elements
                 (<[g := set_nodeStyle
                           (set_visibility visibilityEmpty opacityEmpty
                              (nodeStyle (elements s g)))
                           (elements s g)]> (elements s)) s)
        | _, _ => s
        end
    | None => s
    end in
  let s :=
    match refs (this_manager s) !! collection with
    | Some registered =>
        set_elements
          (foldl (resetElement (λ st, set_TransitionDuration durationEmpty
                                        (set_Transform transformEmpty st)))
             (elements s) registered)
          (set_this_manager
             (set_refs (<[collection := resetRef <$> registered]> (refs (this_manager s)))
                (this_manager s)) s)
    | None => s
    end in
  let s := set_this_autoscrollInterval None s in
  let s := set_this_manager (set_active None (this_manager s)) s in
  let s := set_state_sorting false (set_state_isOrigin false s) in
  let s :=
    if onSortEnd p
    then set_calls
           (calls s ++ [sortEnd (Commit (this_index <$> this_session s)
                                    (this_newIndex <$> this_session s) collection)]) s
    else s in
  ok (set_this_touched false (set_this_paused false s)).

(** [axis.indexOf(c) >= 0] for a one-character string [c]. *)
Fixpoint contains (c : ascii) (s : string) : bool :=
  match s with
  | EmptyString => false
  | String c' rest => Ascii.eqb c c' || contains c rest
  end.

(** [Math.max] *)
Definition max (a b : Q) : Q := if Qle_bool a b then b else a.

(** [handlePress(e, origin)].  [getActive] stands for the method of the
    manager that looks the active item up (its source is not part of these
    files), [ly] is what the DOM measures at the press, [origin] is the
    second argument: [None] when it is not given, else [origin.node]. *)
Definition handlePress (getActive : dom → manager → result (option ref)) (ly : layout)
    (e : event) (origin : option (option nat)) (s : t) : result t :=
  let isOrigin := bool_decide (origin = None) in
  let! (pressed, s) :=
    match origin with
    | None =>
        let! a := getActive (elements s) (this_manager s) in
        ok (node <$> a, s)
    | Some n =>
        ok (n, set_this_manager (set_active (Some (Marker None "0")) (this_manager s)) s)
    end in
  match pressed with
  | None => ok s
  | Some n =>
      let p := this_props s in
      let! a := deref (active (this_manager s)) in
      let index := activeIndex a in
      let collection := activeCollection a in
      let margin := elementMargin ly in
      let containerBoundingRect := containerRect ly in
      let '(width, height) := getHelperDimensions p index (elements s n) collection in
      let boundingClientRect := nodeBoundingClientRect ly in
      let axisX := contains "x" (axis p) in
      let axisY := contains "y" (axis p) in
      let offsetEdge :=
        Edge (rectTop boundingClientRect - rectTop containerBoundingRect
              + scrollTop (containerScroll (window s)))
             (rectLeft boundingClientRect - rectLeft containerBoundingRect
              + scrollLeft (containerScroll (window s))) in
      let! initialOffset := getOffset e in
      let s :=
        if isOrigin then
          let s :=
            set_this_helper
              (Some (Helper (rectTop boundingClientRect - marginTop margin)
                       (rectLeft boundingClientRect - marginLeft margin)
                       width height (helperClass p) None)) s in
          if hideSortableGhost p
          then set_elements (<[n := hide (elements s n)]> (elements s))
                 (set_this_sortableGhost (Some n) s)
          else s
        else s in
      let lowX := if useWindowAsScrollContainer p then 0 else rectLeft containerBoundingRect in
      let highX := if useWindowAsScrollContainer p then innerWidth (window s)
                   else rectLeft containerBoundingRect + rectWidth containerBoundingRect in
      let lowY := if useWindowAsScrollContainer p then 0 else rectTop containerBoundingRect in
      let highY := if useWindowAsScrollContainer p then innerHeight (window s)
                   else rectTop containerBoundingRect + rectHeight containerBoundingRect in
      let minTranslate :=
        Bounds (if axisX then Some (lowX - rectLeft boundingClientRect - width / 2) else None)
               (if axisY then Some (lowY - rectTop boundingClientRect - height / 2) else None) in
      let maxTranslate :=
        Bounds (if axisX then Some (highX - rectLeft boundingClientRect - width / 2) else None)
               (if axisY then Some (highY - rectTop boundingClientRect - height / 2) else None) in
      let s :=
        if isOrigin && negb (useCustomEvents p) then
          let l := match touches e with Some _ => onNode n | None => onWindow end in
          set_listeners (if bool_decide (l ∈ listeners s) then listeners s else listeners s ++ [l])
            (set_this_listenerNode (Some l) s)
        else s in
      let s :=
        set_this_session
          (Some (Session n margin width height
                   (Point (marginLeft margin + marginRight margin)
                          (max (marginTop margin) (marginBottom margin)))
                   boundingClientRect containerBoundingRect index index (axisX, axisY)
                   offsetEdge initialOffset
                   (Edge (scrollTop (scrollContainer s)) (scrollLeft (scrollContainer s)))
                   (Edge (pageYOffset (window s)) (pageXOffset (window s)))
                   minTranslate maxTranslate)) s in
      let s := set_state_sorting true (set_state_isOrigin isOrigin s) in
      ok (if onSortStart p && isOrigin
          then set_calls (calls s ++ [sortStart n index collection]) s
          else s)
  end.

End Container.

(** ** The first loop, item by item

    The decision the first loop of [animateNodes] takes for one item,
    separated from the bookkeeping of [this.newIndex], and the reading of
    both loops as functions of the position in the ordered items. *)

Module Items.
Import Js Utils Container.

Local Open Scope Q_scope.

(** An item stays, or is pushed forward (it lies before the dragged one
    and makes room by moving towards the end), or is pushed backward. *)
Inductive move :=
  | stay
  | forward (tr : point)
  | backward (tr : point).

Definition translateOf (m : move) : point :=
  match m with
  | stay => Point 0 0
  | forward tr | backward tr => tr
  end.

(** What a decision does to [this.newIndex]: a forward item sets it when
    it is still [null], a backward item always does. *)
Definition track (index : Z) (m : move) (current : option Z) : option Z :=
  match m with
  | stay => current
  | forward _ => orIndex current index
  | backward _ => Some index
  end.

(** The left and top edge of the dragged box, as every test reads them:
    [sortingOffset.left + scrollDifference.left] and the same for [top]. *)
Definition boxLeft (c : reflow) : Q := left (sortingOffset c) + left (scrollDifference c).
Definition boxTop (c : reflow) : Q := top (sortingOffset c) + top (scrollDifference c).

(** [offset.width] and [offset.height] of an item. *)
Definition halfWidth (c : reflow) (el : element) : Q :=
  halfSmaller (this_width (drag c)) (offsetWidth el).
Definition halfHeight (c : reflow) (el : element) : Q :=
  halfSmaller (this_height (drag c)) (offsetHeight el).

(** The slot: the extent of the dragged element plus its margin. *)
Definition slotX (c : reflow) : Q := this_width (drag c) + x (this_marginOffset (drag c)).
Definition slotY (c : reflow) : Q := this_height (drag c) + y (this_marginOffset (drag c)).

(** The tests of the grid. *)
Definition gridBefore (c : reflow) (el : element) (e : edge) : bool :=
  (Qle_bool (boxLeft c - halfWidth c el) (left e)
   && Qle_bool (boxTop c) (top e + halfHeight c el))
  || Qle_bool (boxTop c + halfHeight c el) (top e).

Definition gridAfter (c : reflow) (el : element) (e : edge) : bool :=
  (Qle_bool (left e) (boxLeft c + halfWidth c el)
   && Qle_bool (top e) (boxTop c + halfHeight c el))
  || Qle_bool (top e + offsetHeight el) (boxTop c + halfHeight c el).

(** One slot to the right passes the right bound; one slot to the left
    passes the left bound. *)
Definition passesRight (c : reflow) (el : element) (e : edge) : bool :=
  Qltb (rectWidth (this_containerBoundingRect (drag c)) - halfWidth c el) (left e + slotX c).

Definition passesLeft (c : reflow) (el : element) (e : edge) : bool :=
  Qltb (left e + - slotX c) (rectLeft (this_containerBoundingRect (drag c)) + halfWidth c el).

Definition isBefore (c : reflow) (el : element) : bool :=
  (index (info el) <? toNumber (this_index (drag c)))%Z.
Definition isAfter (c : reflow) (el : element) : bool :=
  (toNumber (this_index (drag c)) <? index (info el))%Z.

Definition decideGrid (c : reflow) (el : element) (edgeOffset : option edge)
    (nextNode prevNode : option ref) : result move :=
  let! before :=
    if isBefore c el then let! e := deref edgeOffset in ok (gridBefore c el e)
    else ok false in
  if before then
    let! e := deref edgeOffset in
    if passesRight c el e then
      let! n := deref (nextNode ≫= Container.edgeOffset) in
      ok (forward (Point (left n - left e) (top n - top e)))
    else ok (forward (Point (slotX c) 0))
  else
    let! after :=
      if isAfter c el then let! e := deref edgeOffset in ok (gridAfter c el e)
      else ok false in
    if after then
      let! e := deref edgeOffset in
      if passesLeft c el e then
        let! n := deref (prevNode ≫= Container.edgeOffset) in
        ok (backward (Point (left n - left e) (top n - top e)))
      else ok (backward (Point (- slotX c) 0))
    else ok stay.

Definition decideRow (c : reflow) (el : element) (edgeOffset : option edge) : result move :=
  let! after :=
    if isAfter c el
    then let! e := deref edgeOffset in ok (Qle_bool (left e) (boxLeft c + halfWidth c el))
    else ok false in
  if after then ok (backward (Point (- slotX c) 0))
  else
    let! before :=
      if negb (isOrigin c) || isBefore c el
      then let! e := deref edgeOffset in ok (Qle_bool (boxLeft c) (left e + halfWidth c el))
      else ok false in
    if before then ok (forward (Point (slotX c) 0)) else ok stay.

(** The argument the hover callback gets for an item; [fromZero] is the
    test [node.sortableInfo.translate.y === 0], [step] is where the gap
    index lies when it holds, [near] and [far] the two tags. *)
Definition hoverArgument (c : reflow) (el : element) (e : edge) (fromZero : bool)
    (step : Z) (near far : gap) : hover :=
  Hover (isOrigin c) (this_index (drag c)) (boxTop c) (boxTop c + this_height (drag c))
    (index (info el)) (top e) (top e + offsetHeight el)
    (if fromZero then index (info el) + step else index (info el))%Z
    (if fromZero then near else far).

Definition decideColumn (c : reflow) (el : element) (edgeOffset : option edge) : result move :=
  let draggedTop := boxTop c in
  let draggedBottom := boxTop c + this_height (drag c) in
  let! e := deref edgeOffset in
  let edgeTop := top e in
  let edgeBottom := top e + offsetHeight el in
  if negb (isOrigin c) || isBefore c el then
    let! shouldTranslate :=
      match onSortHover (config c) with
      | Some hovering =>
          if Qltb draggedTop edgeBottom && Qltb edgeTop draggedTop then
            let! tr := deref (translate (info el)) in
            ok (hovering (hoverArgument c el e (Qeq_bool (y tr) 0) 1 BELOW ABOVE))
          else ok (Qltb draggedTop edgeBottom)
      | None => ok (Qltb draggedTop edgeBottom)
      end in
    ok (if shouldTranslate then forward (Point 0 (slotY c)) else stay)
  else if isAfter c el then
    let! shouldTranslate :=
      match onSortHover (config c) with
      | Some hovering =>
          if Qltb edgeTop draggedBottom && Qltb draggedBottom edgeBottom then
            let! tr := deref (translate (info el)) in
            ok (hovering (hoverArgument c el e (Qeq_bool (y tr) 0) (-1) ABOVE BELOW))
          else ok (Qltb edgeTop draggedBottom)
      | None => ok (Qltb edgeTop draggedBottom)
      end in
    ok (if shouldTranslate then backward (Point 0 (- slotY c)) else stay)
  else ok stay.

Definition decideMove (c : reflow) (el : element) (edgeOffset : option edge)
    (nextNode prevNode : option ref) : result move :=
  let '(axisX, axisY) := this_axis (drag c) in
  if axisX then
    if axisY then decideGrid c el edgeOffset nextNode prevNode
    else decideRow c el edgeOffset
  else if axisY then decideColumn c el edgeOffset
  else ok stay.

(** The offset an item has once it is cached. *)
Definition offsetOf (d : dom) (r : ref) : option edge := edgeOffset (cacheEdgeOffset d r).

(** The decision for the item at position [i] of the ordered items:
    [None] for the dragged item, which the loop skips. *)
Definition itemMove (c : reflow) (d : dom) (ns : list ref) (i : nat)
  : result (option move) :=
  let! r := deref (ns !! i) in
  let el := d (node r) in
  if strictEq (index (info el)) (this_index (drag c)) then ok None
  else
    let! m := decideMove c el (offsetOf d r)
                (cacheEdgeOffset d <$> ns !! S i)
                (cacheEdgeOffset d <$> (if (0 <? i)%nat then ns !! (i - 1)%nat else None)) in
    ok (Some m).

(** The decisions for the first [k] positions; the first failure ends
    them as it ends the loop. *)
Fixpoint itemMoves (c : reflow) (d : dom) (ns : list ref) (k : nat)
  : result (list (option move)) :=
  match k with
  | O => ok []
  | S k' =>
      let! ms := itemMoves c d ns k' in
      let! m := itemMove c d ns k' in
      ok (ms ++ [m])
  end.

(** What the first loop leaves in the element of an item. *)
Definition place (p : props) (m : option move) (el : element) : element :=
  match m with
  | None => if hideSortableGhost p then hide el else el
  | Some m => set_info (set_translate (Some (translateOf m)) (info el)) el
  end.

(** What the second loop leaves in the element of an item. *)
Definition paint (p : props) (allowed : bool) (el : element) : element :=
  match translate (info el) with
  | None => el
  | Some tr =>
      let tr := if allowed then tr else Point 0 0 in
      set_nodeStyle
        (set_Transform (translate3d (x tr) (y tr))
           (if truthy (transitionDuration p)
            then set_TransitionDuration (durationMs (transitionDuration p)) (nodeStyle el)
            else nodeStyle el))
        (set_info (set_translate (Some tr) (info el)) el)
  end.

(** [this.newIndex] after the decisions [ms] for the items [ns], from
    the value [current]; the loop starts from [null]. *)
Definition tracksFrom (current : option Z) (d : dom) (ns : list ref)
    (ms : list (option move)) : option Z :=
  foldl (λ current rm,
           match snd rm with
           | Some m => track (index (info (d (node (fst rm))))) m current
           | None => current
           end)
    current (zip ns ms).

Definition tracks (d : dom) (ns : list ref) (ms : list (option move)) : option Z :=
  tracksFrom None d ns ms.

(** The kinds of decisions. *)
Definition pushedForward (m : option move) : Prop := ∃ tr, m = Some (forward tr).
Definition pushedBackward (m : option move) : Prop := ∃ tr, m = Some (backward tr).

(** The properties of an element that the reflow reads and never writes. *)
Definition box (el : element) : Z * Q * Q * Q * Q * parent :=
  (index (info el), offsetTop el, offsetLeft el, offsetWidth el, offsetHeight el,
   parentNode el).

(** A state in which a reflow finds all it dereferences: an active
    marker and its collection, the session and the translate, items with
    distinct elements that are attached below the container and carry a
    translate object, and, for the grid, an item at the dragged index (so
    that the items before it have a next and the items after a previous
    one). *)
Definition measurable (d : dom) (r : ref) : bool :=
  bool_decide (is_Some (offsetOf d r))
  && bool_decide (is_Some (translate (info (d (node r))))).

Definition ready (s : t) : bool :=
  match active (this_manager s), this_session s, this_translate s with
  | Some a, Some ss, Some _ =>
      match refs (this_manager s) !! activeCollection a with
      | Some registered =>
          bool_decide (NoDup (node <$> registered))
          && forallb (measurable (elements s)) registered
          && (negb (fst (this_axis ss) && snd (this_axis ss))
              || existsb (λ r, (index (info (elements s (node r)))
                                =? toNumber (this_index ss))%Z) registered)
      | None => false
      end
  | _, _, _ => false
  end.

(** The state of the first loop after [k] iterations over the ordered
    items [ns0] of the elements [d0], against the decisions [ms] for the
    first [k] items. *)
Record inv1 (c : reflow) (d0 : dom) (ns0 : list ref)
    (k : nat) (f : frame) (ms : list (option move)) : Prop := Inv1 {
  inv_len : length (nodes f) = length ns0;
  inv_refs : ∀ j r, ns0 !! j = Some r →
    ∃ r', nodes f !! j = Some r' ∧ node r' = node r
          ∧ (edgeOffset r' = edgeOffset r ∨ edgeOffset r' = offsetOf d0 r)
          ∧ ((j < k)%nat → edgeOffset r' = offsetOf d0 r);
  inv_rest : ∀ n, n ∉ node <$> take k ns0 → els f n = d0 n;
  inv_box : ∀ n, box (els f n) = box (d0 n);
  inv_ms : length ms = k;
  inv_done : ∀ j r m, ns0 !! j = Some r → ms !! j = Some m →
    itemMove c d0 ns0 j = ok m ∧ els f (node r) = place (config c) m (d0 (node r));
  inv_idx : newIdx f = tracks d0 (take k ns0) ms;
}.

(** The frame after the iteration of the first loop for position [k],
    where the item is [r] and the decision for it is [m]. *)
Definition after1 (c : reflow) (d0 : dom) (ns0 : list ref)
    (k : nat) (f : frame) (r : ref) (m : option move) : frame :=
  let ns1 := <[k := Ref (node r) (offsetOf d0 r)]> (nodes f) in
  let ns2 :=
    match ns0 !! S k with
    | Some next => <[S k := Ref (node next) (offsetOf d0 next)]> ns1
    | None => ns1
    end in
  Frame ns2
    (match m with
     | None => if hideSortableGhost (config c)
               then <[node r := hide (d0 (node r))]> (els f) else els f
     | Some m' => <[node r := place (config c) m (d0 (node r))]> (els f)
     end)
    (match m with
     | Some m' => track (index (info (d0 (node r)))) m' (newIdx f)
     | None => newIdx f
     end)
    (match m with
     | None => if hideSortableGhost (config c) then Some (node r) else ghost f
     | Some _ => ghost f
     end).

(** The state of the second loop after [k] iterations from the frame [f]. *)
Record inv2 (p : props) (allowed : bool) (f : frame) (k : nat) (g : frame) : Prop := Inv2 {
  inv2_nodes : nodes g = nodes f;
  inv2_idx : newIdx g = newIdx f;
  inv2_ghost : ghost g = ghost f;
  inv2_rest : ∀ n, n ∉ node <$> take k (nodes f) → els g n = els f n;
  inv2_done : ∀ j r, (j < k)%nat → nodes f !! j = Some r →
    els g (node r) = paint p allowed (els f (node r));
}.

(** The tentative new index: what the first loop tracked, or the index
    of the drag when no item set it. *)
Definition tentativeIndex (c : reflow) (d : dom) (ns : list ref) (ms : list (option move))
  : option Z :=
  match tracks d ns ms with
  | Some i => Some i
  | None => this_index (drag c)
  end.

(** The drop is refused in the reflow of [s]: [canSortDrop] is given and
    answers false for the tentative new index. *)
Definition dropRefused (s : t) : bool :=
  match computeNodes s, active (this_manager s) with
  | inr (c, f), Some a => negb (isDropAllowed c (newIdx f) a)
  | _, _ => false
  end.

(** A reflow of [s] seen whole: the ordered items and the constants of
    the call, the decisions [ms] for the items, the frame [f] that the
    first loop leaves and the state [s'] that [animateNodes] returns. *)
Record reflowed (s : t) (ordered : list ref) (c : reflow) (ms : list (option move))
    (f : frame) (s' : t) : Prop := Reflowed {
  rf_context : dragContext s = ok (ordered, c);
  rf_config : config c = this_props s;
  rf_session : this_session s = Some (drag c);
  rf_origin : isOrigin c = state_isOrigin s;
  rf_registered : ∃ a registered,
    active (this_manager s) = Some a
    ∧ refs (this_manager s) !! activeCollection a = Some registered
    ∧ ordered ≡ₚ registered;
  rf_nodup : NoDup (node <$> ordered);
  rf_ascending : ∀ i j a b, (i < j)%nat → ordered !! i = Some a → ordered !! j = Some b →
    (index (info (elements s (node a))) ≤ index (info (elements s (node b))))%Z;
  rf_measurable : ∀ r, r ∈ ordered →
    is_Some (offsetOf (elements s) r) ∧ is_Some (translate (info (elements s (node r))));
  rf_moves : itemMoves c (elements s) ordered (length ordered) = ok ms;
  rf_length : length ms = length ordered;
  rf_compute : computeNodes s = ok (c, f);
  rf_tentative : newIdx f = tentativeIndex c (elements s) ordered ms;
  rf_item : ∀ j r m, ordered !! j = Some r → ms !! j = Some m →
    itemMove c (elements s) ordered j = ok m
    ∧ els f (node r) = place (config c) m (elements s (node r))
    ∧ elements s' (node r)
      = paint (config c) (negb (dropRefused s)) (place (config c) m (elements s (node r)));
  rf_run : animateNodes s = ok s';
  rf_newIndex : this_session s'
    = Some (set_this_newIndex (if dropRefused s then this_index (drag c) else newIdx f)
              (drag c));
  rf_helper : this_helper s' = this_helper s;
}.

End Items.

(** ** Sessions

    What happens to an active drag between the press and the end: moves
    of the pointer, runs of the autoscroll interval, pauses, and changes
    of the scroll positions by the host. *)

Module Session.
Import Js Utils Container.

Inductive input :=
  | pointer (e : event)
  | tick
  | pause
  | scrolled (w : host).

Definition step (i : input) (s : t) : result t :=
  match i with
  | pointer e => handleSortMove e s
  | tick => autoscrollTick s
  | pause => ok (pauseSortMove s)
  | scrolled w => ok (set_window w s)
  end.

Fixpoint run (inputs : list input) (s : t) : result t :=
  match inputs with
  | [] => ok s
  | i :: rest => let! s := step i s in run rest s
  end.

(** From a zero vertical translate the autoscroll adds nothing to it:
    the axis has no vertical bounds, or zero lies between the lines of
    the two vertical tests, [maxTranslate.y - height / 2] and
    [minTranslate.y + height / 2].  On a line itself the test holds and
    the speed is [10 * |0 / height|], which is zero for a height that is
    not. *)
Definition verticalRest (ss : session) : Prop :=
  match boundY (this_maxTranslate ss) with
  | Some maxY =>
      (0 < maxY - this_height ss / 2)%Q
      ∨ (maxY - this_height ss / 2 == 0 ∧ ¬ this_height ss == 0)%Q
  | None => True
  end
  ∧ match boundY (this_minTranslate ss) with
    | Some minY =>
        (minY + this_height ss / 2 < 0)%Q
        ∨ (minY + this_height ss / 2 == 0 ∧ ¬ this_height ss == 0)%Q
    | None => True
    end.

(** The drop predicate is given and refuses every drop. *)
Definition refusesAll (s : t) : Prop :=
  ∃ allowed, canSortDrop (this_props s) = Some allowed ∧ ∀ d, allowed d = false.

(** The new index of the session is the index the drag started from. *)
Definition settled (s : t) : Prop :=
  ∃ ss, this_session s = Some ss ∧ this_newIndex ss = this_index ss.

(** A drag locked to the horizontal axis whose vertical translate is at
    rest: the translate has [y] zero, and the running interval, if there
    is one, adds zero to it. *)
Definition restsVertically (s : t) : Prop :=
  lockAxis (this_props s) = Some "x"%string
  ∧ ∃ ss tr,
      this_session s = Some ss ∧ verticalRest ss
      ∧ this_translate s = Some tr ∧ (y tr == 0)%Q
      ∧ (∀ v, this_autoscrollInterval s = Some v →
           (1 * y (speed v) * y (direction v) == 0)%Q).

(** The tests of the autoscroll on a translate [t] against a bound that
    may be missing: [t >= bound - half] and [t <= bound + half]. *)
Definition atLeast (t : Q) (bound : option Q) (half : Q) : Prop :=
  match bound with
  | Some b => (b - half <= t)%Q
  | None => False
  end.

Definition atMost (t : Q) (bound : option Q) (half : Q) : Prop :=
  match bound with
  | Some b => (t <= b + half)%Q
  | None => False
  end.

End Session.

(** ** Example states *)

Module Examples.
Import Js Utils Container Items Session.

Local Open Scope Q_scope.

Definition plain : style := Style transformUnset durationUnset visibilityUnset opacityUnset.

(** A square item of side 100, a child of the container, as
    [setDraggable] registers it. *)
Definition tile (i : Z) (t l : Q) : element :=
  Element (SortableInfo i "0" (Some (Point 0 0))) t l 100 100 inContainer plain.

(** The default props, for an axis. *)
Definition defaults (ax : string) : props :=
  Props ax None false (lockSingle (lockString "50%")) 300 true false false None 0 0
    (λ _ el _, (offsetWidth el, offsetHeight el)) None None false false true.

Definition with_canSortDrop (f : option (dropArg → bool)) (p : props) : props :=
  Props (axis p) (lockAxis p) (lockToContainerEdges p) (lockOffset p) (transitionDuration p)
    (hideSortableGhost p) (useWindowAsScrollContainer p) (useCustomEvents p) (helperClass p)
    (distance p) (pressDelay p) (getHelperDimensions p) (onSortHover p) f
    (onSortStart p) (onSortMove p) (onSortEnd p).

Definition with_lockAxis (a : option string) (p : props) : props :=
  Props (axis p) a (lockToContainerEdges p) (lockOffset p) (transitionDuration p)
    (hideSortableGhost p) (useWindowAsScrollContainer p) (useCustomEvents p) (helperClass p)
    (distance p) (pressDelay p) (getHelperDimensions p) (onSortHover p) (canSortDrop p)
    (onSortStart p) (onSortMove p) (onSortEnd p).

Definition viewport : host := Host 0 0 1024 768 (Scroll 0 0) (Scroll 0 0) (λ q, q).

(** Items one below the other, side by side, and in a grid of two columns. *)
Definition column : dom := λ n, tile (Z.of_nat n) (inject_Z (100 * Z.of_nat n)) 0.
Definition row : dom := λ n, tile (Z.of_nat n) 0 (inject_Z (100 * Z.of_nat n)).
Definition grid : dom :=
  λ n, tile (Z.of_nat n) (inject_Z (100 * Z.of_nat (n / 2))) (inject_Z (100 * Z.of_nat (n mod 2))).

(** The manager with the items [0 .. n-1] registered, out of order, and
    the item [i] active. *)
Definition registry (items : list nat) (i : Z) : manager :=
  Manager {[ "0"%string := (λ n, Ref n None) <$> items ]} (Some (Marker (Some i) "0")).

(** A mounted container after [handleStart] marked an item active. *)
Definition mounted (p : props) (d : dom) (m : manager) : t :=
  Component p m d viewport false false None None None None None [] None false None
    false false [].

(** The lookup of the active item used in the examples: the registered
    item whose element carries the active index. *)
Definition activeItem (d : dom) (m : manager) : result (option ref) :=
  let! a := deref (active m) in
  let! registered := deref (refs m !! activeCollection a) in
  ok (list_find (λ r, Some (index (info (d (node r)))) = activeIndex a) registered
      ≫= λ found, Some (snd found)).

(** The container as its constructor leaves it. *)
Definition idle : t := mounted (defaults "y") column (Manager ∅ None).

(** A session of an item of side 100 whose translate may range over
    [-150, 50] on both axes. *)
Definition square : session :=
  Session 3 (Margins 0 0 0 0) 100 100 (Point 0 0) (Rect 100 100 100 100) (Rect 0 0 200 200)
    (Some 3%Z) (Some 3%Z) (true, true) (Edge 100 100) (Point 150 150) (Edge 0 0) (Edge 0 0)
    (Bounds (Some (-150)) (Some (-150))) (Bounds (Some 50) (Some 50)).

Definition orElse (r : result t) (s : t) : t :=
  match r with
  | inr s' => s'
  | inl _ => s
  end.

Definition mouse (px py : Q) : event := Event px py None.

(** A column of three in a container of 100 by 300; the middle item is
    pressed at its centre. *)
Definition columnStart : t := mounted (defaults "y") column (registry [2; 0; 1]%nat 1).
Definition columnLayout : layout :=
  Layout (Margins 0 0 0 0) (Rect 100 0 100 100) (Rect 0 0 100 300).
Definition columnDrag : t :=
  orElse (handlePress activeItem columnLayout (mouse 50 150) None columnStart) columnStart.

(** The same column with a drop predicate that refuses every drop. *)
Definition refusing : dropArg → bool := λ _, false.
Definition vetoStart : t :=
  mounted (with_canSortDrop (Some refusing) (defaults "y")) column (registry [2; 0; 1]%nat 1).
Definition vetoDrag : t :=
  orElse (handlePress activeItem columnLayout (mouse 50 150) None vetoStart) vetoStart.
Definition vetoMoved : t :=
  orElse (updatePosition (mouse 50 260) vetoDrag) vetoDrag.

(** A row of three in a container of 300 by 100; the middle item is
    pressed at its centre. *)
Definition rowStart : t := mounted (defaults "x") row (registry [1; 2; 0]%nat 1).
Definition rowLayout : layout :=
  Layout (Margins 0 0 0 0) (Rect 0 100 100 100) (Rect 0 0 300 100).
Definition rowDrag : t :=
  orElse (handlePress activeItem rowLayout (mouse 150 50) None rowStart) rowStart.
Definition rowMoved : t := orElse (updatePosition (mouse 200 50) rowDrag) rowDrag.

(** A grid of four in a container of 200 by 200; the last item is
    pressed at its centre and dragged over the second. *)
Definition gridStart : t := mounted (defaults "xy") grid (registry [0; 1; 2; 3]%nat 3).
Definition gridLayout : layout :=
  Layout (Margins 0 0 0 0) (Rect 100 100 100 100) (Rect 0 0 200 200).
Definition gridDrag : t :=
  orElse (handlePress activeItem gridLayout (mouse 150 150) None gridStart) gridStart.
Definition gridMoved : t := orElse (updatePosition (mouse 150 50) gridDrag) gridDrag.

(** The same grid with the horizontal lock, in a container that ends 50
    above the bottom of the pressed item. *)
Definition lockedStart : t :=
  mounted (with_lockAxis (Some "x"%string) (defaults "xy")) grid (registry [0; 1; 2; 3]%nat 3).
Definition lockedLayout : layout :=
  Layout (Margins 0 0 0 0) (Rect 100 100 100 100) (Rect 0 0 200 150).
Definition lockedDrag : t :=
  orElse (handlePress activeItem lockedLayout (mouse 150 150) None lockedStart) lockedStart.

(** The same grid with the horizontal lock in a container that ends
    with the pressed item: zero is on the line of the test for scrolling
    down. *)
Definition flushDrag : t :=
  orElse (handlePress activeItem gridLayout (mouse 150 150) None lockedStart) lockedStart.
Definition flushSession : session := default square (this_session flushDrag).
Definition flushMoved : t := orElse (handleSortMove (mouse 180 190) flushDrag) flushDrag.
Definition flushTicked : t := orElse (run [tick; tick] flushMoved) flushMoved.

End Examples.

(** ** Objects as maps *)

Module Objects.

Section Omit.
(** The own enumerable properties of an object, by name. *)
Context {V : Type}.

(** [omit(obj, ...keysToOmit)]: [Object.keys(obj).reduce] from the empty
    object, where the step copies [obj[key]] unless [keysToOmit] has the
    key. *)
Definition omit (obj : gmap string V) (keysToOmit : list string) : gmap string V :=
  foldl (λ acc property,
           if bool_decide (fst property ∈ keysToOmit) then acc
           else <[fst property := snd property]> acc)
    ∅ (map_to_list obj).

(** The names that [render] of the sortable container keeps from the
    wrapped component. *)
Definition containerOmitted : list string :=
  ["contentWindow"; "useWindowAsScrollContainer"; "distance"; "helperClass";
   "hideSortableGhost"; "transitionDuration"; "useDragHandle"; "pressDelay";
   "pressThreshold"; "shouldCancelStart"; "onSortStart"; "onSortMove"; "onSortEnd";
   "axis"; "lockAxis"; "lockOffset"; "lockToContainerEdges"; "getContainer";
   "getHelperDimensions"]%string.

(** The props that [render] of the sortable container hands to the
    wrapped component. *)
Definition containerRender (props : gmap string V) : gmap string V :=
  omit props containerOmitted.

(** The props that [render] of the sortable element hands to the wrapped
    component. *)
Definition elementRender (props : gmap string V) : gmap string V :=
  omit props ["collection"; "disabled"; "index"]%string.

End Omit.

End Objects.

(** ** The press gesture

    [handleStart], [handleMove] and [handleEnd], which the container
    registers on its own node, and the timers they set. *)

Module Press.
Import Js Utils Container.

Local Open Scope Q_scope.

(** A node on the way from the target of an event up to the root: its
    tag name; for an element that carries [sortableInfo], its address and
    the address of the manager that [sortableInfo.manager] refers to;
    and whether it carries [sortableHandle]. *)
Record pathNode := PathNode {
  tagName : string;
  sortable : option (nat * nat);
  sortableHandle : bool;
}.

(** [closest(el, fn)]: [el] is given with its chain of [parentNode]s,
    nearest first; the empty chain is [null]. *)
Fixpoint closest (el : list pathNode) (fn : pathNode → bool) : option pathNode :=
  match el with
  | [] => None
  | node :: parents => if fn node then Some node else closest parents fn
  end.

(** The event a press handler receives: the properties that the session
    reads, [button], [changedTouches], and the target with its ancestors. *)
Record pressEvent := PressEvent {
  native : event;
  button : option Z;
  changedTouches : option (list touch);
  target : pathNode;
  ancestors : list pathNode;
}.

(** The props that only the press handlers read; [shouldCancelStart]
    stands for the truthiness of what the callback returns. *)
Record pressProps := PressProps {
  shouldCancelStart : pressEvent → bool;
  useDragHandle : bool;
  pressThreshold : Q;
}.

(** [toLowerCase] on the letters of a tag name. *)
Definition lowerAscii (c : ascii) : ascii :=
  let n := nat_of_ascii c in
  if (65 <=? n)%nat && (n <=? 90)%nat then ascii_of_nat (n + 32) else c.

Fixpoint toLowerCase (s : string) : string :=
  match s with
  | EmptyString => EmptyString
  | String c rest => String (lowerAscii c) (toLowerCase rest)
  end.

(** The default of [shouldCancelStart]. *)
Definition disabledElements : list string :=
  ["input"; "textarea"; "select"; "option"; "button"]%string.

Definition defaultShouldCancelStart (e : pressEvent) : bool :=
  existsb (String.eqb (toLowerCase (tagName (target e)))) disabledElements.

(** The container with the fields that the press handlers use: the
    address of its manager, [_pos], [_delta], whether the timer of
    [cancelTimer] is pending, the press timers that were replaced while
    pending (they still run), and the events whose default was prevented. *)
Record press := Press {
  inner : t;
  pressConfig : pressProps;
  managerAddress : nat;
  this_pos : option point;
  this_delta : option point;
  cancelPending : bool;
  replacedTimers : list event;
  prevented : list pressEvent;
}.

Definition set_inner v (s : press) : press :=
  Press v (pressConfig s) (managerAddress s) (this_pos s) (this_delta s)
    (cancelPending s) (replacedTimers s) (prevented s).
Definition set_this_pos v (s : press) : press :=
  Press (inner s) (pressConfig s) (managerAddress s) v (this_delta s)
    (cancelPending s) (replacedTimers s) (prevented s).
Definition set_this_delta v (s : press) : press :=
  Press (inner s) (pressConfig s) (managerAddress s) (this_pos s) v
    (cancelPending s) (replacedTimers s) (prevented s).
Definition set_cancelPending v (s : press) : press :=
  Press (inner s) (pressConfig s) (managerAddress s) (this_pos s) (this_delta s)
    v (replacedTimers s) (prevented s).
Definition set_replacedTimers v (s : press) : press :=
  Press (inner s) (pressConfig s) (managerAddress s) (this_pos s) (this_delta s)
    (cancelPending s) v (prevented s).
Definition set_prevented v (s : press) : press :=
  Press (inner s) (pressConfig s) (managerAddress s) (this_pos s) (this_delta s)
    (cancelPending s) (replacedTimers s) v.

(** [{x: e.changedTouches ? e.changedTouches[0].pageX : e.pageX, y: ...}] *)
Definition changedOffset (e : pressEvent) : result point :=
  match changedTouches e with
  | Some ts =>
      let! t0 := deref (head ts) in
      ok (Point (touchPageX t0) (touchPageY t0))
  | None => ok (Point (pageX (native e)) (pageY (native e)))
  end.

(** [nodeIsChild(node)] *)
Definition nodeIsChild (s : press) (owner : nat) : bool :=
  bool_decide (owner = managerAddress s).

(** The ends of the range that a press leaves to the dragged element on
    an axis: those of the window or of the container. *)
Definition lowBound (ly : layout) (p : props) (horizontal : bool) : Q :=
  if useWindowAsScrollContainer p then 0
  else if horizontal then rectLeft (containerRect ly) else rectTop (containerRect ly).

Definition highBound (ly : layout) (p : props) (w : host) (horizontal : bool) : Q :=
  if useWindowAsScrollContainer p
  then (if horizontal then innerWidth w else innerHeight w)
  else if horizontal then rectLeft (containerRect ly) + rectWidth (containerRect ly)
       else rectTop (containerRect ly) + rectHeight (containerRect ly).

Section Handlers.
(** The lookups of the manager, whose source is not part of these files,
    and what the DOM measures when a press is handled. *)
Variable getActive : dom → manager → result (option ref).
Variable isActive : manager → bool.
Variable ly : layout.

(** [this.pressTimer = setTimeout(() => this.handlePress(e), pressDelay)];
    a timer that was pending keeps running. *)
Definition setPressTimer (e : event) (s : press) : press :=
  let s :=
    match this_pressTimer (inner s) with
    | Some e0 => set_replacedTimers (replacedTimers s ++ [e0]) s
    | None => s
    end in
  set_inner (set_this_pressTimer (Some e) (inner s)) s.

(** [handleStart(e)] *)
Definition handleStart (e : pressEvent) (s : press) : result press :=
  let p := this_props (inner s) in
  if bool_decide (button e = Some 2%Z) || shouldCancelStart (pressConfig s) e then ok s
  else
    let s := set_inner (set_this_touched true (inner s)) s in
    let! pos := changedOffset e in
    let s := set_this_pos (Some pos) s in
    match closest (target e :: ancestors e) (λ el, bool_decide (is_Some (sortable el))) with
    | Some (PathNode _ (Some (n, owner)) _) =>
        if nodeIsChild s owner && negb (state_sorting (inner s)) then
          let i := info (elements (inner s) n) in
          if useDragHandle (pressConfig s)
             && negb (bool_decide
                        (is_Some (closest (target e :: ancestors e) sortableHandle)))
          then ok s
          else
            let s :=
              set_inner
                (set_this_manager
                   (set_active (Some (Marker (Some (index i)) (collection i)))
                      (this_manager (inner s)))
                   (inner s)) s in
            let s :=
              if String.eqb (toLowerCase (tagName (target e))) "a"
              then set_prevented (prevented s ++ [e]) s else s in
            if negb (truthy (distance p)) then
              if Qeq_bool (pressDelay p) 0 then
                let! pressed := handlePress getActive ly (native e) None (inner s) in
                ok (set_inner pressed s)
              else ok (setPressTimer (native e) s)
            else ok s
        else ok s
    | _ => ok s
    end.

(** [Math.abs(this._delta.x) + Math.abs(this._delta.y)] *)
Definition travelled (delta : point) : Q := Qabs (x delta) + Qabs (y delta).

(** [handleMove(e)] *)
Definition handleMove (e : pressEvent) (s : press) : result press :=
  let p := this_props (inner s) in
  if negb (state_sorting (inner s)) && this_touched (inner s) then
    let! pos := deref (this_pos s) in
    let! now := changedOffset e in
    let delta := Point (x pos - x now) (y pos - y now) in
    let s := set_this_delta (Some delta) s in
    if negb (truthy (distance p))
       && (negb (truthy (pressThreshold (pressConfig s)))
           || (truthy (pressThreshold (pressConfig s))
               && Qle_bool (pressThreshold (pressConfig s)) (travelled delta)))
    then ok (set_cancelPending true s)
    else if truthy (distance p) && Qle_bool (distance p) (travelled delta)
            && isActive (this_manager (inner s))
    then
      let! pressed := handlePress getActive ly (native e) None (inner s) in
      ok (set_inner pressed s)
    else ok s
  else ok s.

(** [handleEnd()] *)
Definition handleEnd (s : press) : press :=
  let p := this_props (inner s) in
  let s := set_inner (set_this_touched false (inner s)) s in
  if negb (truthy (distance p)) then set_inner (cancel (inner s)) s
  else if negb (state_sorting (inner s))
  then set_inner (set_this_manager (set_active None (this_manager (inner s))) (inner s)) s
  else s.

(** The timers run.  [cancelTimer]: [this.cancel()]. *)
Definition runCancelTimer (s : press) : press :=
  if cancelPending s then set_cancelPending false (set_inner (cancel (inner s)) s) else s.

(** [pressTimer]: [this.handlePress(e)] with the event of the start. *)
Definition runPressTimer (s : press) : result press :=
  match this_pressTimer (inner s) with
  | Some e =>
      let! pressed :=
        handlePress getActive ly e None (set_this_pressTimer None (inner s)) in
      ok (set_inner pressed s)
  | None => ok s
  end.

(** A press timer that a later [handleStart] replaced runs as well:
    [this.handlePress(e)] with the event of its own start. *)
Definition runReplacedTimer (s : press) : result press :=
  match replacedTimers s with
  | e :: rest =>
      let! pressed := handlePress getActive ly e None (inner s) in
      ok (set_inner pressed (set_replacedTimers rest s))
  | [] => ok s
  end.

(** What happens to a container between two drags. *)
Inductive gesture :=
  | start (e : pressEvent)
  | moved (e : pressEvent)
  | ended
  | cancelTimer
  | pressTimer
  | replacedTimer.

Definition act (g : gesture) (s : press) : result press :=
  match g with
  | start e => handleStart e s
  | moved e => handleMove e s
  | ended => ok (handleEnd s)
  | cancelTimer => ok (runCancelTimer s)
  | pressTimer => runPressTimer s
  | replacedTimer => runReplacedTimer s
  end.

Fixpoint acts (gs : list gesture) (s : press) : result press :=
  match gs with
  | [] => ok s
  | g :: rest => let! s := act g s in acts rest s
  end.

End Handlers.

End Press.

(** ** The steps of [handleSortEnd]

    The blocks of [handleSortEnd] and [pauseSortMove], one by one, for
    stating what each leaves. *)

Module Ending.
Import Js Utils Container.

(** The listeners of the drag are removed from the node they were put on. *)
Definition removeListeners (s : t) : t :=
  match this_listenerNode s with
  | Some l => set_listeners (filter (λ l', l' ≠ l) (listeners s)) s
  | None => s
  end.

(** The helper is removed, and the hidden element is shown again. *)
Definition removeHelper (hide : bool) (s : t) : t :=
  match this_helper s with
  | Some _ =>
      if hide then
        match this_sortableGhost s with
        | Some g =>
            set_this_sortableGhost None
              (set_elements
                 (<[g := set_nodeStyle
                           (set_visibility visibilityEmpty opacityEmpty
                              (nodeStyle (elements s g)))
                           (elements s g)]> (elements s))
                 (set_this_helper None s))
        | None => set_this_helper None s
        end
      else set_this_helper None s
  | None => s
  end.

(** The loop over the registered items of a collection. *)
Definition resetItems (restyle : style → style) (collection : string) (s : t) : t :=
  match refs (this_manager s) !! collection with
  | Some registered =>
      set_elements (foldl (resetElement restyle) (elements s) registered)
        (set_this_manager
           (set_refs (<[collection := resetRef <$> registered]> (refs (this_manager s)))
              (this_manager s)) s)
  | None => s
  end.

(** The styles that the end of a drag and a pause write. *)
Definition endStyle (st : style) : style :=
  set_TransitionDuration durationEmpty (set_Transform transformEmpty st).

Definition pauseStyle (st : style) : style := set_Transform translate3dZero st.

(** [clearInterval(this.autoscrollInterval)] behind its test. *)
Definition stopAutoscroll (s : t) : t :=
  match this_autoscrollInterval s with
  | Some _ => set_this_isAutoScrolling false (set_this_autoscrollInterval None s)
  | None => s
  end.

End Ending.

(** ** The text of a lock offset *)

Module LockText.
Import Js Utils Container.

Inductive signText := noSign | plusSign | minusSign.

(** A decimal digit as a character, and digits as a string. *)
Definition digitChar (d : Z) : ascii := ascii_of_nat (48 + Z.to_nat d).

Fixpoint digitsText (ds : list Z) : string :=
  match ds with
  | [] => EmptyString
  | d :: rest => String (digitChar d) (digitsText rest)
  end.

Definition isDecimal (d : Z) : Prop := (0 ≤ d ≤ 9)%Z.

(** The strings that the pattern of [getLockPixelOffset] accepts: a sign
    or none, digits, a point followed by digits or no point, and the
    unit. *)
Definition signOf (sg : signText) : string :=
  match sg with noSign => "" | plusSign => "+" | minusSign => "-" end.

Definition fractionOf (fraction : option (list Z)) : string :=
  match fraction with
  | Some fracs => String "." (digitsText fracs)
  | None => ""
  end.

Definition unitOf (u : cssUnit) : string :=
  match u with px => "px" | percent => "%" end.

Definition lockText (sg : signText) (ints : list Z) (fraction : option (list Z)) (u : cssUnit)
  : string :=
  (signOf sg ++ digitsText ints ++ fractionOf fraction ++ unitOf u)%string.

(** The number that the digits of such a string spell, without and with
    its sign. *)
Definition lockMagnitude (ints fracs : list Z) : Q :=
  (inject_Z (decimal ints)
   + inject_Z (decimal fracs) / inject_Z (10 ^ Z.of_nat (length fracs)))%Q.

Definition lockNumberOf (sg : signText) (ints fracs : list Z) : Q :=
  match sg with
  | minusSign => (- lockMagnitude ints fracs)%Q
  | _ => lockMagnitude ints fracs
  end.

(** A text starts with a digit. *)
Definition startsWithDigit (s : string) : bool :=
  match s with
  | String c _ => isDigit c
  | EmptyString => false
  end.

End LockText.

(** ** The way up from an element *)

Module Ancestors.
Import Js Utils Container.

Local Open Scope Q_scope.

(** The chain of parents of an element ends in the container. *)
Fixpoint attached (p : parent) : bool :=
  match p with
  | inContainer => true
  | detached => false
  | inside _ _ up => attached up
  end.

(** The offsets of the parents below the container, summed. *)
Fixpoint above (p : parent) : edge :=
  match p with
  | inContainer | detached => Edge 0 0
  | inside upTop upLeft up => Edge (upTop + top (above up)) (upLeft + left (above up))
  end.

End Ancestors.

(** ** Example presses *)

Module Presses.
Import Js Utils Container Items Session Examples Press.

Local Open Scope Q_scope.

Definition with_pressDelay (delay : Q) (p : props) : props :=
  Props (axis p) (lockAxis p) (lockToContainerEdges p) (lockOffset p) (transitionDuration p)
    (hideSortableGhost p) (useWindowAsScrollContainer p) (useCustomEvents p) (helperClass p)
    (distance p) delay (getHelperDimensions p) (onSortHover p) (canSortDrop p)
    (onSortStart p) (onSortMove p) (onSortEnd p).

Definition with_distance (far : Q) (p : props) : props :=
  Props (axis p) (lockAxis p) (lockToContainerEdges p) (lockOffset p) (transitionDuration p)
    (hideSortableGhost p) (useWindowAsScrollContainer p) (useCustomEvents p) (helperClass p)
    far (pressDelay p) (getHelperDimensions p) (onSortHover p) (canSortDrop p)
    (onSortStart p) (onSortMove p) (onSortEnd p).

Definition with_lockToContainerEdges (lock : bool) (p : props) : props :=
  Props (axis p) (lockAxis p) lock (lockOffset p) (transitionDuration p)
    (hideSortableGhost p) (useWindowAsScrollContainer p) (useCustomEvents p) (helperClass p)
    (distance p) (pressDelay p) (getHelperDimensions p) (onSortHover p) (canSortDrop p)
    (onSortStart p) (onSortMove p) (onSortEnd p).

(** The default props of the press handlers. *)
Definition pressDefaults : pressProps := PressProps defaultShouldCancelStart false 5.

(** The left button goes down, or moves, on a [span] in the item [n] of
    a list whose manager has the address 7. *)
Definition click (px py : Q) (n : nat) : pressEvent :=
  PressEvent (mouse px py) (Some 0%Z) None (PathNode "SPAN" None false)
    [PathNode "LI" (Some (n, 7%nat)) false; PathNode "UL" None false].

(** A container with the manager at the address 7 that was not touched. *)
Definition untouched (s : t) : press := Press s pressDefaults 7 None None false [] [].

Definition pressOrElse (r : result press) (s : press) : press :=
  match r with
  | inr s' => s'
  | inl _ => s
  end.

(** The column of three with no item active, with the default props,
    with a press delay and with a distance. *)
Definition columnIdle (p : props) : press :=
  untouched (mounted p column (Manager (refs (registry [2; 0; 1]%nat 1)) None)).

Definition columnPressed (p : props) : press :=
  pressOrElse (handleStart activeItem columnLayout (click 50 150 1) (columnIdle p))
    (columnIdle p).

Definition delayed : props := with_pressDelay 200 (defaults "y").
Definition distant : props := with_distance 10 (defaults "y").

(** The column after a move of the pointer by one pixel, and the session
    of its drag. *)
Definition columnMoved : t :=
  orElse (handleSortMove (mouse 50 151) columnDrag) columnDrag.
Definition columnSession : session := default square (this_session columnDrag).

(** The column locked to the edges of its container. *)
Definition edgeStart : t :=
  mounted (with_lockToContainerEdges true (defaults "y")) column (registry [2; 0; 1]%nat 1).
Definition edgeDrag : t :=
  orElse (handlePress activeItem columnLayout (mouse 50 150) None edgeStart) edgeStart.
Definition edgeSession : session := default square (this_session edgeDrag).
Definition edgeLock : point * point :=
  match getLockPixelOffsets (this_props edgeDrag) edgeSession with
  | inr offsets => offsets
  | inl _ => (Point 0 0, Point 0 0)
  end.

(** The row after the reflow that follows the move. *)
Definition rowReflowed : t := orElse (animateNodes rowMoved) rowMoved.

End Presses.

(** ** [arrayMove] *)

Section ArrayMoveFacts.
Import Utils.
Context {A : Type}.
Implicit Types (h : gmap nat (list (option A))) (a b : list (option A)).
Local Open Scope Z_scope.

Lemma push_insert h array a v :
  h !! array = Some a → push h array v = <[array := a ++ [v]]> h.
Proof.
  intros Ha. unfold push. apply map_eq. intros l.
  destruct (decide (l = array)) as [->|Hne].
  - by rewrite lookup_alter_eq, lookup_insert_eq, Ha.
  - by rewrite lookup_alter_ne, lookup_insert_ne.
Qed.

Lemma slice0_eq h arr a :
  h !! arr = Some a → slice0 h arr = Some (<[fresh (dom h) := a]> h, fresh (dom h)).
Proof. intros Ha. unfold slice0. by rewrite Ha. Qed.

Lemma splice_eq h array a start deleteCount items :
  h !! array = Some a →
  splice h array start deleteCount items
  = Some (<[array := fst (spliceList a start deleteCount items)]> h,
          snd (spliceList a start deleteCount items)).
Proof.
  intros Ha. unfold splice. rewrite Ha. simpl.
  by destruct (spliceList a start deleteCount items).
Qed.

(** The loop pushes [k + 1] times when it starts from [k ≥ 0] and has
    fuel for the pushes and the last test. *)
Lemma pushLoop_pads fuel : ∀ h array a k,
  h !! array = Some a →
  0 ≤ k + 1 →
  (Z.to_nat (k + 1) < fuel)%nat →
  pushLoop fuel h array k
  = Some (<[array := a ++ replicate (Z.to_nat (k + 1)) None]> h).
Proof.
  induction fuel as [|fuel IH]; intros h array a k Ha Hk Hfuel; [lia|].
  simpl. destruct (Z.eqb_spec (k + 1) 0) as [Hz|Hnz].
  - rewrite Hz. simpl. rewrite app_nil_r. by rewrite insert_id.
  - rewrite (IH _ _ (a ++ [None]) (k - 1)).
    + rewrite (push_insert _ _ a) by done. rewrite insert_insert_eq.
      replace (Z.to_nat (k + 1)) with (S (Z.to_nat (k - 1 + 1))) by lia.
      simpl. by rewrite <- app_assoc.
    + rewrite (push_insert _ _ a) by done. apply lookup_insert_eq.
    + lia.
    + lia.
Qed.

Lemma spliceList_remove a (p : Z) v :
  0 ≤ p → a !! Z.to_nat p = Some v →
  spliceList a p 1 [] = (delete (Z.to_nat p) a, [v]).
Proof.
  intros Hp Hv. pose proof (lookup_lt_Some _ _ _ Hv) as Hlt.
  unfold spliceList, spliceStart, spliceCount.
  destruct (Z.ltb_spec p 0); [lia|].
  rewrite Z.min_l by lia.
  replace (Z.to_nat (Z.min (Z.max 1 0) (Z.of_nat (length a) - Z.of_nat (Z.to_nat p))))
    with 1%nat by lia.
  rewrite delete_take_drop. simpl. f_equal.
  - f_equal. f_equal. lia.
  - by rewrite (drop_S _ v) by done.
Qed.

Lemma spliceList_insert a (n : Z) v :
  0 ≤ n ≤ Z.of_nat (length a) →
  spliceList a n 0 [v] = (take (Z.to_nat n) a ++ v :: drop (Z.to_nat n) a, []).
Proof.
  intros Hn. unfold spliceList, spliceStart, spliceCount.
  destruct (Z.ltb_spec n 0); [lia|].
  rewrite Z.min_l by lia.
  replace (Z.to_nat (Z.min (Z.max 0 0) (Z.of_nat (length a) - Z.of_nat (Z.to_nat n))))
    with 0%nat by lia.
  simpl. by rewrite Nat.add_0_r.
Qed.

(** Moving inside the array: what is inserted back at [n] into the array
    without its element at [p]. *)
Lemma move_inside b (n : nat) v :
  (n ≤ length b)%nat →
  let result := take n b ++ v :: drop n b in
  result ≡ₚ v :: b ∧ length result = S (length b)
  ∧ result !! n = Some v ∧ delete n result = b.
Proof.
  intros Hn result. subst result. repeat split.
  - rewrite <- Permutation_middle. by rewrite take_drop.
  - rewrite length_app. simpl. rewrite length_take, length_drop. lia.
  - rewrite list_lookup_middle; [done|]. rewrite length_take. lia.
  - rewrite <- (take_drop n b) at 3.
    rewrite <- (delete_middle (take n b) (drop n b) v) .
    f_equal. rewrite length_take. lia.
Qed.

(** C10.  For an array [arr] of the heap and an index [previousIndex]
    inside it, [arrayMove] returns (given fuel for the padding loop) a new
    array: its address was free before the call, and every array that
    existed before, [arr] among them, is unchanged.  When [newIndex] is
    inside the array too, the result is a permutation of [arr] of the same
    length, with the element formerly at [previousIndex] at [newIndex] and
    all other elements in their former order.  When [newIndex] is at or
    past the end, the result is [arr] without the moved element, padded
    with [undefined] up to position [newIndex], where the moved element
    follows. *)
Theorem arrayMove_spec h arr a (previousIndex newIndex : Z) v (fuel : nat) :
  h !! arr = Some a →
  0 ≤ previousIndex →
  a !! Z.to_nat previousIndex = Some v →
  0 ≤ newIndex →
  (Z.to_nat (newIndex - Z.of_nat (length a)) + 2 ≤ fuel)%nat →
  ∃ h' array result,
    arrayMove fuel h arr previousIndex newIndex = Some (h', array)
    ∧ h !! array = None
    ∧ h' !! array = Some result
    ∧ (∀ l, l ≠ array → h' !! l = h !! l)
    ∧ h' !! arr = Some a
    ∧ (newIndex < Z.of_nat (length a) →
         result ≡ₚ a
         ∧ length result = length a
         ∧ result !! Z.to_nat newIndex = Some v
         ∧ delete (Z.to_nat newIndex) result = delete (Z.to_nat previousIndex) a)
    ∧ (Z.of_nat (length a) ≤ newIndex →
         result = delete (Z.to_nat previousIndex) a
                  ++ replicate (Z.to_nat (newIndex - Z.of_nat (length a) + 1)) None
                  ++ [v]
         ∧ length result = S (Z.to_nat newIndex)
         ∧ result !! Z.to_nat newIndex = Some v).
Proof.
  intros Harr Hp Hv Hn Hfuel.
  pose proof (lookup_lt_Some _ _ _ Hv) as Hplt.
  set (array := fresh (dom h)).
  assert (Hfresh : h !! array = None).
  { apply not_elem_of_dom. apply is_fresh. }
  assert (Hne : arr ≠ array) by (intros ->; congruence).
  (* the contents after the optional padding *)
  set (padded := if Z.of_nat (length a) <=? newIndex
                 then a ++ replicate (Z.to_nat (newIndex - Z.of_nat (length a) + 1)) None
                 else a).
  set (b := delete (Z.to_nat previousIndex) padded).
  set (result := take (Z.to_nat newIndex) b ++ v :: drop (Z.to_nat newIndex) b).
  assert (Hpv : padded !! Z.to_nat previousIndex = Some v).
  { subst padded. destruct (_ <=? _); [|done]. by apply lookup_app_l_Some. }
  assert (Hlenb : S (length b) = length padded).
  { subst b. rewrite length_delete by eauto. apply lookup_lt_Some in Hpv. lia. }
  assert (Hnb : 0 ≤ newIndex ≤ Z.of_nat (length b)).
  { subst padded. destruct (Z.leb_spec (Z.of_nat (length a)) newIndex).
    - rewrite length_app, length_replicate in Hlenb. lia.
    - lia. }
  exists (<[array := result]> h), array, result.
  split.
  { unfold arrayMove. rewrite (slice0_eq _ _ a) by done. fold array.
    cbn [mbind option_bind]. rewrite lookup_insert_eq. cbn [mbind option_bind].
    assert (Hpad : (if Z.of_nat (length a) <=? newIndex
                    then pushLoop fuel (<[array:=a]> h) array (newIndex - Z.of_nat (length a))
                    else Some (<[array:=a]> h)) = Some (<[array := padded]> h)).
    { subst padded. destruct (Z.leb_spec (Z.of_nat (length a)) newIndex).
      - rewrite (pushLoop_pads _ _ _ a); [|apply lookup_insert_eq|lia|lia].
        by rewrite insert_insert_eq.
      - done. }
    rewrite Hpad. cbn [mbind option_bind].
    rewrite (splice_eq _ _ padded) by apply lookup_insert_eq.
    rewrite (spliceList_remove _ _ v) by done. cbn [mbind option_bind fst snd].
    rewrite insert_insert_eq. fold b.
    rewrite (splice_eq _ _ b) by apply lookup_insert_eq.
    rewrite spliceList_insert by done. cbn [mbind option_bind fst snd first].
    by rewrite insert_insert_eq. }
  split; [done|].
  split; [apply lookup_insert_eq|].
  split; [intros l Hl; by apply lookup_insert_ne|].
  split; [by rewrite lookup_insert_ne|].
  destruct (move_inside b (Z.to_nat newIndex) v) as (Hperm & Hlen & Hat & Hdel); [lia|].
  fold result in Hperm, Hlen, Hat, Hdel.
  split.
  - intros Hin. subst padded.
    destruct (Z.leb_spec (Z.of_nat (length a)) newIndex); [lia|].
    repeat split; [|lia|done|done].
    rewrite Hperm. subst b. symmetry. by apply delete_Permutation.
  - intros Hout. subst padded.
    destruct (Z.leb_spec (Z.of_nat (length a)) newIndex); [|lia].
    rewrite length_app, length_replicate in Hlenb.
    repeat split; [|lia|done].
    subst result. rewrite take_ge, drop_ge by lia.
    subst b. rewrite !delete_take_drop.
    rewrite take_app_le, drop_app_le by lia.
    by rewrite <- !app_assoc.
Qed.

End ArrayMoveFacts.

(** ** The loops of [animateNodes] *)

Section Loops.
Import Js Utils Container Items.
Local Open Scope Q_scope.

Lemma bind_ok {A B} (a : A) (k : A → result B) : Js.bind (ok a) k = k a.
Proof. reflexivity. Qed.

Lemma bind_inv {A B} (m : result A) (k : A → result B) b :
  Js.bind m k = ok b → ∃ a, m = ok a ∧ k a = ok b.
Proof. destruct m as [e|a]; [discriminate|]. intros H. by exists a. Qed.

(** The loop run once more: the last iteration comes last. *)
Lemma forLoop_snoc {S} (body : nat → S → result S) n : ∀ start s,
  forLoop (Datatypes.S n) start body s
  = Js.bind (forLoop n start body s) (body (start + n)%nat).
Proof.
  induction n as [|n IH]; intros start s.
  - simpl. rewrite Nat.add_0_r. by destruct (body start s).
  - change (forLoop (Datatypes.S (Datatypes.S n)) start body s)
      with (Js.bind (body start s) (forLoop (Datatypes.S n) (Datatypes.S start) body)).
    change (forLoop (Datatypes.S n) start body s)
      with (Js.bind (body start s) (forLoop n (Datatypes.S start) body)).
    destruct (body start s) as [e|s']; [reflexivity|].
    change (forLoop (Datatypes.S n) (Datatypes.S start) body s'
            = Js.bind (forLoop n (Datatypes.S start) body s')
                (body (start + Datatypes.S n)%nat)).
    rewrite IH. by replace (Datatypes.S start + n)%nat with (start + Datatypes.S n)%nat by lia.
Qed.

(** The branches of the loop body are the decision followed by the
    bookkeeping of [this.newIndex]. *)
Lemma gridNode_decide c el eo nx pv cur :
  gridNode c el eo nx pv cur
  = (let! m := decideGrid c el eo nx pv in ok (translateOf m, track (index (info el)) m cur)).
Proof.
  unfold gridNode, decideGrid, isBefore, isAfter, gridBefore, gridAfter, passesRight,
    passesLeft, halfWidth, halfHeight, boxLeft, boxTop, slotX.
  destruct (_ <? _)%Z; simpl.
  - destruct eo as [e|]; simpl; [|done].
    destruct (_ || _); simpl.
    + destruct (Qltb _ _); simpl; [|done]. by destruct (nx ≫= edgeOffset).
    + destruct (_ <? _)%Z; simpl; [|done].
      destruct (_ || _); simpl; [|done].
      destruct (Qltb _ _); simpl; [|done]. by destruct (pv ≫= edgeOffset).
  - destruct (_ <? _)%Z; simpl; [|done].
    destruct eo as [e|]; simpl; [|done].
    destruct (_ || _); simpl; [|done].
    destruct (Qltb _ _); simpl; [|done]. by destruct (pv ≫= edgeOffset).
Qed.

Lemma rowNode_decide c el eo cur :
  rowNode c el eo cur
  = (let! m := decideRow c el eo in ok (translateOf m, track (index (info el)) m cur)).
Proof.
  unfold rowNode, decideRow, isBefore, isAfter, halfWidth, boxLeft, slotX.
  destruct (_ <? _)%Z; simpl.
  - destruct eo as [e|]; simpl; [|done].
    destruct (Qle_bool _ _); simpl; [done|].
    destruct (negb _ || _); simpl; [|done]. by destruct (Qle_bool _ _).
  - destruct (negb _ || _); simpl; [|done].
    destruct eo as [e|]; simpl; [|done]. by destruct (Qle_bool _ _).
Qed.

Lemma columnNode_decide c el eo cur :
  columnNode c el eo cur
  = (let! m := decideColumn c el eo in ok (translateOf m, track (index (info el)) m cur)).
Proof.
  unfold columnNode, decideColumn, isBefore, isAfter, hoverArgument, boxTop, slotY.
  destruct eo as [e|]; simpl; [|done].
  destruct (negb _ || _); simpl.
  - destruct (onSortHover _) as [hovering|]; simpl.
    + destruct (Qltb _ _ && Qltb _ _); simpl.
      * destruct (translate _) as [tr|]; simpl; [|done]. by destruct (hovering _).
      * by destruct (Qltb _ _).
    + by destruct (Qltb _ _).
  - destruct (_ <? _)%Z; simpl; [|done].
    destruct (onSortHover _) as [hovering|]; simpl.
    + destruct (Qltb _ _ && Qltb _ _); simpl.
      * destruct (translate _) as [tr|]; simpl; [|done]. by destruct (hovering _).
      * by destruct (Qltb _ _).
    + by destruct (Qltb _ _).
Qed.

Lemma moveNode_decide c el eo nx pv cur :
  moveNode c el eo nx pv cur
  = (let! m := decideMove c el eo nx pv in ok (translateOf m, track (index (info el)) m cur)).
Proof.
  unfold moveNode, decideMove. destruct (this_axis _) as [[] []].
  - apply gridNode_decide.
  - apply rowNode_decide.
  - apply columnNode_decide.
  - done.
Qed.

End Loops.

Section Pass1.
Import Js Utils Container Items.
Local Open Scope nat_scope.

Lemma getEdgeOffset_box el el' : box el = box el' → getEdgeOffset el = getEdgeOffset el'.
Proof. unfold box, getEdgeOffset. intros [= _ -> -> _ _ ->]. done. Qed.

Lemma ref_eta r : Ref (node r) (edgeOffset r) = r.
Proof. by destruct r. Qed.

Lemma cache_ref d r : cacheEdgeOffset d r = Ref (node r) (offsetOf d r).
Proof.
  unfold offsetOf, cacheEdgeOffset. destruct r as [n [e|]]; done.
Qed.

Lemma offsetOf_cases d r :
  (∃ e, edgeOffset r = Some e ∧ offsetOf d r = Some e)
  ∨ (edgeOffset r = None ∧ offsetOf d r = getEdgeOffset (d (node r))).
Proof.
  unfold offsetOf, cacheEdgeOffset. destruct (edgeOffset r) as [e|] eqn:E.
  - left. exists e. by rewrite E.
  - by right.
Qed.

(** Caching an item that already holds its own cached offset, or still
    its initial one, gives the cached item. *)
Lemma cache_again d d0 r r' :
  (∀ n, box (d n) = box (d0 n)) →
  node r' = node r →
  edgeOffset r' = edgeOffset r ∨ edgeOffset r' = offsetOf d0 r →
  cacheEdgeOffset d r' = Ref (node r) (offsetOf d0 r).
Proof.
  intros Hbox Hn He. rewrite cache_ref, Hn. f_equal.
  assert (Hg : getEdgeOffset (d (node r)) = getEdgeOffset (d0 (node r)))
    by apply getEdgeOffset_box, Hbox.
  destruct (offsetOf_cases d r') as [(e & E1 & E2)|(E1 & E2)];
    destruct (offsetOf_cases d0 r) as [(e0 & F1 & F2)|(F1 & F2)];
    destruct He as [He|He]; rewrite ?Hn in *; congruence.
Qed.

Lemma place_box p m el : box (place p m el) = box el.
Proof. destruct m as [m|]; simpl; [done|]. by destruct (hideSortableGhost p). Qed.

Lemma paint_box p allowed el : box (paint p allowed el) = box el.
Proof. unfold paint. by destruct (translate (info el)). Qed.

Lemma tracks_snoc d ns ms r m :
  length ns = length ms →
  tracks d (ns ++ [r]) (ms ++ [m])
  = match m with
    | Some m => track (index (info (d (node r)))) m (tracks d ns ms)
    | None => tracks d ns ms
    end.
Proof.
  intros Hlen. unfold tracks, tracksFrom. rewrite zip_with_app by done.
  by rewrite foldl_app.
Qed.

Lemma NoDup_fmap_lookup {A B} (g : A → B) (l : list A) i j a b :
  NoDup (g <$> l) → l !! i = Some a → l !! j = Some b → g a = g b → i = j.
Proof.
  intros Hnd Hi Hj Hg.
  apply (NoDup_lookup (g <$> l) i j (g a)); [done| |].
  - by rewrite list_lookup_fmap, Hi.
  - by rewrite list_lookup_fmap, Hj, Hg.
Qed.

Context (c : reflow) (d0 : dom) (ns0 : list ref).
Context (Hnd : NoDup (node <$> ns0)).

Local Abbreviation inv1 := (Items.inv1 c d0 ns0).
Local Abbreviation after1 := (Items.after1 c d0 ns0).

Lemma inv1_start g : inv1 0 (Frame ns0 d0 None g) [].
Proof.
  split; simpl; try done.
  intros j r Hj. exists r. repeat split; [done|by left|lia].
Qed.

Lemma not_in_take k r : ns0 !! k = Some r → node r ∉ node <$> take k ns0.
Proof.
  intros Hk Hin. apply list_elem_of_fmap in Hin as (r' & Heq & Hin).
  apply list_elem_of_lookup in Hin as (j & Hj).
  pose proof (lookup_lt_Some _ _ _ Hj) as Hlt. rewrite length_take in Hlt.
  rewrite lookup_take_lt in Hj by lia.
  assert (k = j) by (eapply (NoDup_fmap_lookup node); eauto). lia.
Qed.

Lemma animateNode_eq k f ms r :
  inv1 k f ms → ns0 !! k = Some r →
  animateNode c k f = (let! m := itemMove c d0 ns0 k in ok (after1 k f r m)).
Proof.
  intros Hinv Hk.
  destruct (inv_refs _ _ _ _ _ _ Hinv k r Hk) as (r' & Hk' & Hn & He & _).
  assert (Hel : els f (node r) = d0 (node r)).
  { apply (inv_rest _ _ _ _ _ _ Hinv). by apply not_in_take. }
  pose proof (cache_again (els f) d0 r r' (inv_box _ _ _ _ _ _ Hinv) Hn He) as Hcache.
  unfold animateNode, itemMove. rewrite Hk, Hk'. simpl.
  rewrite Hcache. simpl. rewrite Hn, Hel.
  set (ns1 := <[k := Ref (node r) (offsetOf d0 r)]> (nodes f)).
  assert (Hlen1 : length ns1 = length ns0).
  { subst ns1. rewrite length_insert. apply (inv_len _ _ _ _ _ _ Hinv). }
  (* the next item *)
  assert (Hnext :
    match (if S k <? length ns1 then ns1 !! S k else None) with
    | Some next => <[S k := cacheEdgeOffset (els f) next]> ns1
    | None => ns1
    end
    = match ns0 !! S k with
      | Some next => <[S k := Ref (node next) (offsetOf d0 next)]> ns1
      | None => ns1
      end).
  { destruct (ns0 !! S k) as [rn|] eqn:En.
    - pose proof (lookup_lt_Some _ _ _ En) as Hlt.
      destruct (inv_refs _ _ _ _ _ _ Hinv (S k) rn En) as (rn' & En' & Hnn & Hen & _).
      destruct (Nat.ltb_spec (S k) (length ns1)); [|lia].
      subst ns1. rewrite list_lookup_insert_ne by lia. rewrite En'.
      by rewrite (cache_again (els f) d0 rn rn' (inv_box _ _ _ _ _ _ Hinv) Hnn Hen).
    - apply lookup_ge_None in En.
      destruct (Nat.ltb_spec (S k) (length ns1)); [lia|done]. }
  rewrite Hnext. clear Hnext.
  set (ns2 := match ns0 !! S k with
              | Some next => <[S k := Ref (node next) (offsetOf d0 next)]> ns1
              | None => ns1
              end).
  assert (Hlen2 : length ns2 = length ns0).
  { subst ns2. destruct (ns0 !! S k); [rewrite length_insert|]; done. }
  assert (HnextNode : (if S k <? length ns2 then ns2 !! S k else None)
                      = cacheEdgeOffset d0 <$> ns0 !! S k).
  { subst ns2. destruct (ns0 !! S k) as [rn|] eqn:En.
    - pose proof (lookup_lt_Some _ _ _ En) as Hlt.
      rewrite length_insert, Hlen1.
      destruct (Nat.ltb_spec (S k) (length ns0)); [|lia].
      rewrite list_lookup_insert_eq by lia. simpl. by rewrite cache_ref.
    - apply lookup_ge_None in En. rewrite Hlen1.
      destruct (Nat.ltb_spec (S k) (length ns0)); [lia|done]. }
  assert (HprevNode : (if 0 <? k then ns2 !! (k - 1) else None)
                      = cacheEdgeOffset d0 <$> (if 0 <? k then ns0 !! (k - 1) else None)).
  { destruct (Nat.ltb_spec 0 k); [|done].
    assert (Hp : ns2 !! (k - 1) = nodes f !! (k - 1)).
    { subst ns2 ns1. destruct (ns0 !! S k);
        rewrite ?list_lookup_insert_ne by lia; done. }
    rewrite Hp.
    destruct (ns0 !! (k - 1)) as [rp|] eqn:Ep.
    - destruct (inv_refs _ _ _ _ _ _ Hinv (k - 1) rp Ep) as (rp' & Ep' & Hnp & _ & Hep).
      rewrite Ep'. simpl. rewrite cache_ref. f_equal.
      rewrite <- (ref_eta rp'). rewrite Hnp, Hep by lia. done.
    - apply lookup_ge_None in Ep. apply lookup_lt_Some in Hk. lia. }
  rewrite HnextNode, HprevNode.
  unfold Items.after1. fold ns1. fold ns2.
  destruct (strictEq _ _); simpl.
  - by destruct (hideSortableGhost _).
  - rewrite moveNode_decide. by destruct (decideMove _ _ _ _ _).
Qed.

Lemma after1_inv k f ms r m :
  inv1 k f ms → ns0 !! k = Some r → itemMove c d0 ns0 k = ok m →
  inv1 (S k) (after1 k f r m) (ms ++ [m]).
Proof.
  intros Hinv Hk Hm.
  pose proof (lookup_lt_Some _ _ _ Hk) as Hlt.
  pose proof (inv_len _ _ _ _ _ _ Hinv) as Hlen.
  pose proof (inv_ms _ _ _ _ _ _ Hinv) as Hms.
  assert (Hels : ∀ n, n ≠ node r →
    els (after1 k f r m) n = els f n).
  { intros n Hne. unfold Items.after1. simpl.
    destruct m as [m'|]; [|destruct (hideSortableGhost _)];
      rewrite ?fn_lookup_insert_ne by done; done. }
  assert (Helr : els (after1 k f r m) (node r) = place (config c) m (d0 (node r))).
  { unfold Items.after1. simpl.
    destruct m as [m'|]; simpl; [by rewrite fn_lookup_insert|].
    destruct (hideSortableGhost _); [by rewrite fn_lookup_insert|].
    apply (inv_rest _ _ _ _ _ _ Hinv). by apply not_in_take. }
  split.
  - unfold Items.after1. simpl. destruct (ns0 !! S k); rewrite !length_insert; done.
  - intros j rj Hj.
    destruct (inv_refs _ _ _ _ _ _ Hinv j rj Hj) as (rj' & Hj' & Hnj & Hej & Hdone).
    unfold Items.after1. simpl.
    destruct (decide (j = S k)) as [->|Hne1].
    + rewrite Hj. exists (Ref (node rj) (offsetOf d0 rj)).
      rewrite list_lookup_insert_eq by (rewrite length_insert; apply lookup_lt_Some in Hj; lia).
      simpl. split_and!; [done|done|by right|done].
    + assert (Hskip : ∀ l : list ref,
        match ns0 !! S k with
        | Some next => <[S k := Ref (node next) (offsetOf d0 next)]> l
        | None => l
        end !! j = l !! j).
      { intros l. destruct (ns0 !! S k); [|done]. by rewrite list_lookup_insert_ne. }
      rewrite Hskip.
      destruct (decide (j = k)) as [->|Hne2].
      * assert (rj = r) by congruence. subst rj.
        exists (Ref (node r) (offsetOf d0 r)).
        rewrite list_lookup_insert_eq by lia. simpl. split_and!; [done|done|by right|done].
      * exists rj'. rewrite list_lookup_insert_ne by done.
        split_and!; [done|done|done|]. intros ?. apply Hdone. lia.
  - intros n Hn. rewrite (take_S_r _ _ r) in Hn by done.
    rewrite fmap_app, elem_of_app in Hn. simpl in Hn.
    rewrite Hels.
    + apply (inv_rest _ _ _ _ _ _ Hinv). tauto.
    + intros ->. apply Hn. right. by apply list_elem_of_singleton.
  - intros n. destruct (decide (n = node r)) as [->|Hne].
    + rewrite Helr. apply place_box.
    + rewrite Hels by done. apply (inv_box _ _ _ _ _ _ Hinv).
  - rewrite length_app. simpl. lia.
  - intros j rj mj Hj Hmj.
    destruct (decide (j = k)) as [->|Hne].
    + assert (rj = r) by congruence. subst rj.
      rewrite lookup_app_r in Hmj by lia.
      replace (k - length ms) with 0 in Hmj by lia. simpl in Hmj.
      injection Hmj as <-. done.
    + assert (j < k).
      { apply lookup_lt_Some in Hmj. rewrite length_app in Hmj. simpl in Hmj. lia. }
      rewrite lookup_app_l in Hmj by lia.
      destruct (inv_done _ _ _ _ _ _ Hinv j rj mj Hj Hmj) as [H1 H2].
      split; [done|]. rewrite Hels; [done|].
      intros Heq. apply Hne. symmetry.
      by eapply (NoDup_fmap_lookup node ns0 k j r rj).
  - rewrite (take_S_r _ _ r) by done.
    rewrite tracks_snoc by (rewrite length_take; lia).
    unfold Items.after1. simpl. rewrite (inv_idx _ _ _ _ _ _ Hinv). by destruct m.
Qed.

(** The first loop run for [k] items follows the decisions for them: it
    fails where the first decision fails, and otherwise ends in a frame
    that holds what they decided. *)
Lemma pass1 g k :
  k ≤ length ns0 →
  match itemMoves c d0 ns0 k with
  | inl e => forLoop k 0 (animateNode c) (Frame ns0 d0 None g) = inl e
  | inr ms => ∃ f, forLoop k 0 (animateNode c) (Frame ns0 d0 None g) = ok f ∧ inv1 k f ms
  end.
Proof.
  induction k as [|k IH]; intros Hk.
  - simpl. eexists. split; [done|]. apply inv1_start.
  - rewrite forLoop_snoc. simpl itemMoves.
    specialize (IH ltac:(lia)).
    destruct (itemMoves c d0 ns0 k) as [e|ms]; simpl.
    + by rewrite IH.
    + destruct IH as (f & -> & Hinv). simpl.
      destruct (lookup_lt_is_Some_2 ns0 k ltac:(lia)) as [r Hr].
      rewrite (animateNode_eq k f ms r Hinv Hr).
      destruct (itemMove c d0 ns0 k) as [e|m] eqn:Em; simpl; [done|].
      eexists. split; [done|]. by apply after1_inv.
Qed.

End Pass1.

Section Pass2.
Import Js Utils Container Items.
Local Open Scope nat_scope.

Context (p : props) (allowed : bool) (f : frame).
Context (Hnd : NoDup (node <$> nodes f)).

Local Abbreviation inv2 := (Items.inv2 p allowed f).

Lemma applyNode_step k g :
  k < length (nodes f) → inv2 k g →
  ∃ g', applyNode p allowed k g = ok g' ∧ inv2 (S k) g'.
Proof.
  intros Hk Hinv.
  destruct (lookup_lt_is_Some_2 (nodes f) k Hk) as [r Hr].
  assert (Hel : els g (node r) = els f (node r)).
  { apply (inv2_rest _ _ _ _ _ Hinv). intros Hin.
    apply list_elem_of_fmap in Hin as (r' & Heq & Hin).
    apply list_elem_of_lookup in Hin as (j & Hj).
    pose proof (lookup_lt_Some _ _ _ Hj) as Hlt. rewrite length_take in Hlt.
    rewrite lookup_take_lt in Hj by lia.
    assert (k = j) by (eapply (NoDup_fmap_lookup node); eauto). lia. }
  assert (Hother : ∀ j rj, j < k → nodes f !! j = Some rj → node rj ≠ node r).
  { intros j rj Hj Hrj Heq.
    assert (j = k) by (eapply (NoDup_fmap_lookup node); eauto). lia. }
  unfold applyNode. rewrite (inv2_nodes _ _ _ _ _ Hinv), Hr. simpl.
  rewrite Hel.
  destruct (translate (info (els f (node r)))) as [tr|] eqn:Etr.
  - eexists. split; [done|]. split; simpl.
    + done.
    + apply (inv2_idx _ _ _ _ _ Hinv).
    + apply (inv2_ghost _ _ _ _ _ Hinv).
    + intros n Hn. rewrite (take_S_r _ _ r) in Hn by done.
      rewrite fmap_app, elem_of_app in Hn. simpl in Hn.
      rewrite fn_lookup_insert_ne.
      * apply (inv2_rest _ _ _ _ _ Hinv). tauto.
      * intros <-. apply Hn. right. by apply list_elem_of_singleton.
    + intros j rj Hj Hrj. destruct (decide (j = k)) as [->|Hne].
      * assert (rj = r) by congruence. subst rj.
        rewrite fn_lookup_insert. unfold paint. by rewrite Etr.
      * rewrite fn_lookup_insert_ne.
        -- apply (inv2_done _ _ _ _ _ Hinv j rj); [lia|done].
        -- apply not_eq_sym, (Hother j rj); [lia|done].
  - exists g. split; [done|]. split.
    + apply (inv2_nodes _ _ _ _ _ Hinv).
    + apply (inv2_idx _ _ _ _ _ Hinv).
    + apply (inv2_ghost _ _ _ _ _ Hinv).
    + intros n Hn. rewrite (take_S_r _ _ r) in Hn by done.
      rewrite fmap_app, elem_of_app in Hn.
      apply (inv2_rest _ _ _ _ _ Hinv). tauto.
    + intros j rj Hj Hrj. destruct (decide (j = k)) as [->|Hne].
      * assert (rj = r) by congruence. subst rj.
        rewrite Hel. unfold paint. by rewrite Etr.
      * apply (inv2_done _ _ _ _ _ Hinv j rj); [lia|done].
Qed.

(** The second loop does not fail, and paints every item. *)
Lemma pass2 k :
  k ≤ length (nodes f) →
  ∃ g, forLoop k 0 (applyNode p allowed) f = ok g ∧ inv2 k g.
Proof.
  induction k as [|k IH]; intros Hk.
  - exists f. split; [done|]. split; try done. intros; lia.
  - rewrite forLoop_snoc. destruct (IH ltac:(lia)) as (g & -> & Hinv). simpl.
    by apply applyNode_step.
Qed.

End Pass2.

Section Reflow.
Import Js Utils Container Items.
Local Open Scope nat_scope.

(** What [dragContext] returns when it returns. *)
Lemma dragContext_ok s ordered c :
  dragContext s = ok (ordered, c) →
  ∃ a registered ss tr,
    active (this_manager s) = Some a
    ∧ refs (this_manager s) !! activeCollection a = Some registered
    ∧ ordered = merge_sort (byIndex (elements s)) registered
    ∧ this_session s = Some ss
    ∧ this_translate s = Some tr
    ∧ config c = this_props s ∧ isOrigin c = state_isOrigin s ∧ drag c = ss.
Proof.
  unfold dragContext, getOrderedRefs. intros H.
  destruct (active (this_manager s)) as [a|] eqn:Ea; [|done]. simpl in H.
  destruct (refs (this_manager s) !! activeCollection a) as [registered|] eqn:Er; [|done].
  simpl in H.
  destruct (this_session s) as [ss|] eqn:Es; [|done]. simpl in H.
  destruct (this_translate s) as [tr|] eqn:Et; [|done]. simpl in H.
  injection H as <- <-. exists a, registered, ss, tr. split_and!; done.
Qed.

Lemma nodes_of_inv1 c d0 ns0 k f ms :
  inv1 c d0 ns0 k f ms → node <$> nodes f = node <$> ns0.
Proof.
  intros Hinv. apply list_eq. intros j. rewrite !list_lookup_fmap.
  destruct (ns0 !! j) as [r|] eqn:Ej.
  - destruct (inv_refs _ _ _ _ _ _ Hinv j r Ej) as (r' & -> & Hn & _). simpl.
    by rewrite Hn.
  - apply lookup_ge_None in Ej. rewrite <- (inv_len _ _ _ _ _ _ Hinv) in Ej.
    apply lookup_ge_None in Ej. by rewrite Ej.
Qed.

(** [computeNodes] follows the decisions for the ordered items. *)
Lemma computeNodes_spec s ordered c :
  dragContext s = ok (ordered, c) →
  NoDup (node <$> ordered) →
  match itemMoves c (elements s) ordered (length ordered) with
  | inl e => computeNodes s = inl e
  | inr ms =>
      ∃ f, computeNodes s = ok (c, f)
        ∧ length ms = length ordered
        ∧ newIdx f = tentativeIndex c (elements s) ordered ms
        ∧ node <$> nodes f = node <$> ordered
        ∧ (∀ j r, ordered !! j = Some r →
             nodes f !! j = Some (Ref (node r) (offsetOf (elements s) r)))
        ∧ (∀ j r m, ordered !! j = Some r → ms !! j = Some m →
             itemMove c (elements s) ordered j = ok m
             ∧ els f (node r) = place (config c) m (elements s (node r)))
        ∧ (∀ n, n ∉ node <$> ordered → els f n = elements s n)
  end.
Proof.
  intros Hctx Hnd. unfold computeNodes. rewrite Hctx. simpl.
  pose proof (pass1 c (elements s) ordered Hnd (this_sortableGhost s)
                (length ordered) ltac:(lia)) as Hpass.
  destruct (itemMoves c (elements s) ordered (length ordered)) as [e|ms].
  - by rewrite Hpass.
  - destruct Hpass as (f & -> & Hinv). simpl.
    eexists. split; [done|]. simpl.
    split; [apply (inv_ms _ _ _ _ _ _ Hinv)|].
    split.
    { unfold tentativeIndex. rewrite (inv_idx _ _ _ _ _ _ Hinv).
      by rewrite firstn_all. }
    split; [by eapply nodes_of_inv1|].
    split.
    { intros j r Hj.
      destruct (inv_refs _ _ _ _ _ _ Hinv j r Hj) as (r' & Hj' & Hn & _ & He).
      rewrite Hj'. f_equal. rewrite <- (ref_eta r'). rewrite Hn, He; [done|].
      by apply lookup_lt_Some in Hj. }
    split; [apply (inv_done _ _ _ _ _ _ Hinv)|].
    intros n Hn. apply (inv_rest _ _ _ _ _ _ Hinv). by rewrite firstn_all.
Qed.

(** [animateNodes] follows the decisions for the ordered items: it fails
    where the first decision fails; otherwise every item holds what was
    decided for it, painted by the second loop, the new index is the
    tentative one unless the drop is refused, and nothing else of the
    component changes but the cached offsets and the ghost. *)
Lemma animateNodes_spec s ordered c :
  dragContext s = ok (ordered, c) →
  NoDup (node <$> ordered) →
  match itemMoves c (elements s) ordered (length ordered) with
  | inl e => animateNodes s = inl e
  | inr ms =>
      ∃ s' a,
        animateNodes s = ok s'
        ∧ active (this_manager s) = Some a
        ∧ length ms = length ordered
        ∧ (∀ j r m, ordered !! j = Some r → ms !! j = Some m →
             itemMove c (elements s) ordered j = ok m)
        ∧ (let tentative := tentativeIndex c (elements s) ordered ms in
           let allowed := isDropAllowed c tentative a in
           this_session s'
           = Some (set_this_newIndex (if allowed then tentative else this_index (drag c))
                     (drag c))
           ∧ (∀ j r m, ordered !! j = Some r → ms !! j = Some m →
                elements s' (node r)
                = paint (config c) allowed (place (config c) m (elements s (node r))))
           ∧ (∀ n, n ∉ node <$> ordered → elements s' n = elements s n))
        ∧ this_props s' = this_props s
        ∧ active (this_manager s') = active (this_manager s)
        ∧ window s' = window s
        ∧ this_translate s' = this_translate s
        ∧ this_helper s' = this_helper s
        ∧ this_autoscrollInterval s' = this_autoscrollInterval s
        ∧ state_isOrigin s' = state_isOrigin s
        ∧ calls s' = calls s
  end.
Proof.
  intros Hctx Hnd.
  pose proof (computeNodes_spec s ordered c Hctx Hnd) as Hc.
  destruct (dragContext_ok _ _ _ Hctx) as (a & registered & ss & tr & Ha & _).
  unfold animateNodes.
  destruct (itemMoves c (elements s) ordered (length ordered)) as [e|ms].
  - by rewrite Hc.
  - destruct Hc as (f & -> & Hlen & Hidx & Hnodes & Hrefs & Hdone & Hrest). simpl.
    rewrite Ha. simpl.
    assert (Hnd' : NoDup (node <$> nodes f)) by by rewrite Hnodes.
    destruct (pass2 (config c) (isDropAllowed c (newIdx f) a) f Hnd'
                (length (nodes f)) ltac:(lia)) as (g & -> & Hinv). simpl.
    eexists _, a. split; [done|]. split; [done|]. split; [done|].
    split; [intros j r m Hj Hm; by apply (Hdone j r m)|].
    rewrite <- Hidx. simpl.
    split; [|done].
    split; [by rewrite (inv2_idx _ _ _ _ _ Hinv)|].
    split.
    + intros j r m Hj Hm.
      destruct (Hdone j r m Hj Hm) as [_ Hel].
      assert (Hlt : j < length (nodes f)).
      { eapply lookup_lt_Some. by apply Hrefs. }
      pose proof (inv2_done _ _ _ _ _ Hinv j _ Hlt (Hrefs j r Hj)) as Hp.
      simpl in Hp. by rewrite Hp, Hel.
    + intros n Hn. rewrite (inv2_rest _ _ _ _ _ Hinv).
      * by apply Hrest.
      * rewrite firstn_all. by rewrite Hnodes.
Qed.

End Reflow.

Section Ready.
Import Js Utils Container Items.
Local Open Scope nat_scope.

Lemma StronglySorted_lookup_lt {A} (R : relation A) l i j a b :
  StronglySorted R l → i < j → l !! i = Some a → l !! j = Some b → R a b.
Proof.
  intros Hs. revert i j. induction Hs as [|x l Hs IH Hall]; intros i j Hij Hi Hj; [done|].
  destruct i as [|i], j as [|j]; simpl in *; try lia.
  - injection Hi as ->. by eapply Forall_lookup_1.
  - eapply (IH i j); [lia|done|done].
Qed.

#[local] Instance byIndex_trans d : Transitive (byIndex d).
Proof. intros a b c'. unfold byIndex. lia. Qed.

#[local] Instance byIndex_total d : Total (byIndex d).
Proof. intros a b. unfold byIndex. lia. Qed.

Lemma ordered_sorted d registered :
  StronglySorted (byIndex d) (merge_sort (byIndex d) registered).
Proof. apply StronglySorted_merge_sort; apply _. Qed.

(** The ordered items are in ascending order of index. *)
Lemma ordered_ascending d registered i j a b :
  i < j →
  merge_sort (byIndex d) registered !! i = Some a →
  merge_sort (byIndex d) registered !! j = Some b →
  (index (info (d (node a))) ≤ index (info (d (node b))))%Z.
Proof.
  intros Hij Hi Hj.
  exact (StronglySorted_lookup_lt _ _ i j a b (ordered_sorted d registered) Hij Hi Hj).
Qed.

(** What a ready state provides. *)
Lemma ready_spec s :
  ready s = true →
  ∃ a registered ss tr ordered c,
    active (this_manager s) = Some a
    ∧ refs (this_manager s) !! activeCollection a = Some registered
    ∧ this_session s = Some ss
    ∧ this_translate s = Some tr
    ∧ ordered = merge_sort (byIndex (elements s)) registered
    ∧ dragContext s = ok (ordered, c)
    ∧ drag c = ss ∧ config c = this_props s ∧ isOrigin c = state_isOrigin s
    ∧ NoDup (node <$> ordered)
    ∧ (∀ r, r ∈ ordered →
         is_Some (offsetOf (elements s) r)
         ∧ is_Some (translate (info (elements s (node r)))))
    ∧ (this_axis ss = (true, true) →
         ∃ j r, ordered !! j = Some r
                ∧ index (info (elements s (node r))) = toNumber (this_index ss)).
Proof.
  unfold ready. intros H.
  destruct (active (this_manager s)) as [a|] eqn:Ea; [|done].
  destruct (this_session s) as [ss|] eqn:Es; [|done].
  destruct (this_translate s) as [tr|] eqn:Et; [|done].
  destruct (refs (this_manager s) !! activeCollection a) as [registered|] eqn:Er; [|done].
  apply andb_true_iff in H as [H Hgrid]. apply andb_true_iff in H as [Hnd Hall].
  apply bool_decide_eq_true in Hnd.
  assert (Hperm : merge_sort (byIndex (elements s)) registered ≡ₚ registered)
    by apply merge_sort_Permutation.
  eexists a, registered, ss, tr, _, _.
  split_and!; try done.
  - unfold dragContext, getOrderedRefs. rewrite Ea. simpl. rewrite Er. simpl.
    rewrite Es. simpl. rewrite Et. simpl. done.
  - done.
  - done.
  - done.
  - by rewrite Hperm.
  - intros r Hr. rewrite Hperm in Hr.
    rewrite forallb_forall in Hall. apply list_elem_of_In in Hr.
    specialize (Hall r Hr).
    unfold measurable in Hall. apply andb_true_iff in Hall as [H1 H2].
    apply bool_decide_eq_true in H1, H2. done.
  - intros Hax. rewrite Hax in Hgrid. simpl in Hgrid.
    apply existsb_exists in Hgrid as (r & Hin & Heq).
    apply list_elem_of_In in Hin. rewrite <- Hperm in Hin.
    apply list_elem_of_lookup in Hin as (j & Hj).
    exists j, r. split; [done|]. by apply Z.eqb_eq.
Qed.

Lemma itemMoves_total c d ns k :
  (∀ i, i < k → ∃ m, itemMove c d ns i = ok m) →
  ∃ ms, itemMoves c d ns k = ok ms.
Proof.
  induction k as [|k IH]; intros H; simpl; [by eexists|].
  destruct IH as (ms & ->); [intros i Hi; apply H; lia|].
  destruct (H k ltac:(lia)) as (m & ->). simpl. by eexists.
Qed.

(** In a ready state no decision fails. *)
Lemma ready_moves s ordered c :
  ready s = true → dragContext s = ok (ordered, c) →
  ∃ ms, itemMoves c (elements s) ordered (length ordered) = ok ms.
Proof.
  intros Hready Hctx.
  destruct (ready_spec s Hready)
    as (a & registered & ss & tr & ordered' & c' & Ha & Hr & Hs & Ht & Hord & Hctx'
        & Hdrag & Hcfg & Hiso & Hnd & Hmeas & Hgrid).
  rewrite Hctx in Hctx'. injection Hctx' as <- <-.
  apply itemMoves_total. intros i Hi.
  destruct (lookup_lt_is_Some_2 ordered i Hi) as [r Hri].
  destruct (Hmeas r) as [[e He] [tr0 Htr]]; [by eapply list_elem_of_lookup_2|].
  unfold itemMove. rewrite Hri. simpl.
  destruct (strictEq _ _); [by eexists|].
  assert (Hdec : ∃ m, decideMove c (elements s (node r)) (offsetOf (elements s) r)
            (cacheEdgeOffset (elements s) <$> ordered !! S i)
            (cacheEdgeOffset (elements s) <$>
               (if 0 <? i then ordered !! (i - 1) else None)) = ok m).
  { unfold decideMove. rewrite Hdrag.
    destruct (this_axis ss) as [[] []] eqn:Hax.
    - (* grid *)
      destruct (Hgrid eq_refl) as (j & rj & Hj & Hidx).
      unfold decideGrid. rewrite He. simpl.
      destruct (isBefore c (elements s (node r))) eqn:Hb; simpl.
      + destruct (gridBefore _ _ _); simpl.
        * destruct (passesRight _ _ _); simpl; [|by eexists].
          unfold isBefore in Hb. rewrite Hdrag in Hb. apply Z.ltb_lt in Hb.
          assert (i < j).
          { destruct (Nat.lt_trichotomy i j) as [?|[->|?]]; [done| |].
            - rewrite Hri in Hj. injection Hj as <-. lia.
            - pose proof (ordered_ascending (elements s) registered j i rj r
                            ltac:(done)) as Hle.
              rewrite <- Hord in Hle. specialize (Hle Hj Hri). lia. }
          destruct (lookup_lt_is_Some_2 ordered (S i)) as [rn Hn].
          { apply lookup_lt_Some in Hj. lia. }
          rewrite Hn. simpl. rewrite cache_ref. simpl.
          destruct (Hmeas rn) as [[en ->] _]; [by eapply list_elem_of_lookup_2|].
          simpl. by eexists.
        * destruct (isAfter c (elements s (node r))) eqn:Haf; simpl; [|by eexists].
          unfold isAfter in Haf. rewrite Hdrag in Haf. apply Z.ltb_lt in Haf.
          unfold isBefore in Hb. rewrite Hdrag in Hb. apply Z.ltb_lt in Hb. lia.
      + destruct (isAfter c (elements s (node r))) eqn:Haf; simpl; [|by eexists].
        destruct (gridAfter _ _ _); simpl; [|by eexists].
        destruct (passesLeft _ _ _); simpl; [|by eexists].
        unfold isAfter in Haf. rewrite Hdrag in Haf. apply Z.ltb_lt in Haf.
        assert (j < i).
        { destruct (Nat.lt_trichotomy i j) as [?|[->|?]]; [| |done].
          - pose proof (ordered_ascending (elements s) registered i j r rj
                          ltac:(done)) as Hle.
            rewrite <- Hord in Hle. specialize (Hle Hri Hj). lia.
          - rewrite Hri in Hj. injection Hj as <-. lia. }
        destruct (Nat.ltb_spec 0 i); [|lia].
        destruct (lookup_lt_is_Some_2 ordered (i - 1)) as [rp Hp]; [lia|].
        rewrite Hp. simpl. rewrite cache_ref. simpl.
        destruct (Hmeas rp) as [[ep ->] _]; [by eapply list_elem_of_lookup_2|].
        simpl. by eexists.
    - (* row *)
      unfold decideRow. rewrite He.
      destruct (isAfter _ _); simpl.
      + destruct (Qle_bool _ _); simpl; [by eexists|].
        destruct (negb _ || _); simpl; [|by eexists].
        destruct (Qle_bool _ _); by eexists.
      + destruct (negb _ || _); simpl; [|by eexists].
        destruct (Qle_bool _ _); by eexists.
    - (* column *)
      unfold decideColumn. rewrite He, Htr. simpl.
      destruct (negb _ || _); simpl.
      + destruct (onSortHover _); simpl; [destruct (_ && _); simpl|]; by eexists.
      + destruct (isAfter _ _); simpl; [|by eexists].
        destruct (onSortHover _); simpl; [destruct (_ && _); simpl|]; by eexists.
    - by eexists. }
  destruct Hdec as (m & ->). simpl. by eexists.
Qed.

(** A reflow of a ready state returns, and the state it returns is
    described by the decisions for the ordered items. *)
Lemma animateNodes_ready s :
  ready s = true →
  ∃ ordered c ms s' a,
    dragContext s = ok (ordered, c)
    ∧ itemMoves c (elements s) ordered (length ordered) = ok ms
    ∧ animateNodes s = ok s'
    ∧ active (this_manager s) = Some a
    ∧ NoDup (node <$> ordered)
    ∧ length ms = length ordered
    ∧ (∀ j r m, ordered !! j = Some r → ms !! j = Some m →
         itemMove c (elements s) ordered j = ok m)
    ∧ (let tentative := tentativeIndex c (elements s) ordered ms in
       let allowed := isDropAllowed c tentative a in
       this_session s'
       = Some (set_this_newIndex (if allowed then tentative else this_index (drag c))
                 (drag c))
       ∧ (∀ j r m, ordered !! j = Some r → ms !! j = Some m →
            elements s' (node r)
            = paint (config c) allowed (place (config c) m (elements s (node r))))
       ∧ (∀ n, n ∉ node <$> ordered → elements s' n = elements s n))
    ∧ this_props s' = this_props s
    ∧ active (this_manager s') = active (this_manager s)
    ∧ window s' = window s
    ∧ this_translate s' = this_translate s
    ∧ this_helper s' = this_helper s
    ∧ this_autoscrollInterval s' = this_autoscrollInterval s
    ∧ state_isOrigin s' = state_isOrigin s
    ∧ calls s' = calls s.
Proof.
  intros Hready.
  destruct (ready_spec s Hready)
    as (a & registered & ss & tr & ordered & c & Ha & Hr & Hs & Ht & Hord & Hctx
        & Hdrag & Hcfg & Hiso & Hnd & Hmeas & Hgrid).
  destruct (ready_moves s ordered c Hready Hctx) as (ms & Hms).
  pose proof (animateNodes_spec s ordered c Hctx Hnd) as Hspec.
  rewrite Hms in Hspec. destruct Hspec as (s' & a' & Hrun & Ha' & Hrest).
  exists ordered, c, ms, s', a'. split_and!; try done; apply Hrest.
Qed.

End Ready.

(** ** Numbers *)

Section Numbers.
Import Utils.
Local Open Scope Q_scope.

Lemma Qltb_lt a b : Qltb a b = true ↔ a < b.
Proof.
  unfold Qltb. rewrite negb_true_iff. split.
  - intros H. apply Qnot_le_lt. intros Hle. apply Qle_bool_iff in Hle. congruence.
  - intros H. destruct (Qle_bool b a) eqn:E; [|done].
    apply Qle_bool_iff in E. exfalso. by eapply Qlt_not_le.
Qed.

Lemma Qltb_ge a b : Qltb a b = false ↔ b <= a.
Proof.
  unfold Qltb. rewrite negb_false_iff. apply Qle_bool_iff.
Qed.

Lemma Qle_bool_gt a b : Qle_bool a b = false ↔ b < a.
Proof.
  split.
  - intros H. apply Qnot_le_lt. intros Hle. apply Qle_bool_iff in Hle. congruence.
  - intros H. destruct (Qle_bool a b) eqn:E; [|done].
    apply Qle_bool_iff in E. exfalso. by eapply Qlt_not_le.
Qed.

Lemma truthy_spec q : Js.truthy q = true ↔ ¬ q == 0.
Proof.
  unfold Js.truthy. rewrite negb_true_iff. split.
  - intros H Hq. apply Qeq_bool_iff in Hq. congruence.
  - intros H. destruct (Qeq_bool q 0) eqn:E; [|done].
    apply Qeq_bool_iff in E. done.
Qed.

Lemma truthy_false q : Js.truthy q = false ↔ q == 0.
Proof. unfold Js.truthy. rewrite negb_false_iff. apply Qeq_bool_iff. Qed.

End Numbers.

(** ** The constructor, [cancel] and [handleSortEnd] *)

Section Lifecycle.
Import Js Utils Container Items Session Examples.
Local Open Scope Q_scope.

(** C7.  Constructing a sortable container throws the invariant error
    with its message exactly when [distance] and [pressDelay] are both
    truthy (both non-zero numbers); with at most one of them truthy the
    constructor returns a container. *)
Theorem constructor_exclusive (p : props) (d : dom) (w : host) :
  (constructor p d w = throw (Invariant bothMessage)
   ↔ ¬ distance p == 0 ∧ ¬ pressDelay p == 0)
  ∧ ((∃ s, constructor p d w = ok s) ↔ distance p == 0 ∨ pressDelay p == 0).
Proof.
  unfold constructor, invariant.
  destruct (Qeq_dec (distance p) 0) as [Hd|Hd];
    [rewrite (proj2 (truthy_false _) Hd)|rewrite (proj2 (truthy_spec _) Hd)];
    (destruct (Qeq_dec (pressDelay p) 0) as [Hp|Hp];
     [rewrite (proj2 (truthy_false _) Hp)|rewrite (proj2 (truthy_spec _) Hp)]);
    simpl; split; split.
  all: try (intros [s Hs]; discriminate).
  all: try (intros [H1 H2]; tauto).
  all: try (intros [H|H]; tauto).
  all: try (intros H; discriminate).
  all: try (intros _; by eexists).
  all: try (intros _; tauto).
Qed.

Lemma cancel_idempotent s : cancel (cancel s) = cancel s.
Proof. unfold cancel. destruct (state_sorting s) eqn:E; simpl; by rewrite ?E. Qed.

Lemma handleSortEnd_needs_marker e s :
  active (this_manager s) = None → handleSortEnd e s = throw TypeError.
Proof. intros H. unfold handleSortEnd. by rewrite H. Qed.

(** C4.  The container as its constructor leaves it has no active
    marker.  [cancel] leaves it as it is, but [handleSortEnd] throws a
    [TypeError]: it reads [collection] from the marker, which is [null]. *)
Theorem handleSortEnd_idle :
  constructor (defaults "y") column viewport = ok idle
  ∧ active (this_manager idle) = None
  ∧ cancel idle = idle
  ∧ handleSortEnd (mouse 0 0) idle = throw TypeError.
Proof. split_and!; reflexivity. Qed.

End Lifecycle.

(** ** Autoscroll *)

Section Autoscroll.
Import Js Utils Container Items Session Examples.
Local Open Scope Q_scope.

(** What [autoscroll] returns: the interval is set to the outcome of the
    chain when one of its directions is not zero, and cleared otherwise. *)
Lemma autoscroll_spec s ss tr :
  this_session s = Some ss → this_translate s = Some tr →
  ∃ s', autoscroll s = ok s'
    ∧ this_autoscrollInterval s'
      = (let v := edgeScroll ss tr in
         if negb (Qeq_bool (x (direction v)) 0) || negb (Qeq_bool (y (direction v)) 0)
         then Some v else None)
    ∧ this_translate s' = this_translate s
    ∧ this_session s' = this_session s
    ∧ this_props s' = this_props s
    ∧ calls s' = calls s.
Proof.
  intros Hs Ht. unfold autoscroll. rewrite Hs, Ht. simpl bind.
  eexists. split; [reflexivity|].
  destruct (this_autoscrollInterval s) as [old|] eqn:Eold;
    destruct (negb _ || negb _); simpl; rewrite ?Eold; done.
Qed.

Lemma speed_past a h : 0 < h → a <= 0 → 10 * Qabs (a / h) == 10 * (- a / h).
Proof.
  intros Hh Ha.
  assert (Hle : a / h <= 0).
  { apply Qle_shift_div_r; [done|]. lra. }
  rewrite (Qabs_neg _ Hle). field. lra.
Qed.

(** The speed on a line of a test whose difference is that from the line. *)
Lemma speed_on_line a h : a == 0 → 10 * Qabs (a / h) == 0.
Proof.
  intros Ha. assert (Hq : a / h == 0) by (rewrite Ha; unfold Qdiv; ring).
  rewrite Hq. change (Qabs 0) with 0. ring.
Qed.

(** Past the line of a test the speed grows with the distance. *)
Lemma speed_grows a b h : 0 < h → a <= b → b <= 0 → 10 * Qabs (b / h) <= 10 * Qabs (a / h).
Proof.
  intros Hh Hab Hb.
  rewrite (speed_past a h Hh) by lra. rewrite (speed_past b h Hh) by lra.
  assert (Hinv : 0 < / h) by by apply Qinv_lt_0_compat.
  unfold Qdiv. nra.
Qed.

Lemma atLeast_dec t bound half : atLeast t bound half ∨ ¬ atLeast t bound half.
Proof.
  destruct bound as [b|]; simpl; [|tauto].
  destruct (Qlt_le_dec t (b - half)); [right; lra|by left].
Qed.

Lemma atMost_dec t bound half : atMost t bound half ∨ ¬ atMost t bound half.
Proof.
  destruct bound as [b|]; simpl; [|tauto].
  destruct (Qlt_le_dec (b + half) t); [right; lra|by left].
Qed.

(** C8, as the code has it.  For a dragged element of positive width
    and height.  The direction is decided by a chain of four tests in
    the order down, right, up, left, each of the translate against a
    bound moved by half the extent of the dragged element (a test
    against a bound that is undefined fails), and only the first test
    that holds sets a direction and a speed: the other axis keeps the
    direction 0 and the speed 1, so at most one axis scrolls.  The speed
    set is [10 * |d / extent|], with [d] as the source writes it:
    [maxTranslate - extent / 2 - translate] for down and right,
    [translate - extent / 2 - minTranslate] for up and left.  It is zero
    when the translate is the value that the down or the right test
    compares it with, and it does not decrease as the translate moves
    further past the line of its test.  When no test holds both
    directions are 0; [autoscroll] sets the interval with the direction
    and the speed of the chain when a test holds, and leaves no interval
    when none does. *)
Theorem edgeScroll_chain (ss : session) (tr : point) :
  0 < this_height ss → 0 < this_width ss →
  let h := this_height ss in
  let w := this_width ss in
  let v := edgeScroll ss tr in
  let goDown := atLeast (y tr) (boundY (this_maxTranslate ss)) (h / 2) in
  let goRight := atLeast (x tr) (boundX (this_maxTranslate ss)) (w / 2) in
  let goUp := atMost (y tr) (boundY (this_minTranslate ss)) (h / 2) in
  let goLeft := atMost (x tr) (boundX (this_minTranslate ss)) (w / 2) in
  (∀ b, boundY (this_maxTranslate ss) = Some b → goDown →
     v = Interval (Point 1 (10 * Qabs ((b - h / 2 - y tr) / h))) (Point 0 1))
  ∧ (∀ b, boundX (this_maxTranslate ss) = Some b → ¬ goDown → goRight →
       v = Interval (Point (10 * Qabs ((b - w / 2 - x tr) / w)) 1) (Point 1 0))
  ∧ (∀ b, boundY (this_minTranslate ss) = Some b → ¬ goDown → ¬ goRight → goUp →
       v = Interval (Point 1 (10 * Qabs ((y tr - h / 2 - b) / h))) (Point 0 (-1)))
  ∧ (∀ b, boundX (this_minTranslate ss) = Some b →
       ¬ goDown → ¬ goRight → ¬ goUp → goLeft →
       v = Interval (Point (10 * Qabs ((x tr - w / 2 - b) / w)) 1) (Point (-1) 0))
  ∧ (¬ goDown → ¬ goRight → ¬ goUp → ¬ goLeft → v = Interval (Point 1 1) (Point 0 0))
  ∧ (∀ b, boundY (this_maxTranslate ss) = Some b → y tr == b - h / 2 →
       y (speed v) == 0)
  ∧ (∀ b, boundX (this_maxTranslate ss) = Some b → ¬ goDown → x tr == b - w / 2 →
       x (speed v) == 0)
  ∧ (∀ tr', goDown → y tr <= y tr' → y (speed v) <= y (speed (edgeScroll ss tr')))
  ∧ (∀ tr', ¬ goDown → ¬ atLeast (y tr') (boundY (this_maxTranslate ss)) (h / 2) →
       goRight → x tr <= x tr' → x (speed v) <= x (speed (edgeScroll ss tr')))
  ∧ (∀ tr', ¬ goDown → ¬ atLeast (y tr') (boundY (this_maxTranslate ss)) (h / 2) →
       ¬ goRight → ¬ atLeast (x tr') (boundX (this_maxTranslate ss)) (w / 2) →
       goUp → y tr' <= y tr → y (speed v) <= y (speed (edgeScroll ss tr')))
  ∧ (∀ tr', ¬ goDown → ¬ atLeast (y tr') (boundY (this_maxTranslate ss)) (h / 2) →
       ¬ goRight → ¬ atLeast (x tr') (boundX (this_maxTranslate ss)) (w / 2) →
       ¬ goUp → ¬ atMost (y tr') (boundY (this_minTranslate ss)) (h / 2) →
       goLeft → x tr' <= x tr → x (speed v) <= x (speed (edgeScroll ss tr')))
  ∧ (∀ s, this_session s = Some ss → this_translate s = Some tr →
       ∃ s', autoscroll s = ok s'
         ∧ (goDown ∨ goRight ∨ goUp ∨ goLeft → this_autoscrollInterval s' = Some v)
         ∧ (¬ (goDown ∨ goRight ∨ goUp ∨ goLeft) → this_autoscrollInterval s' = None)).
Proof.
  intros Hh Hw h w v goDown goRight goUp goLeft.
  assert (Hdown : ∀ t b, boundY (this_maxTranslate ss) = Some b → b - h / 2 <= y t →
            edgeScroll ss t
            = Interval (Point 1 (10 * Qabs ((b - h / 2 - y t) / h))) (Point 0 1)).
  { intros t b Hb Hle. unfold edgeScroll. fold h w. rewrite Hb.
    by rewrite (proj2 (Qle_bool_iff _ _) Hle). }
  assert (Hnot : ∀ (t : Q) (bound : option Q) (half : Q),
            ¬ atLeast t bound half →
            match bound with
            | Some m => if Qle_bool (m - half) t then Some tt else None
            | None => None
            end = None).
  { intros t [m|] half Hn; [|done]. simpl in Hn.
    destruct (Qle_bool (m - half) t) eqn:E; [|done]. apply Qle_bool_iff in E. tauto. }
  assert (Hnot' : ∀ (t : Q) (bound : option Q) (half : Q),
            ¬ atMost t bound half →
            match bound with
            | Some m => if Qle_bool t (m + half) then Some tt else None
            | None => None
            end = None).
  { intros t [m|] half Hn; [|done]. simpl in Hn.
    destruct (Qle_bool t (m + half)) eqn:E; [|done]. apply Qle_bool_iff in E. tauto. }
  assert (Hright : ∀ t b, boundX (this_maxTranslate ss) = Some b →
            ¬ atLeast (y t) (boundY (this_maxTranslate ss)) (h / 2) → b - w / 2 <= x t →
            edgeScroll ss t
            = Interval (Point (10 * Qabs ((b - w / 2 - x t) / w)) 1) (Point 1 0)).
  { intros t b Hb Hn Hle. unfold edgeScroll. fold h w. rewrite Hb.
    rewrite (proj2 (Qle_bool_iff _ _) Hle).
    pose proof (Hnot _ _ _ Hn) as H1.
    destruct (boundY (this_maxTranslate ss)) as [m|]; [|done].
    by destruct (Qle_bool (m - h / 2) (y t)). }
  assert (Hup : ∀ t b, boundY (this_minTranslate ss) = Some b →
            ¬ atLeast (y t) (boundY (this_maxTranslate ss)) (h / 2) →
            ¬ atLeast (x t) (boundX (this_maxTranslate ss)) (w / 2) → y t <= b + h / 2 →
            edgeScroll ss t
            = Interval (Point 1 (10 * Qabs ((y t - h / 2 - b) / h))) (Point 0 (-1))).
  { intros t b Hb Hn1 Hn2 Hle. unfold edgeScroll. fold h w. rewrite Hb.
    rewrite (proj2 (Qle_bool_iff _ _) Hle).
    pose proof (Hnot _ _ _ Hn1) as H1. pose proof (Hnot _ _ _ Hn2) as H2.
    destruct (boundY (this_maxTranslate ss)) as [m|];
      [destruct (Qle_bool (m - h / 2) (y t)); [done|]|];
      (destruct (boundX (this_maxTranslate ss)) as [m'|];
       [by destruct (Qle_bool (m' - w / 2) (x t))|done]). }
  assert (Hleft : ∀ t b, boundX (this_minTranslate ss) = Some b →
            ¬ atLeast (y t) (boundY (this_maxTranslate ss)) (h / 2) →
            ¬ atLeast (x t) (boundX (this_maxTranslate ss)) (w / 2) →
            ¬ atMost (y t) (boundY (this_minTranslate ss)) (h / 2) → x t <= b + w / 2 →
            edgeScroll ss t
            = Interval (Point (10 * Qabs ((x t - w / 2 - b) / w)) 1) (Point (-1) 0)).
  { intros t b Hb Hn1 Hn2 Hn3 Hle. unfold edgeScroll. fold h w. rewrite Hb.
    rewrite (proj2 (Qle_bool_iff _ _) Hle).
    pose proof (Hnot _ _ _ Hn1) as H1. pose proof (Hnot _ _ _ Hn2) as H2.
    pose proof (Hnot' _ _ _ Hn3) as H3.
    destruct (boundY (this_maxTranslate ss)) as [m|];
      [destruct (Qle_bool (m - h / 2) (y t)); [done|]|];
      (destruct (boundX (this_maxTranslate ss)) as [m'|];
       [destruct (Qle_bool (m' - w / 2) (x t)); [done|]|]);
      (destruct (boundY (this_minTranslate ss)) as [m''|];
       [by destruct (Qle_bool (y t) (m'' + h / 2))|done]). }
  assert (Hstill : ¬ goDown → ¬ goRight → ¬ goUp → ¬ goLeft →
            v = Interval (Point 1 1) (Point 0 0)).
  { intros Hn1 Hn2 Hn3 Hn4. subst v. unfold edgeScroll. fold h w.
    pose proof (Hnot _ _ _ Hn1) as H1. pose proof (Hnot _ _ _ Hn2) as H2.
    pose proof (Hnot' _ _ _ Hn3) as H3. pose proof (Hnot' _ _ _ Hn4) as H4.
    destruct (boundY (this_maxTranslate ss)) as [m|];
      [destruct (Qle_bool (m - h / 2) (y tr)); [done|]|];
      (destruct (boundX (this_maxTranslate ss)) as [m'|];
       [destruct (Qle_bool (m' - w / 2) (x tr)); [done|]|]);
      (destruct (boundY (this_minTranslate ss)) as [m''|];
       [destruct (Qle_bool (y tr) (m'' + h / 2)); [done|]|]);
      (destruct (boundX (this_minTranslate ss)) as [m'''|];
       [by destruct (Qle_bool (x tr) (m''' + w / 2))|done]). }
  split_and!.
  - intros b Hb Hgo. apply (Hdown tr b Hb). subst goDown. by rewrite Hb in Hgo.
  - intros b Hb Hn Hgo. apply (Hright tr b Hb Hn). subst goRight. by rewrite Hb in Hgo.
  - intros b Hb Hn1 Hn2 Hgo. apply (Hup tr b Hb Hn1 Hn2). subst goUp. by rewrite Hb in Hgo.
  - intros b Hb Hn1 Hn2 Hn3 Hgo. apply (Hleft tr b Hb Hn1 Hn2 Hn3).
    subst goLeft. by rewrite Hb in Hgo.
  - exact Hstill.
  - intros b Hb Hy. subst v. rewrite (Hdown tr b Hb) by lra. cbn [speed y].
    apply speed_on_line. lra.
  - intros b Hb Hn Hx. subst v. rewrite (Hright tr b Hb Hn) by lra. cbn [speed x].
    apply speed_on_line. lra.
  - intros tr' Hgo Hle. subst v goDown.
    destruct (boundY (this_maxTranslate ss)) as [b|] eqn:Hb; [|done]. simpl in Hgo.
    rewrite (Hdown tr b eq_refl Hgo), (Hdown tr' b eq_refl) by lra. cbn [speed y].
    apply (speed_grows _ _ h Hh); lra.
  - intros tr' Hn Hn' Hgo Hle. subst v goRight.
    destruct (boundX (this_maxTranslate ss)) as [b|] eqn:Hb; [|done]. simpl in Hgo.
    rewrite (Hright tr b eq_refl Hn Hgo), (Hright tr' b eq_refl Hn') by lra. cbn [speed x].
    apply (speed_grows _ _ w Hw); lra.
  - intros tr' Hn1 Hn1' Hn2 Hn2' Hgo Hle. subst v goUp.
    destruct (boundY (this_minTranslate ss)) as [b|] eqn:Hb; [|done]. simpl in Hgo.
    rewrite (Hup tr b eq_refl Hn1 Hn2 Hgo), (Hup tr' b eq_refl Hn1' Hn2') by lra.
    cbn [speed y]. apply (speed_grows _ _ h Hh); lra.
  - intros tr' Hn1 Hn1' Hn2 Hn2' Hn3 Hn3' Hgo Hle. subst v goLeft.
    destruct (boundX (this_minTranslate ss)) as [b|] eqn:Hb; [|done]. simpl in Hgo.
    rewrite (Hleft tr b eq_refl Hn1 Hn2 Hn3 Hgo), (Hleft tr' b eq_refl Hn1' Hn2' Hn3') by lra.
    cbn [speed x]. apply (speed_grows _ _ w Hw); lra.
  - intros s Hs Ht. destruct (autoscroll_spec s ss tr Hs Ht) as (s' & H1 & H2 & _).
    exists s'. split; [done|]. cbv zeta in H2. fold v in H2. rewrite H2. split.
    + intros Hgo.
      assert (Hdir : negb (Qeq_bool (x (direction v)) 0) || negb (Qeq_bool (y (direction v)) 0)
                     = true); [|by rewrite Hdir].
      destruct (atLeast_dec (y tr) (boundY (this_maxTranslate ss)) (h / 2)) as [Hd|Hd].
      { subst v. destruct (boundY (this_maxTranslate ss)) as [b|] eqn:Hb; [|done].
        by rewrite (Hdown tr b eq_refl Hd). }
      destruct (atLeast_dec (x tr) (boundX (this_maxTranslate ss)) (w / 2)) as [Hr|Hr].
      { subst v. destruct (boundX (this_maxTranslate ss)) as [b|] eqn:Hb; [|done].
        by rewrite (Hright tr b eq_refl Hd Hr). }
      destruct (atMost_dec (y tr) (boundY (this_minTranslate ss)) (h / 2)) as [Hu|Hu].
      { subst v. destruct (boundY (this_minTranslate ss)) as [b|] eqn:Hb; [|done].
        by rewrite (Hup tr b eq_refl Hd Hr Hu). }
      destruct (atMost_dec (x tr) (boundX (this_minTranslate ss)) (w / 2)) as [Hl|Hl].
      { subst v. destruct (boundX (this_minTranslate ss)) as [b|] eqn:Hb; [|done].
        by rewrite (Hleft tr b eq_refl Hd Hr Hu Hl). }
      subst goDown goRight goUp goLeft. tauto.
    + intros Hn. rewrite Hstill by tauto. reflexivity.
Qed.

End Autoscroll.

(** ** What a reflow, a move and a tick keep *)

Section Frames.
Import Js Utils Container Items Session Examples.
Local Open Scope Q_scope.

Lemma forLoop_preserves {S} (P : S → Prop) (body : nat → S → result S) n :
  (∀ i s s', body i s = ok s' → P s → P s') →
  ∀ start s s', forLoop n start body s = ok s' → P s → P s'.
Proof.
  intros Hbody. induction n as [|n IH]; intros start s s' H Hs.
  - by injection H as <-.
  - simpl in H. apply bind_inv in H as (s1 & H1 & H2).
    eapply IH; [done|]. by eapply Hbody.
Qed.

Lemma applyNode_newIdx p allowed i g g' :
  applyNode p allowed i g = ok g' → newIdx g' = newIdx g.
Proof.
  unfold applyNode. intros H. apply bind_inv in H as (r & _ & H).
  destruct (translate _); by injection H as <-.
Qed.

(** [animateNodes] changes the elements, the cached offsets, the ghost
    and [this.newIndex], and nothing else. *)
Lemma animateNodes_inv s s' :
  animateNodes s = ok s' →
  ∃ ss c f a,
    this_session s = Some ss
    ∧ computeNodes s = ok (c, f)
    ∧ drag c = ss
    ∧ config c = this_props s
    ∧ active (this_manager s) = Some a
    ∧ this_session s'
      = Some (set_this_newIndex
                (if isDropAllowed c (newIdx f) a then newIdx f else this_index ss) ss)
    ∧ this_props s' = this_props s
    ∧ this_translate s' = this_translate s
    ∧ this_autoscrollInterval s' = this_autoscrollInterval s
    ∧ window s' = window s
    ∧ this_helper s' = this_helper s
    ∧ calls s' = calls s.
Proof.
  unfold animateNodes. intros H.
  apply bind_inv in H as ([c f] & Hc & H).
  apply bind_inv in H as (a & Ha & H).
  apply bind_inv in H as (g & Hg & H).
  injection H as <-.
  assert (Hidx : newIdx g = newIdx f).
  { apply (forLoop_preserves (λ g, newIdx g = newIdx f) _ _
             (λ i g1 g2 Happ Hg1, eq_trans (applyNode_newIdx _ _ _ _ _ Happ) Hg1)
             _ _ _ Hg eq_refl). }
  assert (Hctx : ∃ ordered, dragContext s = ok (ordered, c)).
  { unfold computeNodes in Hc. apply bind_inv in Hc as ([ordered c'] & Hctx & Hc).
    apply bind_inv in Hc as (f' & _ & Hc). injection Hc as <- _. by exists ordered. }
  destruct Hctx as (ordered & Hctx).
  destruct (dragContext_ok _ _ _ Hctx)
    as (a' & registered & ss & tr & Ha' & _ & _ & Hs & _ & Hcfg & _ & Hdrag).
  rewrite Ha' in Ha. injection Ha as ->.
  exists ss, c, f, a. rewrite Hdrag, Hidx. split_and!; done.
Qed.

Lemma animateNodes_keeps s s' :
  animateNodes s = ok s' →
  this_props s' = this_props s
  ∧ this_translate s' = this_translate s
  ∧ this_autoscrollInterval s' = this_autoscrollInterval s
  ∧ is_Some (this_session s').
Proof.
  intros H. destruct (animateNodes_inv s s' H)
    as (ss & c & f & a & _ & _ & _ & _ & _ & Hs & Hp & Ht & Hi & _).
  rewrite Hs. split_and!; try done.
Qed.

(** [updatePosition] sets the translate and the transform of the helper. *)
Lemma updatePosition_inv e s s' :
  updatePosition e s = ok s' →
  ∃ tr,
    this_translate s' = Some tr
    ∧ (lockAxis (this_props s) = Some "x"%string → y tr = 0)
    ∧ this_session s' = this_session s
    ∧ this_props s' = this_props s
    ∧ this_manager s' = this_manager s
    ∧ elements s' = elements s
    ∧ calls s' = calls s
    ∧ (∀ h, this_helper s = Some h →
         ∃ h', this_helper s' = Some h' ∧ helperTransform h' = Some tr)
    ∧ (this_helper s = None → this_helper s' = None).
Proof.
  unfold updatePosition. intros H.
  apply bind_inv in H as (offset & _ & H).
  apply bind_inv in H as (ss & _ & H).
  apply bind_inv in H as ([tx ty] & _ & H).
  injection H as <-.
  eexists. split.
  { destruct (this_helper _); reflexivity. }
  split.
  { intros ->. simpl. done. }
  destruct (this_helper s) as [h|] eqn:Eh; simpl; rewrite ?Eh; split_and!; try done.
  intros h' [= <-]. by eexists.
Qed.

Lemma updatePosition_total e s :
  touches e = None → is_Some (this_session s) →
  lockToContainerEdges (this_props s) = false →
  ∃ s', updatePosition e s = ok s'.
Proof.
  intros He [ss Hs] Hlock. unfold updatePosition, getOffset.
  rewrite He, Hs, Hlock. simpl. by eexists.
Qed.

Lemma verticalRest_newIndex i ss : verticalRest (set_this_newIndex i ss) ↔ verticalRest ss.
Proof. done. Qed.

(** A difference that is zero gives the speed zero. *)
Lemma speed_zero a h d : a == 0 → 1 * (10 * Qabs (a / h)) * d == 0.
Proof.
  intros Ha. assert (Hq : a / h == 0) by (rewrite Ha; unfold Qdiv; ring).
  rewrite Hq. change (Qabs 0) with 0. ring.
Qed.

(** With the translate at rest vertically, the interval that the chain
    gives adds nothing to it: no vertical test holds, or one holds on
    its line, where the speed is zero. *)
Lemma edgeScroll_rest ss tr :
  verticalRest ss → y tr == 0 →
  1 * y (speed (edgeScroll ss tr)) * y (direction (edgeScroll ss tr)) == 0.
Proof.
  intros [Hmax Hmin] Hy. unfold edgeScroll.
  destruct (boundY (this_maxTranslate ss)) as [maxY|].
  { destruct (Qle_bool _ (y tr)) eqn:E.
    { apply Qle_bool_iff in E. cbn [speed direction y].
      apply speed_zero. destruct Hmax as [Hmax|[Hmax _]]; lra. }
    clear E.
    destruct (boundX (this_maxTranslate ss)) as [maxX|];
      [destruct (Qle_bool _ (x tr)); [reflexivity|]|].
    all: destruct (boundY (this_minTranslate ss)) as [minY|];
      [destruct (Qle_bool (y tr) _) eqn:E;
       [apply Qle_bool_iff in E; cbn [speed direction y];
        apply speed_zero; destruct Hmin as [Hmin|[Hmin _]]; lra|]|].
    all: destruct (boundX (this_minTranslate ss)) as [minX|];
      [destruct (Qle_bool (x tr) _); reflexivity|reflexivity]. }
  destruct (boundX (this_maxTranslate ss)) as [maxX|];
    [destruct (Qle_bool _ (x tr)); [reflexivity|]|].
  all: destruct (boundY (this_minTranslate ss)) as [minY|];
    [destruct (Qle_bool (y tr) _) eqn:E;
     [apply Qle_bool_iff in E; cbn [speed direction y];
      apply speed_zero; destruct Hmin as [Hmin|[Hmin _]]; lra|]|].
  all: destruct (boundX (this_minTranslate ss)) as [minX|];
    [destruct (Qle_bool (x tr) _); reflexivity|reflexivity].
Qed.

Lemma animateNodes_rests s s' :
  animateNodes s = ok s' → restsVertically s → restsVertically s'.
Proof.
  intros H (Hlock & ss & tr & Hs & Hrest & Ht & Hy & Hv).
  destruct (animateNodes_inv s s' H)
    as (ss' & c & f & a & Hs' & _ & _ & _ & _ & Hnew & Hp & Htr & Hint & _).
  rewrite Hs in Hs'. injection Hs' as <-.
  split; [congruence|].
  eexists _, tr. split_and!; [done|by apply verticalRest_newIndex|congruence|done|].
  intros v. rewrite Hint. apply Hv.
Qed.

Lemma handleSortMove_rests e s s' :
  lockAxis (this_props s) = Some "x"%string →
  (∀ ss, this_session s = Some ss → verticalRest ss) →
  handleSortMove e s = ok s' →
  restsVertically s'.
Proof.
  intros Hlock Hrest H. unfold handleSortMove in H.
  set (s0 := if this_paused s then set_this_paused false s else s) in H.
  assert (Hs0 : this_session s0 = this_session s ∧ this_props s0 = this_props s).
  { subst s0. by destruct (this_paused s). }
  destruct Hs0 as [Hs0 Hp0].
  apply bind_inv in H as (s1 & H1 & H).
  apply bind_inv in H as (s2 & H2 & H).
  apply bind_inv in H as (s3 & H3 & H).
  injection H as <-.
  destruct (updatePosition_inv _ _ _ H1) as (tr & Ht1 & Hy & Hs1 & Hp1 & _).
  destruct (animateNodes_inv _ _ H2)
    as (ss & c & f & a & Hss & _ & _ & _ & _ & Hs2 & Hp2 & Ht2 & _).
  assert (Hss' : this_session s = Some ss) by congruence.
  pose proof (Hrest ss Hss') as Hvr.
  rewrite Ht1 in Ht2.
  destruct (autoscroll_spec s2 _ tr Hs2 Ht2) as (s3' & H3' & Hint & Ht3 & Hs3 & Hp3 & _).
  rewrite H3 in H3'. injection H3' as <-.
  assert (Hy0 : y tr = 0) by (apply Hy; congruence).
  split.
  - destruct (onSortMove (this_props s3)); simpl; congruence.
  - exists (set_this_newIndex
              (if isDropAllowed c (newIdx f) a then newIdx f else this_index ss) ss), tr.
    assert (Hgoal : ∀ u : t, this_session u = this_session s3 →
              this_translate u = this_translate s3 →
              this_autoscrollInterval u = this_autoscrollInterval s3 →
              this_session u = Some (set_this_newIndex
                (if isDropAllowed c (newIdx f) a then newIdx f else this_index ss) ss)
              ∧ verticalRest (set_this_newIndex
                (if isDropAllowed c (newIdx f) a then newIdx f else this_index ss) ss)
              ∧ this_translate u = Some tr ∧ y tr == 0
              ∧ (∀ v, this_autoscrollInterval u = Some v →
                   1 * y (speed v) * y (direction v) == 0)).
    { intros u Hu1 Hu2 Hu3. split_and!.
      - congruence.
      - by apply verticalRest_newIndex.
      - congruence.
      - by rewrite Hy0.
      - intros v. rewrite Hu3, Hint. simpl.
        destruct (negb _ || negb _); [|done]. intros [= <-].
        apply edgeScroll_rest; [by apply verticalRest_newIndex|by rewrite Hy0]. }
    destruct (onSortMove (this_props s3)); by apply Hgoal.
Qed.

Lemma set_scrollContainer_keeps v s :
  this_translate (set_scrollContainer v s) = this_translate s
  ∧ this_session (set_scrollContainer v s) = this_session s
  ∧ this_props (set_scrollContainer v s) = this_props s
  ∧ this_autoscrollInterval (set_scrollContainer v s) = this_autoscrollInterval s
  ∧ this_manager (set_scrollContainer v s) = this_manager s
  ∧ calls (set_scrollContainer v s) = calls s.
Proof. unfold set_scrollContainer. by destruct (useWindowAsScrollContainer _). Qed.

(** The state in which the callback of the interval calls
    [animateNodes]: the scroll container scrolled and the translate moved
    by the offset of the interval [v]. *)
Lemma autoscrollTick_inv s s' v :
  this_autoscrollInterval s = Some v → autoscrollTick s = ok s' →
  ∃ tr s1,
    this_translate s = Some tr
    ∧ animateNodes s1 = ok s'
    ∧ this_translate s1
      = Some (Point (x tr + 1 * x (speed v) * x (direction v))
                    (y tr + 1 * y (speed v) * y (direction v)))
    ∧ this_session s1 = this_session s
    ∧ this_props s1 = this_props s
    ∧ this_autoscrollInterval s1 = this_autoscrollInterval s
    ∧ calls s1 = calls s.
Proof.
  intros Ev H. unfold autoscrollTick in H. rewrite Ev in H.
  set (s0 := set_this_isAutoScrolling true s) in H.
  cbv zeta in H.
  match type of H with
  | context [set_scrollContainer ?v1 s0] => set (sA := set_scrollContainer v1 s0) in H
  end.
  match type of H with
  | context [set_scrollContainer ?v2 sA] => set (sB := set_scrollContainer v2 sA) in H
  end.
  destruct (set_scrollContainer_keeps
              (Scroll (settle (window s0)
                         (scrollTop (scrollContainer s0) + 1 * y (speed v) * y (direction v)))
                      (scrollLeft (scrollContainer s0))) s0)
    as (A1 & A2 & A3 & A4 & A5 & A6).
  fold sA in A1, A2, A3, A4, A5, A6.
  destruct (set_scrollContainer_keeps
              (Scroll (scrollTop (scrollContainer sA))
                      (settle (window sA)
                         (scrollLeft (scrollContainer sA)
                          + 1 * x (speed v) * x (direction v)))) sA)
    as (B1 & B2 & B3 & B4 & B5 & B6).
  fold sB in B1, B2, B3, B4, B5, B6.
  apply bind_inv in H as (tr & Htr & H).
  assert (Ht : this_translate s = Some tr).
  { rewrite B1, A1 in Htr. simpl in Htr.
    destruct (this_translate s); by inversion Htr. }
  eexists tr, _. split; [done|]. split; [exact H|]. simpl.
  split_and!; [done|..]; congruence.
Qed.

Lemma autoscrollTick_rests s s' :
  autoscrollTick s = ok s' → restsVertically s → restsVertically s'.
Proof.
  intros H Hr.
  destruct (this_autoscrollInterval s) as [v|] eqn:Ev.
  - destruct Hr as (Hlock & ss & tr & Hs & Hrest & Ht & Hy & Hv).
    pose proof (Hv v Ev) as Hdir.
    destruct (autoscrollTick_inv s s' v Ev H)
      as (tr' & s1 & Ht' & Hrun & Ht1 & Hs1 & Hp1 & Hi1 & _).
    rewrite Ht in Ht'. injection Ht' as <-.
    apply (animateNodes_rests s1 s' Hrun).
    split; [congruence|].
    eexists ss, _. split_and!; [congruence|done|exact Ht1| |].
    + simpl. rewrite Hdir, Hy. ring.
    + intros v'. rewrite Hi1. apply Hv.
  - unfold autoscrollTick in H. rewrite Ev in H. by injection H as <-.
Qed.

Lemma pauseSortMove_keeps s :
  this_translate (pauseSortMove s) = this_translate s
  ∧ this_session (pauseSortMove s) = this_session s
  ∧ this_props (pauseSortMove s) = this_props s
  ∧ calls (pauseSortMove s) = calls s
  ∧ (∀ v, this_autoscrollInterval (pauseSortMove s) = Some v → False).
Proof.
  unfold pauseSortMove.
  destruct (this_autoscrollInterval s) as [v|] eqn:Ev; simpl;
    destruct (this_paused s); simpl; rewrite ?Ev; try done.
  all: destruct (active (this_manager s)) as [a|]; simpl; rewrite ?Ev; try done.
  all: destruct (refs (this_manager s) !! activeCollection a); simpl; rewrite ?Ev; done.
Qed.

Lemma pauseSortMove_rests s :
  restsVertically s → restsVertically (pauseSortMove s).
Proof.
  intros (Hlock & ss & tr & Hs & Hrest & Ht & Hy & Hv).
  destruct (pauseSortMove_keeps s) as (K1 & K2 & K3 & _ & K5).
  split; [congruence|]. exists ss, tr. split_and!; [congruence|done|congruence|done|].
  intros v Hv'. destruct (K5 v Hv').
Qed.

Lemma run_rests inputs : ∀ s s',
  run inputs s = ok s' → restsVertically s → restsVertically s'.
Proof.
  induction inputs as [|i inputs IH]; intros s s' H Hr.
  - by injection H as <-.
  - simpl in H. apply bind_inv in H as (s1 & H1 & H).
    apply (IH s1 s' H). destruct i as [e| | |w]; simpl in H1.
    + destruct Hr as (Hlock & ss & tr & Hs & Hrest & _).
      eapply handleSortMove_rests; [done| |done].
      intros ss' Hss'. congruence.
    + by eapply autoscrollTick_rests.
    + injection H1 as <-. by apply pauseSortMove_rests.
    + injection H1 as <-. done.
Qed.

(** C5, as the code has it.  With [lockAxis] set to ["x"], the translate
    that [updatePosition] computes has [y] exactly 0, for every pointer
    position, and [updatePosition] returns for every mouse event of a
    started drag without edge locking.  The runs of the autoscroll
    interval add [speed.y * direction.y] to [translate.y]; the sum stays
    0 through every move, tick, pause and scroll of the session when the
    vertical autoscroll adds nothing from a zero translate: the axis
    has no vertical bounds, or 0 lies between the lower bound plus half
    the height and the upper bound minus half the height, these two
    lines included when the height is not zero (on a line the test
    holds and the speed is zero). *)
Theorem lockAxis_x_translate (s : t) :
  lockAxis (this_props s) = Some "x"%string →
  (∀ e s1, updatePosition e s = ok s1 →
     ∃ tr, this_translate s1 = Some tr ∧ y tr = 0)
  ∧ (∀ e, touches e = None → is_Some (this_session s) →
       lockToContainerEdges (this_props s) = false →
       ∃ s1, updatePosition e s = ok s1)
  ∧ (∀ ss e s1 inputs s',
       this_session s = Some ss → verticalRest ss →
       handleSortMove e s = ok s1 → run inputs s1 = ok s' →
       ∃ tr, this_translate s' = Some tr ∧ y tr == 0).
Proof.
  intros Hlock. split_and!.
  - intros e s1 H. destruct (updatePosition_inv _ _ _ H) as (tr & Ht & Hy & _).
    exists tr. split; [done|]. by apply Hy.
  - intros e. apply updatePosition_total.
  - intros ss e s1 inputs s' Hs Hrest Hmove Hrun.
    assert (Hr1 : restsVertically s1).
    { eapply handleSortMove_rests; [done| |done]. intros ss' Hss'. congruence. }
    destruct (run_rests _ _ _ Hrun Hr1) as (_ & ss' & tr & _ & _ & Ht & Hy & _).
    by exists tr.
Qed.

End Frames.

(** ** The drop predicate *)

Section Veto.
Import Js Utils Container Items Session Examples.
Local Open Scope Q_scope.

Lemma animateNodes_settles s s' :
  refusesAll s → animateNodes s = ok s' → refusesAll s' ∧ settled s'.
Proof.
  intros (allowed & Hdrop & Hall) H.
  destruct (animateNodes_inv s s' H)
    as (ss & c & f & a & Hs & _ & Hdrag & Hcfg & _ & Hs' & Hp & _).
  split.
  - exists allowed. by rewrite Hp.
  - eexists. split; [exact Hs'|].
    unfold isDropAllowed. rewrite Hcfg, Hdrop, Hall. done.
Qed.

Lemma step_settles i s s' :
  refusesAll s → settled s → step i s = ok s' → refusesAll s' ∧ settled s'.
Proof.
  intros Hr Hset H. destruct i as [e| | |w]; simpl in H.
  - unfold handleSortMove in H.
    set (s0 := if this_paused s then set_this_paused false s else s) in H.
    assert (Hr0 : refusesAll s0) by (subst s0; by destruct (this_paused s)).
    apply bind_inv in H as (s1 & H1 & H).
    apply bind_inv in H as (s2 & H2 & H).
    apply bind_inv in H as (s3 & H3 & H).
    injection H as <-.
    destruct (updatePosition_inv _ _ _ H1) as (tr & Ht1 & _ & Hs1 & Hp1 & _).
    assert (Hr1 : refusesAll s1).
    { destruct Hr0 as (al & ? & ?). exists al. by rewrite Hp1. }
    destruct (animateNodes_settles s1 s2 Hr1 H2) as [Hr2 (ss2 & Hs2 & Hn2)].
    destruct (animateNodes_keeps _ _ H2) as (_ & Ht2 & _).
    rewrite Ht1 in Ht2.
    destruct (autoscroll_spec s2 ss2 tr Hs2 Ht2) as (s3' & H3' & _ & _ & Hs3 & Hp3 & _).
    rewrite H3 in H3'. injection H3' as <-.
    assert (Hgoal : ∀ u : t, this_props u = this_props s3 →
              this_session u = this_session s3 → refusesAll u ∧ settled u).
    { intros u Hu1 Hu2. split.
      - destruct Hr2 as (al & ? & ?). exists al. split; [congruence|done].
      - exists ss2. split; [congruence|done]. }
    destruct (onSortMove (this_props s3)); by apply Hgoal.
  - destruct (this_autoscrollInterval s) as [v|] eqn:Ev.
    + destruct (autoscrollTick_inv s s' v Ev H)
        as (tr & s1 & _ & Hrun & _ & _ & Hp1 & _).
      apply (animateNodes_settles s1 s'); [|done].
      destruct Hr as (al & ? & ?). exists al. by rewrite Hp1.
    + unfold autoscrollTick in H. rewrite Ev in H. by injection H as <-.
  - injection H as <-. destruct (pauseSortMove_keeps s) as (_ & K2 & K3 & _).
    split.
    + destruct Hr as (al & ? & ?). exists al. by rewrite K3.
    + destruct Hset as (ss & ? & ?). exists ss. by rewrite K2.
  - injection H as <-. done.
Qed.

Lemma run_settles inputs : ∀ s s',
  refusesAll s → settled s → run inputs s = ok s' → refusesAll s' ∧ settled s'.
Proof.
  induction inputs as [|i inputs IH]; intros s s' Hr Hs H.
  - by injection H as <-.
  - simpl in H. apply bind_inv in H as (s1 & H1 & H).
    destruct (step_settles i s s1 Hr Hs H1) as [Hr1 Hs1]. by apply (IH s1).
Qed.

(** A press that finds its item starts a session whose new index is the
    index of the item. *)
Lemma handlePress_settled lookup ly e s s' r :
  lookup (elements s) (this_manager s) = ok (Some r) →
  handlePress lookup ly e None s = ok s' →
  settled s' ∧ this_props s' = this_props s.
Proof.
  intros Hfound H. unfold handlePress in H. rewrite Hfound in H. simpl in H.
  apply bind_inv in H as (a & _ & H).
  destruct (getHelperDimensions _ _ _ _) as [width height].
  apply bind_inv in H as (initialOffset & _ & H).
  injection H as <-.
  split.
  - eexists. split.
    + destruct (onSortStart _ && _); simpl; reflexivity.
    + done.
  - destruct (onSortStart (this_props s) && true) eqn:E1; simpl; rewrite ?E1;
      destruct (hideSortableGhost (this_props s)); simpl;
      destruct (useCustomEvents (this_props s)); simpl; rewrite ?E1; done.
Qed.

(** The call of [onSortEnd] carries the two indices of the session. *)
Lemma handleSortEnd_commit e s s' :
  handleSortEnd e s = ok s' → onSortEnd (this_props s) = true →
  ∃ collection,
    calls s' = calls s ++ [sortEnd (Commit (this_index <$> this_session s)
                                      (this_newIndex <$> this_session s) collection)].
Proof.
  unfold handleSortEnd. intros H Hend.
  apply bind_inv in H as (a & _ & H). injection H as <-.
  exists (activeCollection a). rewrite Hend.
  destruct (this_listenerNode s); simpl;
    destruct (this_helper s); simpl;
    destruct (hideSortableGhost (this_props s)); simpl;
    destruct (this_sortableGhost s); simpl;
    destruct (refs (this_manager s) !! activeCollection a); simpl; reflexivity.
Qed.

(** C3.  In a reflow of a ready state in which the drop predicate
    answers false, [animateNodes] returns; after it every registered item
    of the active collection has the translate zero and the transform
    [translate3d(0px,0px,0)], and the new index is the index the drag
    started from.  And when the predicate refuses every drop, then after
    a press that found its item and any moves, ticks, pauses and scrolls,
    the call of [onSortEnd] that [handleSortEnd] makes carries a new
    index equal to the old index. *)
Theorem drop_veto :
  (∀ s, ready s = true → dropRefused s = true →
     ∃ s' a registered ss,
       animateNodes s = ok s'
       ∧ active (this_manager s) = Some a
       ∧ refs (this_manager s) !! activeCollection a = Some registered
       ∧ this_session s = Some ss
       ∧ (∀ r, r ∈ registered →
            translate (info (elements s' (node r))) = Some (Point 0 0)
            ∧ Transform (nodeStyle (elements s' (node r))) = translate3d 0 0)
       ∧ this_newIndex <$> this_session s' = Some (this_index ss))
  ∧ (∀ lookup ly e0 s0 r inputs s1 s2 e1 s3,
       refusesAll s0 → onSortEnd (this_props s0) = true →
       lookup (elements s0) (this_manager s0) = ok (Some r) →
       handlePress lookup ly e0 None s0 = ok s1 →
       run inputs s1 = ok s2 →
       handleSortEnd e1 s2 = ok s3 →
       ∃ c, calls s3 = calls s2 ++ [sortEnd c]
            ∧ is_Some (oldIndex c) ∧ newIndex c = oldIndex c).
Proof.
  split.
  - intros s Hready Hrefused.
    destruct (ready_spec s Hready)
      as (a & registered & ss & tr & ordered0 & c0 & Ha & Hr & Hs & Ht & Hord & Hctx0
          & Hdrag & Hcfg & Hiso & Hnd & Hmeas & Hgrid).
    destruct (animateNodes_ready s Hready)
      as (ordered & c & ms & s' & a' & Hctx & Hms & Hrun & Ha' & _ & Hlen & _
          & (Hsess & Hels & _) & _).
    rewrite Hctx0 in Hctx. injection Hctx as <- <-.
    rewrite Ha in Ha'. injection Ha' as <-.
    pose proof (computeNodes_spec s ordered0 c0 Hctx0 Hnd) as Hcomp.
    rewrite Hms in Hcomp. destruct Hcomp as (f & Hcomp & _ & Hidx & _).
    unfold dropRefused in Hrefused. rewrite Hcomp, Ha in Hrefused.
    change (negb (isDropAllowed c0 (newIdx f) a) = true) in Hrefused.
    rewrite Hidx in Hrefused. apply negb_true_iff in Hrefused.
    rewrite Hrefused in Hsess, Hels.
    exists s', a, registered, ss. split_and!; try done.
    + intros r Hin.
      assert (Hin' : r ∈ ordered0).
      { rewrite Hord. by rewrite merge_sort_Permutation. }
      apply list_elem_of_lookup in Hin' as (j & Hj).
      destruct (lookup_lt_is_Some_2 ms j) as [m Hm].
      { rewrite Hlen. by eapply lookup_lt_Some. }
      rewrite (Hels j r m Hj Hm).
      destruct (Hmeas r) as [_ [tr0 Htr0]]; [by eapply list_elem_of_lookup_2|].
      assert (Hpl : is_Some (translate (info (place (config c0) m (elements s (node r)))))).
      { destruct m as [mv|]; simpl; [by eexists|].
        destruct (hideSortableGhost _); simpl; by rewrite Htr0. }
      destruct Hpl as [tr1 Htr1]. unfold paint. rewrite Htr1. done.
    + rewrite Hsess. simpl. by rewrite Hdrag.
  - intros lookup ly e0 s0 r inputs s1 s2 e1 s3 Hall Hend Hfound Hpress Hrun Hfin.
    destruct (handlePress_settled _ _ _ _ _ _ Hfound Hpress) as [Hset1 Hp1].
    assert (Hall1 : refusesAll s1).
    { destruct Hall as (al & ? & ?). exists al. by rewrite Hp1. }
    destruct (run_settles inputs s1 s2 Hall1 Hset1 Hrun) as [Hall2 (ss2 & Hs2 & Hn2)].
    assert (Hend2 : onSortEnd (this_props s2) = true).
    { clear -Hrun Hend Hp1. rewrite <- Hp1 in Hend. clear Hp1.
      revert s1 Hrun Hend. induction inputs as [|i inputs IH]; intros s1 Hrun Hend.
      - by injection Hrun as <-.
      - simpl in Hrun. apply bind_inv in Hrun as (u & Hu & Hrun).
        apply (IH u Hrun). destruct i as [e| | |w]; simpl in Hu.
        + unfold handleSortMove in Hu.
          apply bind_inv in Hu as (u1 & H1 & Hu).
          apply bind_inv in Hu as (u2 & H2 & Hu).
          apply bind_inv in Hu as (u3 & H3 & Hu).
          injection Hu as <-.
          destruct (updatePosition_inv _ _ _ H1) as (tr & Ht1 & _ & _ & Hq1 & _).
          destruct (animateNodes_keeps _ _ H2) as (Hq2 & Htx & _ & [ssx Hsx]).
          rewrite Ht1 in Htx.
          destruct (autoscroll_spec u2 _ tr Hsx Htx) as (u3' & H3' & _ & _ & _ & Hq3 & _).
          rewrite H3 in H3'. injection H3' as <-.
          assert (Hq : this_props u3 = this_props s1).
          { rewrite Hq3, Hq2, Hq1. by destruct (this_paused s1). }
          destruct (onSortMove (this_props u3)); simpl; by rewrite Hq.
        + destruct (this_autoscrollInterval s1) as [v|] eqn:Ev.
          * destruct (autoscrollTick_inv s1 u v Ev Hu)
              as (tr & w1 & _ & Hw & _ & _ & Hq1 & _).
            destruct (animateNodes_keeps _ _ Hw) as (Hq2 & _).
            by rewrite Hq2, Hq1.
          * unfold autoscrollTick in Hu. rewrite Ev in Hu. by injection Hu as <-.
        + injection Hu as <-. destruct (pauseSortMove_keeps s1) as (_ & _ & K3 & _).
          by rewrite K3.
        + by injection Hu as <-. }
    destruct (handleSortEnd_commit e1 s2 s3 Hfin Hend2) as (collection & Hcalls).
    eexists. split; [exact Hcalls|]. rewrite Hs2. simpl. split; [by eexists|].
    by rewrite Hn2.
Qed.

End Veto.

(** ** The reflow of a ready state *)

Section Whole.
Import Js Utils Container Items Session Examples.
Local Open Scope Q_scope.

Lemma ready_reflowed s :
  ready s = true → ∃ ordered c ms f s', reflowed s ordered c ms f s'.
Proof.
  intros Hready.
  destruct (ready_spec s Hready)
    as (a & registered & ss & tr & ordered & c & Ha & Hr & Hs & Ht & Hord & Hctx
        & Hdrag & Hcfg & Hiso & Hnd & Hmeas & Hgrid).
  destruct (animateNodes_ready s Hready)
    as (ordered' & c' & ms & s' & a' & Hctx' & Hms & Hrun & Ha' & _ & Hlen & Hitem
        & (Hsess & Hels & _) & _ & _ & _ & _ & Hhelper & _).
  rewrite Hctx in Hctx'. injection Hctx' as <- <-.
  rewrite Ha in Ha'. injection Ha' as <-.
  pose proof (computeNodes_spec s ordered c Hctx Hnd) as Hcomp.
  rewrite Hms in Hcomp.
  destruct Hcomp as (f & Hcomp & _ & Hidx & _ & _ & Hdone & _).
  assert (Hrefused : dropRefused s
                     = negb (isDropAllowed c (tentativeIndex c (elements s) ordered ms) a)).
  { unfold dropRefused. rewrite Hcomp, Ha.
    change (negb (isDropAllowed c (newIdx f) a)
            = negb (isDropAllowed c (tentativeIndex c (elements s) ordered ms) a)).
    by rewrite Hidx. }
  exists ordered, c, ms, f, s'. split; try done.
  - by rewrite Hs, Hdrag.
  - exists a, registered. split_and!; [done|done|].
    rewrite Hord. apply merge_sort_Permutation.
  - intros i j ra rb Hij Hi Hj. rewrite Hord in Hi, Hj.
    by apply (ordered_ascending (elements s) registered i j ra rb).
  - intros j r m Hj Hm. destruct (Hdone j r m Hj Hm) as [H1 H2].
    split_and!; [done|done|].
    rewrite (Hels j r m Hj Hm), Hrefused. by rewrite negb_involutive.
  - rewrite Hsess, Hrefused, Hidx.
    by destruct (isDropAllowed c (tentativeIndex c (elements s) ordered ms) a).
Qed.

(** The decision for an item of a reflow, by its position. *)
Lemma reflowed_lookup s ordered c ms f s' r :
  reflowed s ordered c ms f s' → r ∈ ordered →
  ∃ j m, ordered !! j = Some r ∧ ms !! j = Some m.
Proof.
  intros Hrf Hin. apply list_elem_of_lookup in Hin as (j & Hj).
  destruct (lookup_lt_is_Some_2 ms j) as [m Hm].
  { rewrite (rf_length _ _ _ _ _ _ Hrf). by eapply lookup_lt_Some. }
  by exists j, m.
Qed.

(** The decision for an item that is not the dragged one is the outcome
    of [decideMove] on its element, its cached offset and its cached
    neighbours. *)
Lemma reflowed_decision s ordered c ms f s' j r m :
  reflowed s ordered c ms f s' →
  ordered !! j = Some r → ms !! j = Some m →
  if strictEq (index (info (elements s (node r)))) (this_index (drag c))
  then m = None
  else ∃ mv, m = Some mv
        ∧ decideMove c (elements s (node r)) (offsetOf (elements s) r)
            (cacheEdgeOffset (elements s) <$> ordered !! S j)
            (cacheEdgeOffset (elements s) <$>
               (if (0 <? j)%nat then ordered !! (j - 1)%nat else None)) = ok mv.
Proof.
  intros Hrf Hj Hm. destruct (rf_item _ _ _ _ _ _ Hrf j r m Hj Hm) as (Hmove & _).
  unfold itemMove in Hmove. rewrite Hj in Hmove. simpl in Hmove.
  destruct (strictEq _ _); [by injection Hmove as <-|].
  apply bind_inv in Hmove as (mv & Hmv & Hmove). injection Hmove as <-.
  by exists mv.
Qed.

(** What the two loops leave in the element of an item that carries a
    translate object. *)
Lemma painted (p : props) (allowed : bool) (m : option move) (el : element) tr0 :
  translate (info el) = Some tr0 →
  let tr := if allowed
            then match m with Some mv => translateOf mv | None => tr0 end
            else Point 0 0 in
  translate (info (paint p allowed (place p m el))) = Some tr
  ∧ Transform (nodeStyle (paint p allowed (place p m el))) = translate3d (x tr) (y tr)
  ∧ (truthy (transitionDuration p) = true →
       TransitionDuration (nodeStyle (paint p allowed (place p m el)))
       = durationMs (transitionDuration p)).
Proof.
  intros Htr0.
  assert (Hpl : translate (info (place p m el))
                = Some match m with Some mv => translateOf mv | None => tr0 end).
  { destruct m as [mv|]; simpl; [done|]. by destruct (hideSortableGhost p). }
  unfold paint. rewrite Hpl. simpl. split_and!; [done|done|].
  by intros ->.
Qed.

(** C9, as the code has it.  A reflow of a ready state returns.  The
    first loop computes a translate for every item but the dragged one,
    whose stored translate it leaves as it is; the second loop then
    writes, for every registered item of the collection, the dragged one
    included, the stored translate (zero when the drop is refused) as a
    3D translate transform, and the transition duration when it is not
    zero.  The reflow does not touch the helper; [updatePosition] does
    not touch the items and gives the helper its own translate. *)
Theorem transforms_applied (s : t) :
  ready s = true →
  ∃ s' ordered c,
    animateNodes s = ok s'
    ∧ dragContext s = ok (ordered, c)
    ∧ this_helper s' = this_helper s
    ∧ (∀ r, r ∈ ordered →
         ∃ tr,
           translate (info (elements s' (node r))) = Some tr
           ∧ Transform (nodeStyle (elements s' (node r))) = translate3d (x tr) (y tr)
           ∧ (truthy (transitionDuration (this_props s)) = true →
                TransitionDuration (nodeStyle (elements s' (node r)))
                = durationMs (transitionDuration (this_props s)))
           ∧ (strictEq (index (info (elements s (node r)))) (this_index (drag c)) = true →
                translate (info (elements s' (node r)))
                = if dropRefused s then Some (Point 0 0)
                  else translate (info (elements s (node r)))))
    ∧ (∀ e s1, updatePosition e s = ok s1 →
         elements s1 = elements s
         ∧ ∀ h, this_helper s = Some h →
             ∃ h', this_helper s1 = Some h' ∧ helperTransform h' = this_translate s1).
Proof.
  intros Hready.
  destruct (ready_reflowed s Hready) as (ordered & c & ms & f & s' & Hrf).
  exists s', ordered, c. split_and!.
  - apply (rf_run _ _ _ _ _ _ Hrf).
  - apply (rf_context _ _ _ _ _ _ Hrf).
  - apply (rf_helper _ _ _ _ _ _ Hrf).
  - intros r Hin.
    destruct (reflowed_lookup _ _ _ _ _ _ r Hrf Hin) as (j & m & Hj & Hm).
    destruct (rf_item _ _ _ _ _ _ Hrf j r m Hj Hm) as (_ & _ & Hel).
    destruct (rf_measurable _ _ _ _ _ _ Hrf r Hin) as [_ [tr0 Htr0]].
    destruct (painted (config c) (negb (dropRefused s)) m _ tr0 Htr0) as (P1 & P2 & P3).
    rewrite Hel. eexists. split_and!; [exact P1|exact P2| |].
    + rewrite <- (rf_config _ _ _ _ _ _ Hrf). exact P3.
    + intros Hdragged. rewrite P1.
      pose proof (reflowed_decision _ _ _ _ _ _ j r m Hrf Hj Hm) as Hdec.
      rewrite Hdragged in Hdec. subst m.
      destruct (dropRefused s); simpl; [done|]. by rewrite Htr0.
  - intros e s1 H.
    destruct (updatePosition_inv _ _ _ H) as (tr & Ht & _ & _ & _ & _ & Hel & _ & Hh & _).
    split; [done|]. intros h Hhelper. rewrite Ht. by apply (Hh h).
Qed.

End Whole.

(** ** The decisions of the three layouts *)

Section Decisions.
Import Js Utils Container Items Session Examples.
Local Open Scope Q_scope.

Ltac reflect_tests :=
  repeat match goal with
    | H : Qle_bool _ _ = true |- _ => apply Qle_bool_iff in H
    | H : Qle_bool _ _ = false |- _ => apply Qle_bool_gt in H
    | H : Utils.Qltb _ _ = true |- _ => apply Qltb_lt in H
    | H : Utils.Qltb _ _ = false |- _ => apply Qltb_ge in H
    end.

(** An item is before or after the dragged index, never both. *)
Lemma isAfter_not_before c el : isAfter c el = true → isBefore c el = false.
Proof. unfold isAfter, isBefore. rewrite Z.ltb_lt, Z.ltb_ge. lia. Qed.

(** The decision in a horizontal list: the item is pushed backward when
    it lies after the dragged index and the box, moved right by the half
    of the smaller width, reaches its left edge; else it is pushed
    forward when it lies before the dragged index (or the drag came from
    another container) and the box has not passed its left edge moved
    right by that half. *)
Lemma decideRow_spec c el e mv :
  decideRow c el (Some e) = ok mv →
  let pushBack := isAfter c el = true ∧ left e <= boxLeft c + halfWidth c el in
  let pushOn := (isOrigin c = false ∨ isBefore c el = true)
                ∧ boxLeft c <= left e + halfWidth c el in
  (pushBack → mv = backward (Point (- slotX c) 0))
  ∧ (¬ pushBack → pushOn → mv = forward (Point (slotX c) 0))
  ∧ (¬ pushBack → ¬ pushOn → mv = stay).
Proof.
  unfold decideRow. simpl deref.
  destruct (isAfter c el) eqn:Ea;
    destruct (Qle_bool (left e) (boxLeft c + halfWidth c el)) eqn:E1;
    destruct (isOrigin c) eqn:Eo; destruct (isBefore c el) eqn:Eb;
    destruct (Qle_bool (boxLeft c) (left e + halfWidth c el)) eqn:E2;
    simpl; rewrite ?E1, ?E2; intros [= <-].
  all: reflect_tests.
  all: split_and!; intuition (try done; try lra; try congruence).
Qed.

(** The decision in a vertical list without hover callback: the item is
    pushed forward when it lies before the dragged index (or the drag
    came from another container) and the top of the box is above its
    bottom edge; else it is pushed backward when it lies after the
    dragged index and the bottom of the box is below its top edge. *)
Lemma decideColumn_spec c el e mv :
  onSortHover (config c) = None →
  decideColumn c el (Some e) = ok mv →
  let pushOn := (isOrigin c = false ∨ isBefore c el = true)
                ∧ boxTop c < top e + offsetHeight el in
  let pushBack := isOrigin c = true ∧ isBefore c el = false ∧ isAfter c el = true
                  ∧ top e < boxTop c + this_height (drag c) in
  (pushOn → mv = forward (Point 0 (slotY c)))
  ∧ (pushBack → mv = backward (Point 0 (- slotY c)))
  ∧ (¬ pushOn → ¬ pushBack → mv = stay).
Proof.
  intros Hhover. unfold decideColumn. simpl deref. rewrite Hhover. simpl.
  destruct (isAfter c el) eqn:Ea; destruct (isOrigin c) eqn:Eo;
    destruct (isBefore c el) eqn:Eb;
    destruct (Qltb (boxTop c) (top e + offsetHeight el)) eqn:E1;
    destruct (Qltb (top e) (boxTop c + this_height (drag c))) eqn:E2;
    simpl; rewrite ?E1, ?E2; intros [= <-].
  all: reflect_tests.
  all: split_and!; intuition (try done; try lra; try congruence).
Qed.

(** The decision in a vertical list with a hover callback: the callback
    is asked only while the top of the box (for an item that may be
    pushed forward) or its bottom (for an item that may be pushed
    backward) lies strictly inside the item, and its answer decides
    then; outside, the test is the one without callback. *)
Lemma decideColumn_hover c el e mv hovering was :
  onSortHover (config c) = Some hovering →
  translate (info el) = Some was →
  decideColumn c el (Some e) = ok mv →
  let draggedTop := boxTop c in
  let draggedBottom := boxTop c + this_height (drag c) in
  let edgeTop := top e in
  let edgeBottom := top e + offsetHeight el in
  let answerOn := hovering (hoverArgument c el e (Qeq_bool (y was) 0) 1 BELOW ABOVE) in
  let answerBack := hovering (hoverArgument c el e (Qeq_bool (y was) 0) (-1) ABOVE BELOW) in
  let pushOn :=
    (isOrigin c = false ∨ isBefore c el = true)
    ∧ ((draggedTop < edgeBottom ∧ edgeTop < draggedTop ∧ answerOn = true)
       ∨ (draggedTop < edgeBottom ∧ draggedTop <= edgeTop)) in
  let pushBack :=
    isOrigin c = true ∧ isBefore c el = false ∧ isAfter c el = true
    ∧ ((edgeTop < draggedBottom ∧ draggedBottom < edgeBottom ∧ answerBack = true)
       ∨ (edgeTop < draggedBottom ∧ edgeBottom <= draggedBottom)) in
  (pushOn → mv = forward (Point 0 (slotY c)))
  ∧ (pushBack → mv = backward (Point 0 (- slotY c)))
  ∧ (¬ pushOn → ¬ pushBack → mv = stay).
Proof.
  intros Hhover Hwas. unfold decideColumn. simpl deref. rewrite Hhover, Hwas. cbv zeta.
  destruct (isOrigin c) eqn:Eo; destruct (isBefore c el) eqn:Eb; cbn [negb orb].
  1,3,4: (destruct (hovering (hoverArgument c el e (Qeq_bool (y was) 0) 1 BELOW ABOVE))
            eqn:EaOn;
          destruct (Qltb (boxTop c) (top e + offsetHeight el)) eqn:E1;
          destruct (Qltb (top e) (boxTop c)) eqn:E2;
          simpl; rewrite ?E1, ?E2, ?EaOn; simpl; intros [= <-]; reflect_tests;
          split_and!; intuition (try done; try lra; try congruence)).
  destruct (isAfter c el) eqn:Ea;
    destruct (hovering (hoverArgument c el e (Qeq_bool (y was) 0) (-1) ABOVE BELOW))
      eqn:EaBack;
    destruct (Qltb (top e) (boxTop c + this_height (drag c))) eqn:E3;
    destruct (Qltb (boxTop c + this_height (drag c)) (top e + offsetHeight el)) eqn:E4;
    simpl; rewrite ?E3, ?E4, ?EaBack; simpl; intros [= <-]; reflect_tests;
    split_and!; intuition (try done; try lra; try congruence).
Qed.

(** The decision in the grid for an item that is pushed and would pass
    a bound: its target is the cached offset of its neighbour. *)
Lemma decideGrid_wraps c el e nx pv mv :
  decideGrid c el (Some e) nx pv = ok mv →
  (isBefore c el = true → gridBefore c el e = true → passesRight c el e = true →
     ∃ n, nx ≫= edgeOffset = Some n
          ∧ mv = forward (Point (left n - left e) (top n - top e)))
  ∧ (isAfter c el = true → gridAfter c el e = true → passesLeft c el e = true →
       ∃ n, pv ≫= edgeOffset = Some n
            ∧ mv = backward (Point (left n - left e) (top n - top e))).
Proof.
  unfold decideGrid, Js.bind, Js.deref, Js.ok. intros H. split.
  - intros Hb Hg Hp. rewrite Hb in H. cbv beta iota in H.
    rewrite Hg in H. cbv beta iota in H. rewrite Hp in H.
    destruct (nx ≫= edgeOffset) as [n|]; [|done]. injection H as <-. by exists n.
  - intros Ha Hg Hp. rewrite (isAfter_not_before _ _ Ha) in H. cbv beta iota in H.
    rewrite Ha in H. cbv beta iota in H.
    rewrite Hg in H. cbv beta iota in H. rewrite Hp in H.
    destruct (pv ≫= edgeOffset) as [n|]; [|done]. injection H as <-. by exists n.
Qed.

(** A forward decision is taken for an item before the dragged index
    (or in a drag from another container), a backward one for an item
    after it. *)
Lemma decideMove_side c el eo nx pv mv :
  decideMove c el eo nx pv = ok mv →
  (∀ tr, mv = forward tr → isOrigin c = false ∨ isBefore c el = true)
  ∧ (∀ tr, mv = backward tr → isAfter c el = true).
Proof.
  unfold decideMove. destruct (this_axis (drag c)) as [[] []].
  - unfold decideGrid. destruct (isBefore c el) eqn:Eb; simpl.
    + destruct eo as [e|]; simpl; [|done].
      destruct (gridBefore c el e); simpl.
      * destruct (passesRight c el e); simpl;
          [destruct (nx ≫= edgeOffset); simpl; [|done]|];
          intros [= <-]; split; intros tr [=]; by right.
      * destruct (isAfter c el) eqn:Ea; simpl; [|intros [= <-]; split; intros tr [=]].
        destruct (gridAfter c el e); simpl; [|intros [= <-]; split; intros tr [=]].
        destruct (passesLeft c el e); simpl;
          [destruct (pv ≫= edgeOffset); simpl; [|done]|];
          intros [= <-]; split; intros tr [=]; done.
    + destruct (isAfter c el) eqn:Ea; simpl; [|intros [= <-]; split; intros tr [=]].
      destruct eo as [e|]; simpl; [|done].
      destruct (gridAfter c el e); simpl; [|intros [= <-]; split; intros tr [=]].
      destruct (passesLeft c el e); simpl;
        [destruct (pv ≫= edgeOffset); simpl; [|done]|];
        intros [= <-]; split; intros tr [=]; done.
  - unfold decideRow. destruct (isAfter c el) eqn:Ea; simpl.
    + destruct eo as [e|]; simpl; [|done].
      destruct (Qle_bool _ _); simpl; [intros [= <-]; split; intros tr [=]; done|].
      destruct (negb (isOrigin c) || isBefore c el) eqn:Eb; simpl;
        [|intros [= <-]; split; intros tr [=]].
      destruct (Qle_bool _ _); intros [= <-]; split; intros tr [=].
      apply orb_true_iff in Eb as [Eo|Eb]; [left; by apply negb_true_iff|by right].
    + destruct (negb (isOrigin c) || isBefore c el) eqn:Eb; simpl;
        [|intros [= <-]; split; intros tr [=]].
      destruct eo as [e|]; simpl; [|done].
      destruct (Qle_bool _ _); intros [= <-]; split; intros tr [=].
      apply orb_true_iff in Eb as [Eo|Eb]; [left; by apply negb_true_iff|by right].
  - unfold decideColumn. destruct eo as [e|]; simpl; [|done].
    destruct (negb (isOrigin c) || isBefore c el) eqn:Eb; simpl.
    + assert (Hside : isOrigin c = false ∨ isBefore c el = true).
      { apply orb_true_iff in Eb as [Eo|Eb]; [left; by apply negb_true_iff|by right]. }
      intros H. apply bind_inv in H as (b & _ & H). injection H as <-.
      destruct b; split; intros tr [=]; done.
    + destruct (isAfter c el) eqn:Ea; simpl; [|intros [= <-]; split; intros tr [=]].
      intros H. apply bind_inv in H as (b & _ & H). injection H as <-.
      destruct b; split; intros tr [=]; done.
  - intros [= <-]; split; intros tr [=].
Qed.

End Decisions.

(** ** Swaps, the new index and the wrap of the grid *)

Section Swaps.
Import Js Utils Container Items Session Examples.
Local Open Scope Q_scope.

(** The final translate and transform of an item that is not the
    dragged one, when the drop is allowed: those of its decision. *)
Lemma reflowed_item s ordered c ms f s' j r m :
  reflowed s ordered c ms f s' → dropRefused s = false →
  ordered !! j = Some r → ms !! j = Some (Some m) →
  translate (info (els f (node r))) = Some (translateOf m)
  ∧ translate (info (elements s' (node r))) = Some (translateOf m)
  ∧ Transform (nodeStyle (elements s' (node r)))
    = translate3d (x (translateOf m)) (y (translateOf m)).
Proof.
  intros Hrf Hallowed Hj Hm.
  destruct (rf_item _ _ _ _ _ _ Hrf j r (Some m) Hj Hm) as (_ & Hf & Hel).
  rewrite Hf, Hel, Hallowed. done.
Qed.

(** C1, as the code has it.  In a reflow of a ready state whose drop is
    allowed, every item but the dragged one ends with the translate of
    its decision, applied as its transform.  In a horizontal list
    ([x] only) the item is pushed backward by one slot when it lies
    after the dragged index and the left edge of the box plus half of
    the smaller width is at or past ([>=]) its left edge; else forward by
    one slot when it lies before the dragged index and the left edge of
    the box is at or before ([<=]) its left edge plus that half; else it
    stays: the swap is at half overlap.  In a vertical list ([y] only,
    no hover callback) the tests are strict and have no half: forward as
    soon as the top of the box is above the bottom edge of an item
    before it, backward as soon as the bottom of the box is below the
    top edge of an item after it.  With a hover callback the same two
    tests decide, but for the time that the top of the box (for the
    forward test) or its bottom (for the backward test) lies strictly
    between the top and the bottom edge of the item: then the callback
    is asked, with the translate the item had before as what tells the
    side of the gap, and the item is pushed exactly when it answers
    true. *)
Theorem single_axis_swap (s : t) :
  ready s = true → dropRefused s = false →
  ∃ s' ordered c,
    animateNodes s = ok s'
    ∧ dragContext s = ok (ordered, c)
    ∧ ∀ r e, r ∈ ordered → offsetOf (elements s) r = Some e →
        let el := elements s (node r) in
        strictEq (index (info el)) (this_index (drag c)) = false →
        ∃ tr,
          translate (info (elements s' (node r))) = Some tr
          ∧ Transform (nodeStyle (elements s' (node r))) = translate3d (x tr) (y tr)
          ∧ (this_axis (drag c) = (true, false) →
               let pushBack :=
                 isAfter c el = true ∧ left e <= boxLeft c + halfWidth c el in
               let pushOn :=
                 (isOrigin c = false ∨ isBefore c el = true)
                 ∧ boxLeft c <= left e + halfWidth c el in
               (pushBack → tr = Point (- slotX c) 0)
               ∧ (¬ pushBack → pushOn → tr = Point (slotX c) 0)
               ∧ (¬ pushBack → ¬ pushOn → tr = Point 0 0))
          ∧ (this_axis (drag c) = (false, true) → onSortHover (this_props s) = None →
               let pushOn :=
                 (isOrigin c = false ∨ isBefore c el = true)
                 ∧ boxTop c < top e + offsetHeight el in
               let pushBack :=
                 isOrigin c = true ∧ isBefore c el = false ∧ isAfter c el = true
                 ∧ top e < boxTop c + this_height (drag c) in
               (pushOn → tr = Point 0 (slotY c))
               ∧ (pushBack → tr = Point 0 (- slotY c))
               ∧ (¬ pushOn → ¬ pushBack → tr = Point 0 0))
          ∧ (this_axis (drag c) = (false, true) →
             ∀ hovering, onSortHover (this_props s) = Some hovering →
               ∃ was,
                 translate (info el) = Some was
                 ∧ let draggedTop := boxTop c in
                   let draggedBottom := boxTop c + this_height (drag c) in
                   let edgeTop := top e in
                   let edgeBottom := top e + offsetHeight el in
                   let answerOn :=
                     hovering (hoverArgument c el e (Qeq_bool (y was) 0) 1 BELOW ABOVE) in
                   let answerBack :=
                     hovering (hoverArgument c el e (Qeq_bool (y was) 0) (-1) ABOVE BELOW) in
                   let pushOn :=
                     (isOrigin c = false ∨ isBefore c el = true)
                     ∧ ((draggedTop < edgeBottom ∧ edgeTop < draggedTop ∧ answerOn = true)
                        ∨ (draggedTop < edgeBottom ∧ draggedTop <= edgeTop)) in
                   let pushBack :=
                     isOrigin c = true ∧ isBefore c el = false ∧ isAfter c el = true
                     ∧ ((edgeTop < draggedBottom ∧ draggedBottom < edgeBottom
                         ∧ answerBack = true)
                        ∨ (edgeTop < draggedBottom ∧ edgeBottom <= draggedBottom)) in
                   (pushOn → tr = Point 0 (slotY c))
                   ∧ (pushBack → tr = Point 0 (- slotY c))
                   ∧ (¬ pushOn → ¬ pushBack → tr = Point 0 0)).
Proof.
  intros Hready Hallowed.
  destruct (ready_reflowed s Hready) as (ordered & c & ms & f & s' & Hrf).
  exists s', ordered, c.
  split; [apply (rf_run _ _ _ _ _ _ Hrf)|].
  split; [apply (rf_context _ _ _ _ _ _ Hrf)|].
  intros r e Hin He el Hnot.
  destruct (reflowed_lookup _ _ _ _ _ _ r Hrf Hin) as (j & m & Hj & Hm).
  pose proof (reflowed_decision _ _ _ _ _ _ j r m Hrf Hj Hm) as Hdec.
  fold el in Hdec. rewrite Hnot in Hdec. destruct Hdec as (mv & -> & Hdec).
  destruct (reflowed_item _ _ _ _ _ _ j r mv Hrf Hallowed Hj Hm) as (_ & Htr & Htf).
  exists (translateOf mv). split; [done|]. split; [done|].
  unfold decideMove in Hdec. rewrite He in Hdec. split; [|split].
  - intros Hax. rewrite Hax in Hdec.
    destruct (decideRow_spec c el e mv Hdec) as (H1 & H2 & H3).
    split_and!.
    + intros H. by rewrite (H1 H).
    + intros Hn H. by rewrite (H2 Hn H).
    + intros Hn Hn'. by rewrite (H3 Hn Hn').
  - intros Hax Hhover. rewrite Hax in Hdec.
    rewrite <- (rf_config _ _ _ _ _ _ Hrf) in Hhover.
    destruct (decideColumn_spec c el e mv Hhover Hdec) as (H1 & H2 & H3).
    split_and!.
    + intros H. by rewrite (H1 H).
    + intros H. by rewrite (H2 H).
    + intros Hn Hn'. by rewrite (H3 Hn Hn').
  - intros Hax hovering Hhover. rewrite Hax in Hdec.
    rewrite <- (rf_config _ _ _ _ _ _ Hrf) in Hhover.
    destruct (rf_measurable _ _ _ _ _ _ Hrf r Hin) as [_ [was Hwas]].
    exists was. split; [done|]. fold el in Hwas.
    destruct (decideColumn_hover c el e mv hovering was Hhover Hwas Hdec) as (H1 & H2 & H3).
    split_and!.
    + intros H. by rewrite (H1 H).
    + intros H. by rewrite (H2 H).
    + intros Hn Hn'. by rewrite (H3 Hn Hn').
Qed.


End Swaps.

(** ** The tentative new index *)

Section NewIndex.
Import Js Utils Container Items Session Examples.
Local Open Scope Z_scope.

Lemma tracksFrom_app cur d ns1 ns2 ms1 ms2 :
  length ns1 = length ms1 →
  tracksFrom cur d (ns1 ++ ns2) (ms1 ++ ms2)
  = tracksFrom (tracksFrom cur d ns1 ms1) d ns2 ms2.
Proof.
  intros Hlen. unfold tracksFrom. rewrite zip_with_app by done. apply foldl_app.
Qed.

(** Items that stay, and the dragged item, leave the index as it is. *)
Lemma tracksFrom_quiet d ms : ∀ ns cur,
  (∀ m, m ∈ ms → ¬ pushedForward m ∧ ¬ pushedBackward m) →
  tracksFrom cur d ns ms = cur.
Proof.
  induction ms as [|m ms IH]; intros ns cur Hq.
  - by destruct ns.
  - destruct ns as [|r ns]; [done|].
    change (tracksFrom cur d (r :: ns) (m :: ms))
      with (tracksFrom (match m with
                        | Some mv => track (index (info (d (node r)))) mv cur
                        | None => cur
                        end) d ns ms).
    rewrite IH.
    + destruct (Hq m) as [Hf Hb]; [by left|].
      destruct m as [[|tr|tr]|]; simpl; try done.
      * destruct Hf. by eexists.
      * destruct Hb. by eexists.
    + intros m' Hin. apply Hq. by right.
Qed.

(** Once the index is set, only a backward item changes it. *)
Lemma tracksFrom_kept d ms : ∀ ns i,
  (∀ m, m ∈ ms → ¬ pushedBackward m) →
  tracksFrom (Some i) d ns ms = Some i.
Proof.
  induction ms as [|m ms IH]; intros ns i Hq.
  - by destruct ns.
  - destruct ns as [|r ns]; [done|].
    change (tracksFrom (Some i) d (r :: ns) (m :: ms))
      with (tracksFrom (match m with
                        | Some mv => track (index (info (d (node r)))) mv (Some i)
                        | None => Some i
                        end) d ns ms).
    assert (Hm : match m with
                 | Some mv => track (index (info (d (node r)))) mv (Some i)
                 | None => Some i
                 end = Some i).
    { destruct m as [[|tr|tr]|]; simpl; try done.
      destruct (Hq (Some (backward tr))); [by left|by eexists]. }
    rewrite Hm. apply IH. intros m' Hin. apply Hq. by right.
Qed.

Lemma elem_of_take_lookup {A} (l : list A) k a :
  a ∈ take k l → ∃ j, (j < k)%nat ∧ l !! j = Some a.
Proof.
  intros Hin. apply list_elem_of_lookup in Hin as (j & Hj).
  pose proof (lookup_lt_Some _ _ _ Hj) as Hlt. rewrite length_take in Hlt.
  exists j. split; [lia|]. by rewrite lookup_take_lt in Hj by lia.
Qed.

Lemma elem_of_drop_lookup {A} (l : list A) k a :
  a ∈ drop k l → ∃ j, (k ≤ j)%nat ∧ l !! j = Some a.
Proof.
  intros Hin. apply list_elem_of_lookup in Hin as (j & Hj).
  rewrite lookup_drop in Hj. exists (k + j)%nat. split; [lia|done].
Qed.

(** The index the first loop tracks, from the decisions. *)
Lemma tracks_spec d ns ms :
  length ns = length ms →
  ((∀ j m, ms !! j = Some m → ¬ pushedForward m ∧ ¬ pushedBackward m) →
     tracks d ns ms = None)
  ∧ (∀ j r m, ns !! j = Some r → ms !! j = Some m → pushedBackward m →
       (∀ j' m', (j < j')%nat → ms !! j' = Some m' → ¬ pushedBackward m') →
       tracks d ns ms = Some (index (info (d (node r)))))
  ∧ (∀ j r m, ns !! j = Some r → ms !! j = Some m → pushedForward m →
       (∀ j' m', ms !! j' = Some m' → ¬ pushedBackward m') →
       (∀ j' m', (j' < j)%nat → ms !! j' = Some m' → ¬ pushedForward m') →
       tracks d ns ms = Some (index (info (d (node r))))).
Proof.
  intros Hlen. unfold tracks. split_and!.
  - intros Hq. apply tracksFrom_quiet. intros m Hin.
    apply list_elem_of_lookup in Hin as (j & Hj). by apply (Hq j).
  - intros j r m Hr Hm [tr ->] Hlater.
    rewrite <- (take_drop_middle ns j r Hr), <- (take_drop_middle ms j _ Hm).
    rewrite tracksFrom_app.
    2: { rewrite !length_take. apply lookup_lt_Some in Hr, Hm. lia. }
    set (cur := tracksFrom None d (take j ns) (take j ms)).
    change (tracksFrom (Some (index (info (d (node r))))) d (drop (S j) ns) (drop (S j) ms)
            = Some (index (info (d (node r))))).
    apply tracksFrom_kept. intros m' Hin.
    apply elem_of_drop_lookup in Hin as (j' & Hj' & Hm'). by apply (Hlater j'); [lia|].
  - intros j r m Hr Hm [tr ->] Hnoback Hfirst.
    rewrite <- (take_drop_middle ns j r Hr), <- (take_drop_middle ms j _ Hm).
    rewrite tracksFrom_app.
    2: { rewrite !length_take. apply lookup_lt_Some in Hr, Hm. lia. }
    rewrite (tracksFrom_quiet d (take j ms)).
    2: { intros m' Hin. apply elem_of_take_lookup in Hin as (j' & Hj' & Hm').
         split; [by apply (Hfirst j')|by apply (Hnoback j')]. }
    change (tracksFrom (Some (index (info (d (node r))))) d (drop (S j) ns) (drop (S j) ms)
            = Some (index (info (d (node r))))).
    apply tracksFrom_kept. intros m' Hin.
    apply elem_of_drop_lookup in Hin as (j' & Hj' & Hm'). by apply (Hnoback j').
Qed.

(** C2.  In a ready state [animateNodes] returns, and [this.newIndex] of
    the state it returns is the tentative new index of its first loop,
    unless the drop predicate refuses that index: then it is the index
    the drag started from.  After the first loop every item but the
    dragged one holds the translate of its decision.  The tentative new
    index is the index the drag started from when no item is pushed; it
    is the index of the last item pushed backward (an item after the
    dragged index) when there is one; and otherwise the index of the
    first item pushed forward (an item before the dragged index), which
    is the lowest index among the items pushed forward, since the items
    are visited in ascending order of index. *)
Theorem tentative_newIndex (s : t) :
  ready s = true →
  ∃ ordered c ms f s' after,
    dragContext s = ok (ordered, c)
    ∧ itemMoves c (elements s) ordered (length ordered) = ok ms
    ∧ computeNodes s = ok (c, f)
    ∧ animateNodes s = ok s'
    ∧ this_session s' = Some after
    ∧ this_newIndex after = (if dropRefused s then this_index (drag c) else newIdx f)
    ∧ length ms = length ordered
    ∧ (∀ j r m, ordered !! j = Some r → ms !! j = Some (Some m) →
         translate (info (els f (node r))) = Some (translateOf m)
         ∧ (pushedForward (Some m) →
              isOrigin c = false ∨ isBefore c (elements s (node r)) = true)
         ∧ (pushedBackward (Some m) → isAfter c (elements s (node r)) = true))
    ∧ ((∀ j m, ms !! j = Some m → ¬ pushedForward m ∧ ¬ pushedBackward m) →
         newIdx f = this_index (drag c))
    ∧ (∀ j r m, ordered !! j = Some r → ms !! j = Some m → pushedBackward m →
         (∀ j' m', (j < j')%nat → ms !! j' = Some m' → ¬ pushedBackward m') →
         newIdx f = Some (index (info (elements s (node r)))))
    ∧ (∀ j r m, ordered !! j = Some r → ms !! j = Some m → pushedForward m →
         (∀ j' m', ms !! j' = Some m' → ¬ pushedBackward m') →
         (∀ j' m', (j' < j)%nat → ms !! j' = Some m' → ¬ pushedForward m') →
         newIdx f = Some (index (info (elements s (node r))))
         ∧ ∀ j' r' m', ordered !! j' = Some r' → ms !! j' = Some m' → pushedForward m' →
             index (info (elements s (node r))) ≤ index (info (elements s (node r')))).
Proof.
  intros Hready.
  destruct (ready_reflowed s Hready) as (ordered & c & ms & f & s' & Hrf).
  pose proof (rf_length _ _ _ _ _ _ Hrf) as Hlen.
  destruct (tracks_spec (elements s) ordered ms (eq_sym Hlen)) as (Hnone & Hback & Hfwd).
  pose proof (rf_tentative _ _ _ _ _ _ Hrf) as Hidx. unfold tentativeIndex in Hidx.
  exists ordered, c, ms, f, s'. eexists. split_and!.
  - apply (rf_context _ _ _ _ _ _ Hrf).
  - apply (rf_moves _ _ _ _ _ _ Hrf).
  - apply (rf_compute _ _ _ _ _ _ Hrf).
  - apply (rf_run _ _ _ _ _ _ Hrf).
  - apply (rf_newIndex _ _ _ _ _ _ Hrf).
  - reflexivity.
  - done.
  - intros j r m Hj Hm.
    destruct (rf_item _ _ _ _ _ _ Hrf j r (Some m) Hj Hm) as (Hmove & Hf & _).
    split; [by rewrite Hf|].
    pose proof (reflowed_decision _ _ _ _ _ _ j r (Some m) Hrf Hj Hm) as Hdec.
    destruct (strictEq _ _); [done|]. destruct Hdec as (mv & [= <-] & Hdec).
    destruct (decideMove_side _ _ _ _ _ _ Hdec) as [Hside1 Hside2].
    split.
    + intros [tr [= ->]]. by apply (Hside1 tr).
    + intros [tr [= ->]]. by apply (Hside2 tr).
  - intros Hq. by rewrite Hidx, (Hnone Hq).
  - intros j r m Hj Hm Hb Hlater. by rewrite Hidx, (Hback j r m Hj Hm Hb Hlater).
  - intros j r m Hj Hm Hf Hnoback Hfirst.
    split; [by rewrite Hidx, (Hfwd j r m Hj Hm Hf Hnoback Hfirst)|].
    intros j' r' m' Hj' Hm' Hf'.
    destruct (Nat.lt_trichotomy j j') as [Hlt|[<-|Hgt]].
    + by apply (rf_ascending _ _ _ _ _ _ Hrf j j' r r').
    + assert (r' = r) by congruence. subst r'. lia.
    + destruct (Hfirst j' m' Hgt Hm' Hf').
Qed.

End NewIndex.

(** ** The theorems at the example states *)

Section AtExamples.
Import Js Utils Container Items Session Examples.
Local Open Scope Q_scope.

(** C1: in the column, the box moved down by one pixel pushes the item
    below it backward by a whole slot, though its bottom edge plus the
    half height (151) has not reached the top edge (200) of that item. *)
Lemma column_swap_counterexample :
  ∃ s' ordered c e,
    handleSortMove (mouse 50 151) columnDrag = ok s'
    ∧ dragContext s' = ok (ordered, c)
    ∧ this_axis (drag c) = (false, true)
    ∧ offsetOf (elements s') (Ref 2 None) = Some e
    ∧ translate (info (elements s' 2)) = Some (Point 0 (-100))
    ∧ Qle_bool (top e) (boxTop c + halfHeight c (elements s' 2)) = false.
Proof.
  eexists _, _, _, _. split; [vm_compute; reflexivity|].
  split; [vm_compute; reflexivity|].
  split_and!; vm_compute; reflexivity.
Qed.

Lemma single_axis_swap_witness :
  ready rowMoved = true ∧ dropRefused rowMoved = false
  ∧ ∃ s' ordered c, animateNodes rowMoved = ok s' ∧ dragContext rowMoved = ok (ordered, c).
Proof.
  assert (H1 : ready rowMoved = true) by (vm_compute; reflexivity).
  assert (H2 : dropRefused rowMoved = false) by (vm_compute; reflexivity).
  split; [exact H1|]. split; [exact H2|].
  destruct (single_axis_swap rowMoved H1 H2) as (s' & ordered & c & Hrun & Hctx & _).
  exists s', ordered, c. split; [exact Hrun|exact Hctx].
Defined.

Lemma tentative_newIndex_witness :
  ready rowMoved = true
  ∧ ∃ ordered c ms f s' after,
      dragContext rowMoved = ok (ordered, c)
      ∧ itemMoves c (elements rowMoved) ordered (length ordered) = ok ms
      ∧ computeNodes rowMoved = ok (c, f)
      ∧ animateNodes rowMoved = ok s'
      ∧ this_session s' = Some after
      ∧ this_newIndex after
        = (if dropRefused rowMoved then this_index (drag c) else newIdx f).
Proof.
  assert (H1 : ready rowMoved = true) by (vm_compute; reflexivity).
  split; [exact H1|].
  destruct (tentative_newIndex rowMoved H1)
    as (ordered & c & ms & f & s' & after & Hctx & Hms & Hc & Hrun & Hs & Hnew & _).
  exists ordered, c, ms, f, s', after.
  split; [exact Hctx|]. split; [exact Hms|]. split; [exact Hc|].
  split; [exact Hrun|]. split; [exact Hs|exact Hnew].
Defined.

Lemma drop_veto_witness :
  ready vetoMoved = true ∧ dropRefused vetoMoved = true
  ∧ ∃ s', animateNodes vetoMoved = ok s'
          ∧ translate (info (elements s' 2)) = Some (Point 0 0)
          ∧ Transform (nodeStyle (elements s' 2)) = translate3d 0 0.
Proof.
  assert (H1 : ready vetoMoved = true) by (vm_compute; reflexivity).
  assert (H2 : dropRefused vetoMoved = true) by (vm_compute; reflexivity).
  split; [exact H1|]. split; [exact H2|].
  destruct (proj1 drop_veto vetoMoved H1 H2)
    as (s' & a & registered & ss & Hrun & Ha & Hr & Hs & Hall & Hidx).
  exists s'. split; [exact Hrun|].
  assert (Hin : Ref 2 None ∈ registered).
  { vm_compute in Ha. injection Ha as <-. vm_compute in Hr. injection Hr as <-.
    apply list_elem_of_here. }
  exact (Hall (Ref 2 None) Hin).
Defined.

(** C5: in the grid locked to the horizontal axis, the pressed item ends
    50 below the container; the first tick after a move adds 5 to the
    vertical translate. *)
Lemma lockAxis_tick_counterexample :
  lockAxis (this_props lockedDrag) = Some "x"%string
  ∧ ∃ s' tr,
      run [pointer (mouse 150 150); tick] lockedDrag = ok s'
      ∧ this_translate s' = Some tr ∧ y tr == 5.
Proof.
  split; [reflexivity|]. eexists _, _.
  split; [vm_compute; reflexivity|]. split; [reflexivity|]. reflexivity.
Qed.

(** C5: the pressed item of the grid ends with its container; the
    test for scrolling down holds at the translate zero, with the speed
    zero, and two runs of the interval it sets leave the vertical
    translate at zero. *)
Lemma lockAxis_x_translate_witness :
  lockAxis (this_props flushDrag) = Some "x"%string
  ∧ this_session flushDrag = Some flushSession
  ∧ verticalRest flushSession
  ∧ handleSortMove (mouse 180 190) flushDrag = ok flushMoved
  ∧ run [tick; tick] flushMoved = ok flushTicked
  ∧ (∃ v, this_autoscrollInterval flushMoved = Some v ∧ y (direction v) = 1)
  ∧ ∃ tr, this_translate flushTicked = Some tr ∧ y tr == 0.
Proof.
  assert (H1 : lockAxis (this_props flushDrag) = Some "x"%string) by reflexivity.
  assert (H2 : this_session flushDrag = Some flushSession) by (vm_compute; reflexivity).
  assert (H3 : verticalRest flushSession).
  { vm_compute. split; [right; split; [reflexivity|discriminate]|left; reflexivity]. }
  assert (H4 : handleSortMove (mouse 180 190) flushDrag = ok flushMoved)
    by (vm_compute; reflexivity).
  assert (H5 : run [tick; tick] flushMoved = ok flushTicked) by (vm_compute; reflexivity).
  split; [exact H1|]. split; [exact H2|]. split; [exact H3|]. split; [exact H4|].
  split; [exact H5|]. split; [eexists; split; vm_compute; reflexivity|].
  exact (proj2 (proj2 (lockAxis_x_translate flushDrag H1)) flushSession (mouse 180 190)
           flushMoved [tick; tick] flushTicked H2 H3 H4 H5).
Defined.


(** C8: with the translate within half an extent of both upper bounds,
    the horizontal direction stays zero: the chain has taken the
    vertical branch. *)
Lemma edgeScroll_one_axis_counterexample :
  atLeast 10 (boundX (this_maxTranslate square)) (this_width square / 2)
  ∧ 10 <= 50
  ∧ x (direction (edgeScroll square (Point 10 10))) = 0
  ∧ y (direction (edgeScroll square (Point 10 10))) = 1.
Proof. split_and!; [vm_compute; discriminate|vm_compute; discriminate|reflexivity|reflexivity]. Qed.

Lemma edgeScroll_chain_witness :
  0 < this_height square ∧ 0 < this_width square
  ∧ edgeScroll square (Point 10 10)
    = Interval (Point 1 (10 * Qabs ((50 - this_height square / 2 - 10) / this_height square)))
        (Point 0 1).
Proof.
  assert (H1 : 0 < this_height square) by reflexivity.
  assert (H2 : 0 < this_width square) by reflexivity.
  split; [exact H1|]. split; [exact H2|].
  apply (proj1 (edgeScroll_chain square (Point 10 10) H1 H2) 50).
  - reflexivity.
  - vm_compute. discriminate.
Defined.

(** C9: the dragged element of the column, which had no transform,
    has the transform [translate3d(0px,0px,0)] and the transition
    duration after a move. *)
Lemma dragged_transform_counterexample :
  ∃ s' ordered c,
    handleSortMove (mouse 50 151) columnDrag = ok s'
    ∧ dragContext s' = ok (ordered, c)
    ∧ strictEq (index (info (elements s' 1))) (this_index (drag c)) = true
    ∧ Transform (nodeStyle (elements columnDrag 1)) = transformUnset
    ∧ Transform (nodeStyle (elements s' 1)) = translate3d 0 0
    ∧ TransitionDuration (nodeStyle (elements s' 1)) = durationMs 300.
Proof.
  eexists _, _, _. split; [vm_compute; reflexivity|].
  split; [vm_compute; reflexivity|].
  split_and!; vm_compute; reflexivity.
Qed.

Lemma transforms_applied_witness :
  ready rowMoved = true
  ∧ ∃ s' ordered c,
      animateNodes rowMoved = ok s'
      ∧ dragContext rowMoved = ok (ordered, c)
      ∧ this_helper s' = this_helper rowMoved.
Proof.
  assert (H1 : ready rowMoved = true) by (vm_compute; reflexivity).
  split; [exact H1|].
  destruct (transforms_applied rowMoved H1) as (s' & ordered & c & Hrun & Hctx & Hh & _).
  exists s', ordered, c. split; [exact Hrun|]. split; [exact Hctx|exact Hh].
Defined.

End AtExamples.

Section AtArrays.
Import Utils.
Local Open Scope Z_scope.

Lemma arrayMove_spec_witness :
  ∃ h' array result,
    arrayMove 4 {[ 5%nat := [Some 10; Some 11; Some 12] ]} 5%nat 0 4 = Some (h', array)
    ∧ h' !! array = Some result
    ∧ h' !! 5%nat = Some [Some 10; Some 11; Some 12].
Proof.
  destruct (arrayMove_spec (A:=Z) {[ 5%nat := [Some 10; Some 11; Some 12] ]} 5%nat
              [Some 10; Some 11; Some 12] 0 4 (Some 10) 4)
    as (h' & array & result & Hrun & _ & Hres & _ & Harr & _).
  - reflexivity.
  - lia.
  - reflexivity.
  - lia.
  - simpl. lia.
  - exists h', array, result. split; [exact Hrun|]. split; [exact Hres|exact Harr].
Defined.

End AtArrays.

(** ** [limit] *)

Ltac limit_cases :=
  repeat match goal with
  | |- context [Utils.Qltb ?a ?b] =>
      let E := fresh "E" in
      destruct (Utils.Qltb a b) eqn:E; [apply Qltb_lt in E|apply Qltb_ge in E]
  end.

Section Limits.
Import Utils.
Local Open Scope Q_scope.

Lemma limit_between (m M v : Q) :
  m <= M → m <= limit (Some m) (Some M) v ∧ limit (Some m) (Some M) v <= M
           ∧ (m <= v → v <= M → limit (Some m) (Some M) v = v).
Proof.
  intros HmM. unfold limit. limit_cases; split_and!; intros; try done; try lra; exfalso; lra.
Qed.

(** X1.  [limit] with both bounds, the lower not above the upper: the result
    lies between the bounds, it is the value itself exactly when the value
    does, else the bound that the value passes, and limiting twice changes
    nothing.  A bound that is missing (NaN) is not enforced, the other one
    still is. *)
Theorem limit_within (m M v : Q) :
  m <= M →
  (m <= limit (Some m) (Some M) v ∧ limit (Some m) (Some M) v <= M)
  ∧ (m <= v → v <= M → limit (Some m) (Some M) v = v)
  ∧ (v < m → limit (Some m) (Some M) v = m)
  ∧ (M < v → limit (Some m) (Some M) v = M)
  ∧ limit (Some m) (Some M) (limit (Some m) (Some M) v) = limit (Some m) (Some M) v
  ∧ (limit None (Some M) v <= M ∧ (v <= M → limit None (Some M) v = v))
  ∧ (m <= limit (Some m) None v ∧ (m <= v → limit (Some m) None v = v))
  ∧ limit None None v = v.
Proof.
  intros HmM. unfold limit. limit_cases;
    split_and!; intros; try done; try lra; exfalso; lra.
Qed.

(** With the bounds the wrong way round the lower bound wins below it and
    the upper bound above it, so the result may lie outside both. *)
Lemma limit_crossed (m M v : Q) :
  M < m → (v < m → limit (Some m) (Some M) v = m)
          ∧ (m <= v → limit (Some m) (Some M) v = M).
Proof.
  intros H. unfold limit. split; intros Hv.
  - by assert (Qltb v m = true) as -> by (apply Qltb_lt; lra).
  - assert (Qltb v m = false) as -> by (apply Qltb_ge; lra).
    by assert (Qltb M v = true) as -> by (apply Qltb_lt; lra).
Qed.

End Limits.

(** ** More on [arrayMove] *)

Section ArrayMoveEdges.
Import Utils.
Context {A : Type}.
Implicit Types (h : gmap nat (list (option A))) (a b : list (option A)).
Local Open Scope Z_scope.

(** The two splices on the copy, when nothing is padded. *)
Lemma arrayMove_unpadded h arr a (previousIndex newIndex : Z) (fuel : nat) :
  h !! arr = Some a →
  newIndex < Z.of_nat (length a) →
  let removed := spliceList a previousIndex 1 [] in
  arrayMove fuel h arr previousIndex newIndex
  = Some (<[fresh (dom h) := fst (spliceList (fst removed) newIndex 0 [first (snd removed)])]> h,
          fresh (dom h)).
Proof.
  intros Harr Hn removed. unfold arrayMove.
  rewrite (slice0_eq _ _ a) by done. cbn [mbind option_bind].
  rewrite lookup_insert_eq. cbn [mbind option_bind].
  destruct (Z.leb_spec (Z.of_nat (length a)) newIndex); [lia|].
  cbn [mbind option_bind].
  rewrite (splice_eq _ _ a) by apply lookup_insert_eq. cbn [mbind option_bind fst snd].
  rewrite insert_insert_eq.
  rewrite (splice_eq _ _ (fst removed)) by apply lookup_insert_eq.
  cbn [mbind option_bind fst snd]. by rewrite insert_insert_eq.
Qed.

Lemma arrayMove_inside h arr a (p n : nat) v (fuel : nat) :
  h !! arr = Some a →
  a !! p = Some v →
  (n < length a)%nat →
  arrayMove fuel h arr (Z.of_nat p) (Z.of_nat n)
  = Some (<[fresh (dom h) := take n (delete p a) ++ v :: drop n (delete p a)]> h,
          fresh (dom h)).
Proof.
  intros Harr Hv Hn. pose proof (lookup_lt_Some _ _ _ Hv) as Hp.
  rewrite (arrayMove_unpadded _ _ a) by (done || lia). cbn zeta.
  rewrite (spliceList_remove _ _ v) by (rewrite ?Nat2Z.id; done || lia).
  cbn [fst snd first]. rewrite Nat2Z.id.
  rewrite spliceList_insert.
  - cbn [fst]. by rewrite Nat2Z.id.
  - rewrite length_delete by eauto. lia.
Qed.

Lemma insert_back a (p : nat) v :
  a !! p = Some v → take p (delete p a) ++ v :: drop p (delete p a) = a.
Proof.
  intros Hv. pose proof (lookup_lt_Some _ _ _ Hv) as Hp.
  assert (Hlen : length (take p a) = p) by (rewrite length_take; lia).
  rewrite delete_take_drop.
  rewrite take_app_le by lia. rewrite take_take, Nat.min_id.
  rewrite drop_app_ge by lia. rewrite Hlen, Nat.sub_diag, drop_0.
  by apply take_drop_middle.
Qed.

(** X2.  Moving an element and moving it back gives the contents of the
    array again, in a third array: [arrayMove(arrayMove(arr, p, n), n, p)]
    has the elements of [arr] in their order, for [p] and [n] inside
    [arr]; the two calls leave [arr] as it was. *)
Theorem arrayMove_round_trip h arr a (p n : nat) (fuel : nat) :
  h !! arr = Some a →
  (p < length a)%nat →
  (n < length a)%nat →
  ∃ h1 moved h2 back,
    arrayMove fuel h arr (Z.of_nat p) (Z.of_nat n) = Some (h1, moved)
    ∧ arrayMove fuel h1 moved (Z.of_nat n) (Z.of_nat p) = Some (h2, back)
    ∧ h2 !! back = Some a
    ∧ h2 !! arr = Some a
    ∧ back ≠ arr ∧ back ≠ moved ∧ moved ≠ arr.
Proof.
  intros Harr Hp Hn.
  destruct (lookup_lt_is_Some_2 a p Hp) as [v Hv].
  set (b := delete p a).
  set (r1 := take n b ++ v :: drop n b).
  assert (Hlenb : S (length b) = length a).
  { subst b. rewrite length_delete by eauto. lia. }
  destruct (move_inside b n v) as (_ & Hlen1 & Hat & Hdel); [lia|]. fold r1 in Hlen1, Hat, Hdel.
  set (moved := fresh (dom h)).
  set (h1 := <[moved := r1]> h).
  set (back := fresh (dom h1)).
  assert (Hmoved : h !! moved = None) by (apply not_elem_of_dom, is_fresh).
  assert (Hback : h1 !! back = None) by (apply not_elem_of_dom, is_fresh).
  assert (Hne1 : moved ≠ arr) by (intros E; rewrite E in Hmoved; congruence).
  assert (Hne2 : back ≠ moved).
  { intros E. rewrite E in Hback. subst h1. by rewrite lookup_insert_eq in Hback. }
  assert (Hne3 : back ≠ arr).
  { intros E. rewrite E in Hback. subst h1. rewrite lookup_insert_ne in Hback by done.
    congruence. }
  exists h1, moved, (<[back := a]> h1), back. split_and!; try done.
  - by apply arrayMove_inside.
  - rewrite (arrayMove_inside _ _ r1 n p v); [|by apply lookup_insert_eq|done|lia].
    fold back. rewrite Hdel. subst b. by rewrite insert_back.
  - apply lookup_insert_eq.
  - rewrite lookup_insert_ne by done. subst h1. by rewrite lookup_insert_ne.
Qed.

(** X3.  A source index at or past the end removes nothing, and [undefined]
    is what gets inserted: for [newIndex] inside [arr] the result is one
    longer than [arr], with an [undefined] at [newIndex] and the elements
    of [arr] around it; an empty [arr] and both indices zero give the
    one-element array of [undefined]. *)
Theorem arrayMove_missing_source h arr a (previousIndex : Z) (n : nat) (fuel : nat) :
  h !! arr = Some a →
  Z.of_nat (length a) ≤ previousIndex →
  ((n < length a)%nat →
     ∃ h' array,
       arrayMove fuel h arr previousIndex (Z.of_nat n) = Some (h', array)
       ∧ h' !! array = Some (take n a ++ None :: drop n a)
       ∧ h' !! arr = Some a)
  ∧ (a = [] → previousIndex = 0 → (2 ≤ fuel)%nat →
     ∃ h' array,
       arrayMove fuel h arr 0 0 = Some (h', array)
       ∧ h' !! array = Some [None]
       ∧ h' !! arr = Some []).
Proof.
  intros Harr Hp.
  assert (Hfresh : h !! fresh (dom h) = None) by (apply not_elem_of_dom, is_fresh).
  assert (Hne : arr ≠ fresh (dom h)) by (intros E; rewrite <- E in Hfresh; congruence).
  split.
  - intros Hn. eexists _, _. split; [|split].
    + rewrite (arrayMove_unpadded _ _ a) by (done || lia). reflexivity.
    + rewrite lookup_insert_eq. f_equal. cbn zeta.
      assert (Hrem : spliceList a previousIndex 1 [] = (a, [])).
      { unfold spliceList, spliceStart, spliceCount.
        destruct (Z.ltb_spec previousIndex 0); [lia|].
        rewrite Z.min_r by lia. rewrite Nat2Z.id.
        replace (Z.to_nat (Z.min (Z.max 1 0) (Z.of_nat (length a) - Z.of_nat (length a))))
          with 0%nat by lia.
        rewrite Nat.add_0_r, firstn_all, drop_all. simpl. by rewrite app_nil_r. }
      rewrite Hrem. cbn [fst snd first].
      rewrite spliceList_insert by lia. cbn [fst]. by rewrite Nat2Z.id.
    + by rewrite lookup_insert_ne.
  - intros -> -> Hfuel. eexists _, _. split; [|split].
    + unfold arrayMove. rewrite (slice0_eq _ _ []) by done. cbn [mbind option_bind].
      rewrite lookup_insert_eq. cbn [mbind option_bind length].
      change (Z.of_nat 0 <=? 0) with true. cbn iota.
      rewrite (pushLoop_pads _ _ _ []); [|apply lookup_insert_eq|simpl; lia|simpl; lia].
      cbn [mbind option_bind]. rewrite insert_insert_eq.
      rewrite (splice_eq _ _ [None]) by apply lookup_insert_eq.
      cbn [mbind option_bind fst snd]. rewrite insert_insert_eq.
      rewrite (splice_eq _ _ []) by apply lookup_insert_eq.
      cbn [mbind option_bind fst snd]. rewrite insert_insert_eq. reflexivity.
    + by rewrite lookup_insert_eq.
    + by rewrite lookup_insert_ne.
Qed.

(** X4.  Negative indices are those of [splice]: a negative [previousIndex]
    counts from the end of [arr], so [-1] moves the last element; a
    negative [newIndex] counts from the end of the array without the
    moved element, so [-1] puts the element before the last of the others
    and not at the end. *)
Theorem arrayMove_negative h arr a (fuel : nat) :
  h !! arr = Some a →
  (∀ k n : nat, (0 < k ≤ length a)%nat → (n < length a)%nat →
     arrayMove fuel h arr (- Z.of_nat k) (Z.of_nat n)
     = arrayMove fuel h arr (Z.of_nat (length a - k)) (Z.of_nat n))
  ∧ (∀ p k : nat, (p < length a)%nat → (0 < k < length a)%nat →
     arrayMove fuel h arr (Z.of_nat p) (- Z.of_nat k)
     = arrayMove fuel h arr (Z.of_nat p) (Z.of_nat (length a - 1 - k))).
Proof.
  intros Harr. split.
  - intros k n Hk Hn.
    rewrite !(arrayMove_unpadded _ _ a) by (done || lia). cbn zeta.
    assert (Hrem : spliceList a (- Z.of_nat k) 1 [] = spliceList a (Z.of_nat (length a - k)) 1 []).
    { unfold spliceList. f_equal; f_equal; unfold spliceStart, spliceCount;
        destruct (Z.ltb_spec (- Z.of_nat k) 0); destruct (Z.ltb_spec (Z.of_nat (length a - k)) 0);
        try lia; repeat f_equal; lia. }
    by rewrite Hrem.
  - intros p k Hp Hk.
    destruct (lookup_lt_is_Some_2 a p Hp) as [v Hv].
    rewrite !(arrayMove_unpadded _ _ a) by (done || lia). cbn zeta.
    rewrite (spliceList_remove _ _ v) by (rewrite ?Nat2Z.id; done || lia).
    cbn [fst snd first]. rewrite Nat2Z.id.
    assert (Hlen : S (length (delete p a)) = length a).
    { rewrite length_delete by eauto. lia. }
    do 2 f_equal. f_equal.
    unfold spliceList. f_equal; f_equal; unfold spliceStart, spliceCount;
      destruct (Z.ltb_spec (- Z.of_nat k) 0);
      destruct (Z.ltb_spec (Z.of_nat (length a - 1 - k)) 0);
      try lia; repeat f_equal; lia.
Qed.

End ArrayMoveEdges.

(** ** [omit] and the props handed on by [render] *)

Section OmitFacts.
Import Objects.
Context {V : Type}.
Implicit Types (obj : gmap string V) (keys : list string).

Lemma omit_fold keys (l : list (string * V)) : ∀ (acc : gmap string V) k,
  NoDup l.*1 →
  foldl (λ acc property,
           if bool_decide (fst property ∈ keys) then acc
           else <[fst property := snd property]> acc) acc l !! k
  = if bool_decide (k ∈ keys) then acc !! k
    else match list_to_map (M:=gmap string V) l !! k with
         | Some v => Some v
         | None => acc !! k
         end.
Proof.
  induction l as [|[key v] l IH]; intros acc k Hnd.
  - simpl. rewrite lookup_empty. by destruct (bool_decide _).
  - apply NoDup_cons in Hnd as [Hnotin Hnd]. cbn [foldl fst snd].
    rewrite IH by done. cbn [list_to_map foldr].
    destruct (bool_decide_reflect (k ∈ keys)) as [Hk|Hk].
    + destruct (bool_decide_reflect (key ∈ keys)); [done|].
      rewrite lookup_insert_ne; [done|]. intros ->. done.
    + destruct (decide (key = k)) as [->|Hne].
      * rewrite (not_elem_of_list_to_map_1 _ k) by done.
        rewrite (bool_decide_eq_false_2 _ Hk). by rewrite !lookup_insert_eq.
      * rewrite (lookup_insert_ne (list_to_map l)) by done.
        destruct (list_to_map l !! k); [done|].
        destruct (bool_decide _); [done|]. by rewrite lookup_insert_ne.
Qed.

Lemma omit_lookup_at obj keys k :
  omit obj keys !! k = if bool_decide (k ∈ keys) then None else obj !! k.
Proof.
  unfold omit. rewrite omit_fold by apply NoDup_fst_map_to_list.
  rewrite list_to_map_to_list, lookup_empty.
  destruct (bool_decide _); [done|]. by destruct (obj !! k).
Qed.

(** X5.  The result of [omit] has exactly the properties of the object whose
    names are not among the keys, with their values; so omitting nothing
    copies the object, omitting in two steps is omitting all the keys at
    once, and omitting the same keys again changes nothing. *)
Theorem omit_lookup obj keys :
  (∀ k, omit obj keys !! k = if bool_decide (k ∈ keys) then None else obj !! k)
  ∧ omit obj [] = obj
  ∧ (∀ keys', omit (omit obj keys) keys' = omit obj (keys ++ keys'))
  ∧ omit (omit obj keys) keys = omit obj keys.
Proof.
  split_and!.
  - apply omit_lookup_at.
  - apply map_eq. intros k. rewrite omit_lookup_at.
    by rewrite bool_decide_eq_false_2 by apply not_elem_of_nil.
  - intros keys'. apply map_eq. intros k. rewrite !omit_lookup_at.
    destruct (bool_decide_reflect (k ∈ keys')) as [H1|H1];
      destruct (bool_decide_reflect (k ∈ keys)) as [H2|H2];
      destruct (bool_decide_reflect (k ∈ keys ++ keys')) as [H3|H3];
      try done; exfalso; apply H3 || (apply elem_of_app in H3; tauto);
      apply elem_of_app; tauto.
  - apply map_eq. intros k. rewrite !omit_lookup_at.
    by destruct (bool_decide _).
Qed.

(** X6.  The wrapped component of a sortable container gets every prop of
    the container but the nineteen that [render] names.  The props
    [onSortHover], [canSortDrop] and [useCustomEvents], which the container
    reads itself, are not among the nineteen: they are handed on.  The
    wrapped component of a sortable element gets every prop but
    [collection], [disabled] and [index]. *)
Theorem render_forwards (props : gmap string V) :
  (∀ k, containerRender props !! k
        = if bool_decide (k ∈ containerOmitted) then None else props !! k)
  ∧ (∀ k, k ∈ ["onSortHover"; "canSortDrop"; "useCustomEvents"]%string →
          containerRender props !! k = props !! k)
  ∧ (∀ k, k ∈ ["axis"; "distance"; "pressDelay"; "onSortEnd"; "lockAxis"]%string →
          containerRender props !! k = None)
  ∧ (∀ k, elementRender props !! k
          = if bool_decide (k ∈ ["collection"; "disabled"; "index"]%string)
            then None else props !! k).
Proof.
  split_and!.
  - intros k. apply omit_lookup_at.
  - intros k Hk. unfold containerRender. rewrite omit_lookup_at.
    rewrite bool_decide_eq_false_2; [done|].
    intros Hin. repeat (apply elem_of_cons in Hk as [->|Hk]; [by vm_compute in Hin; 
      repeat (apply elem_of_cons in Hin as [Hin|Hin]; [discriminate|]); 
      apply elem_of_nil in Hin|]).
    by apply elem_of_nil in Hk.
  - intros k Hk. unfold containerRender. rewrite omit_lookup_at.
    rewrite bool_decide_eq_true_2; [done|].
    repeat (apply elem_of_cons in Hk as [->|Hk]; [unfold containerOmitted; set_solver|]).
    by apply elem_of_nil in Hk.
  - intros k. apply omit_lookup_at.
Qed.

End OmitFacts.

(** ** Edge offsets *)

Section EdgeOffsetFacts.
Import Js Utils Container Items Session Ancestors.
Local Open Scope Q_scope.

Lemma getEdgeOffsetFrom_sum p : ∀ nodeTop nodeLeft offset,
  if attached p
  then ∃ e, getEdgeOffsetFrom p nodeTop nodeLeft offset = Some e
            ∧ top e == top offset + nodeTop + top (above p)
            ∧ left e == left offset + nodeLeft + left (above p)
  else getEdgeOffsetFrom p nodeTop nodeLeft offset = None.
Proof.
  induction p as [| |upTop upLeft up IH]; intros nodeTop nodeLeft offset.
  - cbn [attached getEdgeOffsetFrom above]. eexists. split; [done|].
    cbn [top left]. split; ring.
  - done.
  - cbn [attached getEdgeOffsetFrom above].
    specialize (IH upTop upLeft (Edge (top offset + nodeTop) (left offset + nodeLeft))).
    destruct (attached up); [|done].
    destruct IH as (e & -> & Ht & Hl). exists e. split; [done|].
    cbn [top left] in *. rewrite Ht, Hl. split; ring.
Qed.

(** X8.  [getEdgeOffset] gives the offset of an element from the container,
    however deep it is nested: the sum of its own [offsetTop] and
    [offsetLeft] and those of its parents below the container.  It gives
    [undefined] exactly when the way up from the element does not meet
    the container.  The styles and the [sortableInfo] of the element do
    not matter. *)
Theorem getEdgeOffset_sums (el : element) :
  (is_Some (getEdgeOffset el) ↔ attached (parentNode el) = true)
  ∧ (∀ e, getEdgeOffset el = Some e →
       top e == offsetTop el + top (above (parentNode el))
       ∧ left e == offsetLeft el + left (above (parentNode el)))
  ∧ (parentNode el = inContainer →
       getEdgeOffset el = Some (Edge (0 + offsetTop el) (0 + offsetLeft el)))
  ∧ (∀ i st, getEdgeOffset (set_nodeStyle st (set_info i el)) = getEdgeOffset el).
Proof.
  unfold getEdgeOffset.
  pose proof (getEdgeOffsetFrom_sum (parentNode el) (offsetTop el) (offsetLeft el) (Edge 0 0))
    as Hsum.
  split_and!.
  - destruct (attached (parentNode el)).
    + destruct Hsum as (e & -> & _). split; [done|by eexists].
    + rewrite Hsum. split; [by intros [? ?]|done].
  - intros e He. destruct (attached (parentNode el)).
    + destruct Hsum as (e' & He' & Ht & Hl). rewrite He in He'. injection He' as <-.
      cbn [top left] in *. rewrite Ht, Hl. split; ring.
    + congruence.
  - intros ->. done.
  - done.
Qed.

End EdgeOffsetFacts.

(** ** Presses *)

Section PressFacts.
Import Js Utils Container Items Session Press.
Local Open Scope Q_scope.

Variable getActive : dom → manager → result (option ref).
Variable ly : layout.

(** What a press from the container itself leaves, field by field. *)
Lemma handlePress_fields e s s' r :
  getActive (elements s) (this_manager s) = ok (Some r) →
  handlePress getActive ly e None s = ok s' →
  ∃ a ss pos,
    active (this_manager s) = Some a
    ∧ getOffset e = ok pos
    ∧ this_session s' = Some ss
    ∧ this_manager s' = this_manager s
    ∧ this_props s' = this_props s
    ∧ window s' = window s
    ∧ state_sorting s' = true
    ∧ state_isOrigin s' = true
    ∧ this_translate s' = this_translate s
    ∧ this_autoscrollInterval s' = this_autoscrollInterval s
    ∧ this_pressTimer s' = this_pressTimer s
    ∧ this_touched s' = this_touched s
    ∧ this_paused s' = this_paused s
    ∧ this_node ss = node r
    ∧ this_index ss = activeIndex a
    ∧ this_newIndex ss = activeIndex a
    ∧ (this_width ss, this_height ss)
      = getHelperDimensions (this_props s) (activeIndex a) (elements s (node r))
          (activeCollection a)
    ∧ this_axis ss = (contains "x" (axis (this_props s)), contains "y" (axis (this_props s)))
    ∧ this_initialOffset ss = pos
    ∧ this_initialWindowScroll ss = Edge (pageYOffset (window s)) (pageXOffset (window s))
    ∧ this_initialScroll ss = Edge (scrollTop (scrollContainer s)) (scrollLeft (scrollContainer s))
    ∧ this_boundingClientRect ss = nodeBoundingClientRect ly
    ∧ this_containerBoundingRect ss = containerRect ly
    ∧ this_minTranslate ss
      = Bounds (if contains "x" (axis (this_props s))
                then Some (lowBound ly (this_props s) true
                           - rectLeft (nodeBoundingClientRect ly) - this_width ss / 2)
                else None)
               (if contains "y" (axis (this_props s))
                then Some (lowBound ly (this_props s) false
                           - rectTop (nodeBoundingClientRect ly) - this_height ss / 2)
                else None)
    ∧ this_maxTranslate ss
      = Bounds (if contains "x" (axis (this_props s))
                then Some (highBound ly (this_props s) (window s) true
                           - rectLeft (nodeBoundingClientRect ly) - this_width ss / 2)
                else None)
               (if contains "y" (axis (this_props s))
                then Some (highBound ly (this_props s) (window s) false
                           - rectTop (nodeBoundingClientRect ly) - this_height ss / 2)
                else None)
    ∧ this_helper s'
      = Some (Helper (rectTop (nodeBoundingClientRect ly) - marginTop (elementMargin ly))
                (rectLeft (nodeBoundingClientRect ly) - marginLeft (elementMargin ly))
                (this_width ss) (this_height ss) (helperClass (this_props s)) None)
    ∧ elements s'
      = (if hideSortableGhost (this_props s)
         then <[node r := hide (elements s (node r))]> (elements s) else elements s)
    ∧ this_sortableGhost s'
      = (if hideSortableGhost (this_props s) then Some (node r) else this_sortableGhost s)
    ∧ calls s'
      = (if onSortStart (this_props s)
         then calls s ++ [sortStart (node r) (activeIndex a) (activeCollection a)]
         else calls s)
    ∧ (let l := match touches e with Some _ => onNode (node r) | None => onWindow end in
       if useCustomEvents (this_props s)
       then listeners s' = listeners s ∧ this_listenerNode s' = this_listenerNode s
       else listeners s' = (if bool_decide (l ∈ listeners s) then listeners s
                            else listeners s ++ [l])
            ∧ this_listenerNode s' = Some l).
Proof.
  intros Hfound H. unfold handlePress in H. rewrite Hfound in H. simpl in H.
  apply bind_inv in H as (a & Ha & H).
  destruct (getHelperDimensions _ _ _ _) as [width height] eqn:Edim.
  apply bind_inv in H as (initialOffset & Hpos & H).
  injection H as <-.
  destruct (active (this_manager s)) as [a'|] eqn:Eact; [|discriminate].
  injection Ha as ->.
  exists a. eexists. exists initialOffset.
  split; [done|]. split; [done|].
  split.
  { destruct (onSortStart _ && _); simpl; reflexivity. }
  unfold lowBound, highBound.
  destruct (onSortStart (this_props s)) eqn:E1; simpl;
    destruct (hideSortableGhost (this_props s)) eqn:E2; simpl;
    destruct (useCustomEvents (this_props s)) eqn:E3; simpl;
    rewrite ?E1, ?E2, ?E3; simpl;
    destruct (useWindowAsScrollContainer (this_props s)) eqn:E4; simpl;
    split_and!; try done.
Qed.

(** X9.  A press from the container itself that finds its item starts the
    drag: the container sorts, the session has the index of the active
    marker as its index and as its new index, and the translate is
    bounded on exactly the axes that [axis] names: from the left (top)
    of the container, or zero with [useWindowAsScrollContainer], to the
    right (bottom) of the container, or the inner width (height) of the
    window, each less the left (top) of the pressed element and less
    half its width (height), as the source subtracts them.  The position
    of the pointer at the press is the origin of the translate: an
    update for the same event, without edge locking, gives the helper
    the translate zero. *)
Theorem press_starts e s s' r :
  getActive (elements s) (this_manager s) = ok (Some r) →
  handlePress getActive ly e None s = ok s' →
  ∃ ss a,
    this_session s' = Some ss
    ∧ active (this_manager s') = Some a
    ∧ state_sorting s' = true ∧ state_isOrigin s' = true
    ∧ this_node ss = node r
    ∧ this_index ss = activeIndex a ∧ this_newIndex ss = activeIndex a
    ∧ (is_Some (boundX (this_minTranslate ss)) ↔ contains "x" (axis (this_props s)) = true)
    ∧ (is_Some (boundX (this_maxTranslate ss)) ↔ contains "x" (axis (this_props s)) = true)
    ∧ (is_Some (boundY (this_minTranslate ss)) ↔ contains "y" (axis (this_props s)) = true)
    ∧ (is_Some (boundY (this_maxTranslate ss)) ↔ contains "y" (axis (this_props s)) = true)
    ∧ this_minTranslate ss
      = Bounds (if contains "x" (axis (this_props s))
                then Some (lowBound ly (this_props s) true
                           - rectLeft (nodeBoundingClientRect ly) - this_width ss / 2)
                else None)
               (if contains "y" (axis (this_props s))
                then Some (lowBound ly (this_props s) false
                           - rectTop (nodeBoundingClientRect ly) - this_height ss / 2)
                else None)
    ∧ this_maxTranslate ss
      = Bounds (if contains "x" (axis (this_props s))
                then Some (highBound ly (this_props s) (window s) true
                           - rectLeft (nodeBoundingClientRect ly) - this_width ss / 2)
                else None)
               (if contains "y" (axis (this_props s))
                then Some (highBound ly (this_props s) (window s) false
                           - rectTop (nodeBoundingClientRect ly) - this_height ss / 2)
                else None)
    ∧ (lockToContainerEdges (this_props s) = false →
         ∃ s'' tr h,
           updatePosition e s' = ok s''
           ∧ this_translate s'' = Some tr ∧ x tr == 0 ∧ y tr == 0
           ∧ this_helper s'' = Some h ∧ helperTransform h = Some tr).
Proof.
  intros Hfound H.
  destruct (handlePress_fields e s s' r Hfound H)
    as (a & ss & pos & Ha & Hpos & Hs & Hm & Hp & Hw & Hsort & Horigin & _ & _ & _ & _ & _
        & Hnode & Hidx & Hnew & _ & _ & Hinit & Hscroll & _ & _ & _ & Hmin & Hmax & Hhelper & _).
  exists ss, a. rewrite Hm. split_and!; try done.
  - rewrite Hmin. simpl. destruct (contains "x" _); split; intros Hx; try done; try (by eauto); by destruct Hx.
  - rewrite Hmax. simpl. destruct (contains "x" _); split; intros Hx; try done; try (by eauto); by destruct Hx.
  - rewrite Hmin. simpl. destruct (contains "y" _); split; intros Hx; try done; try (by eauto); by destruct Hx.
  - rewrite Hmax. simpl. destruct (contains "y" _); split; intros Hx; try done; try (by eauto); by destruct Hx.
  - intros Hlock. unfold updatePosition. rewrite Hpos, Hs, Hp, Hlock. simpl.
    rewrite Hhelper, Hw, Hinit, Hscroll. simpl.
    destruct (lockAxis (this_props s)) as [ax|]; simpl;
      [destruct (String.eqb ax "x"); simpl; [|destruct (String.eqb ax "y"); simpl]|];
      (eexists _, _, _; split; [reflexivity|]; simpl;
       split_and!; [reflexivity|simpl; ring|simpl; ring|reflexivity|reflexivity]).
Qed.

(** X10.  A press with an origin (the drag started in another container)
    makes the collection 0 active with no index, even when the origin has
    no node; with a node the container sorts without being the origin,
    and it creates no helper, hides no element, registers no listener and
    does not call [onSortStart].  A press without origin that finds no
    active item changes nothing. *)
Theorem press_from_elsewhere e s :
  handlePress getActive ly e (Some None) s
  = ok (set_this_manager (set_active (Some (Marker None "0")) (this_manager s)) s)
  ∧ (∀ n s', handlePress getActive ly e (Some (Some n)) s = ok s' →
       active (this_manager s') = Some (Marker None "0")
       ∧ refs (this_manager s') = refs (this_manager s)
       ∧ state_sorting s' = true ∧ state_isOrigin s' = false
       ∧ this_helper s' = this_helper s
       ∧ elements s' = elements s
       ∧ this_sortableGhost s' = this_sortableGhost s
       ∧ listeners s' = listeners s
       ∧ calls s' = calls s
       ∧ ∃ ss, this_session s' = Some ss ∧ this_node ss = n
               ∧ this_index ss = None ∧ this_newIndex ss = None)
  ∧ (getActive (elements s) (this_manager s) = ok None →
       handlePress getActive ly e None s = ok s).
Proof.
  split_and!.
  - reflexivity.
  - intros n s' H. unfold handlePress in H. simpl in H.
    destruct (getHelperDimensions _ _ _ _) as [width height].
    apply bind_inv in H as (initialOffset & _ & H). injection H as <-.
    destruct (onSortStart (this_props s)) eqn:E1; simpl; rewrite ?E1; simpl;
      (split_and!; try done; by eexists).
  - intros Hnone. unfold handlePress. by rewrite Hnone.
Qed.

End PressFacts.

(** ** The press gesture *)

Section GestureFacts.
Import Js Utils Container Items Session Press.
Local Open Scope Q_scope.

Variable getActive : dom → manager → result (option ref).
Variable isActive : manager → bool.
Variable ly : layout.

(** X7.  [closest] returns the nearest node of the chain that satisfies the
    test, the node itself included, and nothing when no node does. *)
Theorem closest_nearest (el : list pathNode) (fn : pathNode → bool) :
  (∀ found, closest el fn = Some found ↔
     ∃ i, el !! i = Some found ∧ fn found = true
          ∧ ∀ j node, (j < i)%nat → el !! j = Some node → fn node = false)
  ∧ (closest el fn = None ↔ ∀ node, node ∈ el → fn node = false).
Proof.
  induction el as [|node parents [IH1 IH2]]; simpl.
  - split.
    + intros found. split; [done|]. by intros (i & Hi & _).
    + split; [|done]. intros _ node Hin. by apply elem_of_nil in Hin.
  - destruct (fn node) eqn:E.
    + split.
      * intros found. split.
        -- intros [= <-]. exists 0%nat. split_and!; [done|done|]. intros j ? Hj. lia.
        -- intros (i & Hi & Hfn & Hbefore). destruct i as [|i]; [by injection Hi as <-|].
           by rewrite (Hbefore 0%nat node) in E by (simpl; done || lia).
      * split; [done|]. intros Hall. rewrite Hall in E; [done|]. apply list_elem_of_here.
    + split.
      * intros found. rewrite IH1. split.
        -- intros (i & Hi & Hfn & Hbefore). exists (S i). split_and!; [done|done|].
           intros [|j] n Hj Hn; [by injection Hn as <-|]. apply (Hbefore j); [lia|done].
        -- intros (i & Hi & Hfn & Hbefore). destruct i as [|i].
           ++ injection Hi as <-. congruence.
           ++ exists i. split_and!; [done|done|]. intros j n Hj Hn.
              apply (Hbefore (S j)); [lia|done].
      * rewrite IH2. split.
        -- intros Hall n Hin. apply elem_of_cons in Hin as [->|Hin]; [done|by apply Hall].
        -- intros Hall n Hin. apply Hall. by apply list_elem_of_further.
Qed.

(** A press without origin leaves the manager, the press timer and
    [_touched] as they are. *)
Lemma handlePress_keeps e s s' :
  handlePress getActive ly e None s = ok s' →
  this_manager s' = this_manager s
  ∧ this_props s' = this_props s
  ∧ this_pressTimer s' = this_pressTimer s
  ∧ this_touched s' = this_touched s.
Proof.
  intros H. unfold handlePress in H.
  apply bind_inv in H as ([pressed s0] & H0 & H).
  apply bind_inv in H0 as (found & Hfound & H0). injection H0 as <- <-.
  destruct found as [r|]; simpl in H; [|by injection H as <-].
  apply bind_inv in H as (a & _ & H).
  destruct (getHelperDimensions _ _ _ _) as [width height].
  apply bind_inv in H as (initialOffset & _ & H). injection H as <-.
  destruct (onSortStart (this_props s)) eqn:E1; simpl;
    destruct (hideSortableGhost (this_props s)) eqn:E2; simpl;
    destruct (useCustomEvents (this_props s)) eqn:E3; simpl;
    rewrite ?E1, ?E2, ?E3; simpl; done.
Qed.

#[local] Arguments closest : simpl never.

(** X11.  What [handleStart] does to the active marker.  It sets the marker
    exactly when the event is not refused (right button, cancel
    predicate), the nearest node with [sortableInfo] from the target
    upwards exists and belongs to the manager of this container, the
    container is not sorting, and, with [useDragHandle], a node with
    [sortableHandle] lies on the way up from the target; the marker then
    carries the index and the collection of that nearest node.  In every
    other case the marker stays as it was. *)
Theorem handleStart_marker e s s' :
  handleStart getActive ly e s = ok s' →
  let sorted := closest (target e :: ancestors e) (λ el, bool_decide (is_Some (sortable el))) in
  let handle := closest (target e :: ancestors e) sortableHandle in
  let accepted n owner :=
    button e ≠ Some 2%Z ∧ shouldCancelStart (pressConfig s) e = false
    ∧ (sortable <$> sorted) = Some (Some (n, owner))
    ∧ owner = managerAddress s
    ∧ state_sorting (inner s) = false
    ∧ (useDragHandle (pressConfig s) = true → is_Some handle) in
  (∀ n owner, accepted n owner →
     active (this_manager (inner s'))
     = Some (Marker (Some (index (info (elements (inner s) n))))
               (collection (info (elements (inner s) n)))))
  ∧ ((∀ n owner, ¬ accepted n owner) →
       this_manager (inner s') = this_manager (inner s)
       ∧ state_sorting (inner s') = state_sorting (inner s)
       ∧ this_session (inner s') = this_session (inner s)
       ∧ this_pressTimer (inner s') = this_pressTimer (inner s)).
Proof.
  intros H. cbv zeta. unfold handleStart in H.
  destruct (bool_decide_reflect (button e = Some 2%Z)) as [Hb|Hb]; simpl in H.
  { injection H as <-. split; [|done]. by intros n owner (Hnb & _). }
  destruct (shouldCancelStart (pressConfig s) e) eqn:Hc; simpl in H.
  { injection H as <-. split; [|done]. intros n owner (_ & Hc' & _). congruence. }
  apply bind_inv in H as (pos & Hpos & H).
  destruct (closest (target e :: ancestors e) (λ el, bool_decide (is_Some (sortable el))))
    as [[tag [[n owner]|] hd]|] eqn:Es; simpl in H.
  2,3: injection H as <-; split;
    [intros n' owner' (_ & _ & Hs & _); simpl in Hs; congruence|done].
  unfold nodeIsChild in H. simpl in H.
  destruct (bool_decide_reflect (owner = managerAddress s)) as [Ho|Ho]; simpl in H.
  2: { injection H as <-. split; [|done].
       intros n' owner' (_ & _ & Hs & Ho' & _). simpl in Hs. congruence. }
  destruct (state_sorting (inner s)) eqn:Esort; simpl in H.
  { injection H as <-. split; [|done]. by intros n' owner' (_ & _ & _ & _ & Hs' & _). }
  assert (Hok : (useDragHandle (pressConfig s)
                 && negb (bool_decide
                            (is_Some (closest (target e :: ancestors e) sortableHandle))))
                = false →
    active (this_manager (inner s'))
    = Some (Marker (Some (index (info (elements (inner s) n))))
              (collection (info (elements (inner s) n))))).
  { intros Hh. rewrite Hh in H.
    destruct (String.eqb _ "a"); simpl in H;
      (destruct (truthy (distance (this_props (inner s)))); simpl in H;
       [by injection H as <-|]);
      (destruct (Qeq_bool (pressDelay (this_props (inner s))) 0); simpl in H;
       [apply bind_inv in H as (pressed & Hp & H); injection H as <-;
        apply handlePress_keeps in Hp as (Hm & _); simpl; rewrite Hm; done
       |injection H as <-; unfold setPressTimer; simpl;
        by destruct (this_pressTimer (inner s))]). }
  destruct (useDragHandle (pressConfig s)) eqn:Eh; simpl in H, Hok.
  - destruct (bool_decide_reflect
                (is_Some (closest (target e :: ancestors e) sortableHandle))) as [Hh|Hh];
      simpl in H, Hok.
    + split.
      * intros n' owner' (_ & _ & Hs & _). simpl in Hs. injection Hs as <- <-. by apply Hok.
      * intros Hnone. destruct (Hnone n owner). simpl. by eauto 10.
    + injection H as <-. split; [|done].
      intros n' owner' (_ & _ & _ & _ & _ & Hh'). destruct Hh. by apply Hh'.
  - split.
    + intros n' owner' (_ & _ & Hs & _). simpl in Hs. injection Hs as <- <-. by apply Hok.
    + intros Hnone. destruct (Hnone n owner). simpl. split_and!; try done.
Qed.

Lemma handleEnd_outer s :
  replacedTimers (handleEnd s) = replacedTimers s
  ∧ cancelPending (handleEnd s) = cancelPending s
  ∧ this_pos (handleEnd s) = this_pos s
  ∧ prevented (handleEnd s) = prevented s.
Proof.
  unfold handleEnd. simpl.
  destruct (negb (truthy _)); simpl; [done|]. by destruct (negb (state_sorting _)).
Qed.

(** What the end of a press leaves of a container that does not sort. *)
Lemma cancel_touched b i :
  state_sorting i = false →
  set_this_touched false (cancel (set_this_touched b i)) = set_this_touched false (cancel i).
Proof. intros H. unfold cancel. simpl. rewrite H. by destruct i. Qed.

Lemma cancel_marked a i :
  state_sorting i = false →
  set_this_touched false (cancel (set_this_manager (set_active a (this_manager i)) i))
  = set_this_touched false (cancel i).
Proof. intros H. unfold cancel. simpl. rewrite H. by destruct i. Qed.

Lemma cancel_timed e i :
  state_sorting i = false →
  set_this_touched false (cancel (set_this_pressTimer e i)) = set_this_touched false (cancel i).
Proof. intros H. unfold cancel. simpl. rewrite H. by destruct i. Qed.

Lemma handleEnd_wipes s :
  state_sorting (inner s) = false →
  (truthy (distance (this_props (inner s))) = true → this_pressTimer (inner s) = None) →
  inner (handleEnd s) = set_this_touched false (cancel (inner s)).
Proof.
  intros Hsort Htimer. unfold handleEnd. simpl.
  destruct (truthy (distance (this_props (inner s)))) eqn:Ed; simpl.
  - rewrite Hsort. simpl. unfold cancel. rewrite Hsort. specialize (Htimer eq_refl).
    destruct (inner s). simpl in *. by subst.
  - unfold cancel. simpl. rewrite Hsort. by destruct (inner s).
Qed.

(** X12.  A press that is released before it becomes a drag leaves no trace.
    When the drag does not start with the press itself (a distance or a
    press delay is set), the container does not sort and no press timer
    is pending, then [handleStart] followed by [handleEnd] leaves the
    container as [cancel] leaves it, with [_touched] false: no active
    marker, no pending press timer, and the elements, the registered
    items, the session, the helper, the listeners and the calls as they
    were. *)
Theorem tap_leaves_idle e s s1 :
  state_sorting (inner s) = false →
  this_pressTimer (inner s) = None →
  truthy (distance (this_props (inner s))) = true
  ∨ Qeq_bool (pressDelay (this_props (inner s))) 0 = false →
  handleStart getActive ly e s = ok s1 →
  inner (handleEnd s1) = set_this_touched false (cancel (inner s))
  ∧ active (this_manager (inner (handleEnd s1))) = None
  ∧ this_pressTimer (inner (handleEnd s1)) = None
  ∧ state_sorting (inner (handleEnd s1)) = false
  ∧ replacedTimers (handleEnd s1) = replacedTimers s
  ∧ cancelPending (handleEnd s1) = cancelPending s.
Proof.
  intros Hsort Htimer Hmode H.
  destruct (handleEnd_outer s1) as (-> & -> & _).
  enough (Hgoal : inner (handleEnd s1) = set_this_touched false (cancel (inner s))
            ∧ replacedTimers s1 = replacedTimers s
            ∧ cancelPending s1 = cancelPending s).
  { destruct Hgoal as (Hi & Hr & Hc). rewrite Hi. unfold cancel. rewrite Hsort. done. }
  unfold handleStart in H.
  destruct (bool_decide (button e = Some 2%Z) || shouldCancelStart (pressConfig s) e).
  { injection H as <-. split_and!; [|done|done]. by apply handleEnd_wipes. }
  apply bind_inv in H as (pos & Hpos & H).
  assert (Hbase : ∀ s0 : press, inner s0 = set_this_touched true (inner s) →
            inner (handleEnd s0) = set_this_touched false (cancel (inner s))).
  { intros s0 Hs0. rewrite handleEnd_wipes; rewrite Hs0; try done.
    by apply cancel_touched. }
  destruct (closest (target e :: ancestors e) (λ el, bool_decide (is_Some (sortable el))))
    as [[tag [[n owner]|] hd]|]; simpl in H.
  2,3: injection H as <-; split_and!; [by apply Hbase|done|done].
  destruct (nodeIsChild _ owner && negb (state_sorting (inner s))); simpl in H;
    [|injection H as <-; split_and!; [by apply Hbase|done|done]].
  destruct (useDragHandle (pressConfig s) && _); simpl in H;
    [injection H as <-; split_and!; [by apply Hbase|done|done]|].
  set (marked := set_this_manager
                   (set_active (Some (Marker (Some (index (info (elements (inner s) n))))
                                        (collection (info (elements (inner s) n)))))
                      (this_manager (inner s)))
                   (set_this_touched true (inner s))) in H.
  assert (Hmarked : set_this_touched false (cancel marked)
                    = set_this_touched false (cancel (inner s))).
  { subst marked.
    change (this_manager (inner s)) with (this_manager (set_this_touched true (inner s))).
    rewrite cancel_marked by done. by apply cancel_touched. }
  destruct (String.eqb _ "a"); simpl in H;
    (destruct (truthy (distance (this_props (inner s)))) eqn:Ed; simpl in H;
     [injection H as <-; split_and!; [|done|done];
      rewrite handleEnd_wipes; simpl; done
     |]);
    (destruct Hmode as [Hmode|Hmode]; [done|]; rewrite Hmode in H;
     injection H as <-; unfold setPressTimer; simpl; rewrite Htimer; simpl;
     split_and!; [|done|done];
     rewrite handleEnd_wipes; simpl; rewrite ?Ed; try done;
     fold marked; rewrite cancel_timed by done; done).
Qed.

(** X13.  The cancel threshold of a pending press.  While the container is
    touched and does not sort, with no distance set, a move whose
    distance from the start, measured as [|dx| + |dy|], reaches
    [pressThreshold] (or any move when [pressThreshold] is zero) asks for
    the deferred cancel; when that runs, the press timer and the active
    marker are cleared, so that the press timer starts no drag.  A move
    that stays below the threshold only records [_delta]: the press
    timer stays pending. *)
Theorem threshold_cancels_press e s pos now :
  state_sorting (inner s) = false →
  this_touched (inner s) = true →
  truthy (distance (this_props (inner s))) = false →
  this_pos s = Some pos →
  changedOffset e = ok now →
  let delta := Point (x pos - x now) (y pos - y now) in
  let threshold := pressThreshold (pressConfig s) in
  ((threshold == 0 ∨ threshold <= travelled delta) →
     ∃ s',
       acts getActive isActive ly [moved e; cancelTimer; pressTimer] s = ok s'
       ∧ inner s' = cancel (inner s)
       ∧ this_pressTimer (inner s') = None
       ∧ active (this_manager (inner s')) = None
       ∧ state_sorting (inner s') = false
       ∧ cancelPending s' = false)
  ∧ (¬ threshold == 0 → travelled delta < threshold →
       handleMove getActive isActive ly e s = ok (set_this_delta (Some delta) s)).
Proof.
  intros Hsort Htouched Hdist Hpos Hnow delta threshold.
  assert (Hmove : handleMove getActive isActive ly e s
                  = if negb (truthy threshold)
                       || (truthy threshold && Qle_bool threshold (travelled delta))
                    then ok (set_cancelPending true (set_this_delta (Some delta) s))
                    else ok (set_this_delta (Some delta) s)).
  { unfold handleMove. rewrite Hsort, Htouched, Hpos, Hnow, Hdist. simpl.
    fold delta. fold threshold. by destruct (negb (truthy threshold) || _). }
  split.
  - intros Hfar.
    assert (Hcond : negb (truthy threshold)
                    || (truthy threshold && Qle_bool threshold (travelled delta)) = true).
    { destruct (truthy threshold) eqn:Et; [|done]. simpl.
      destruct Hfar as [Hz|Hle].
      - apply truthy_spec in Et. done.
      - by apply Qle_bool_iff. }
    exists (set_cancelPending false
              (set_inner (cancel (inner s)) (set_this_delta (Some delta) s))).
    split.
    + cbn [acts act]. rewrite Hmove, Hcond. cbn [Js.bind ok].
      unfold runCancelTimer. cbn [cancelPending set_cancelPending].
      cbn [Js.bind ok]. unfold runPressTimer. simpl.
      unfold cancel. rewrite Hsort. done.
    + unfold cancel. rewrite Hsort. done.
  - intros Hnz Hnear. rewrite Hmove.
    assert (Et : truthy threshold = true) by by apply truthy_spec.
    rewrite Et. simpl.
    destruct (Qle_bool threshold (travelled delta)) eqn:El; [|done].
    apply Qle_bool_iff in El. lra.
Qed.

(** X14.  The distance that starts a drag.  With a distance set, [handleStart]
    starts neither a drag nor a timer, whatever the event; and a move of
    a touched container that does not sort starts the press exactly when
    the pointer is at least the distance away from the start, measured as
    [|dx| + |dy|], and the manager has an active marker. *)
Theorem distance_starts_press e0 s0 s e pos now :
  truthy (distance (this_props (inner s0))) = true →
  handleStart getActive ly e0 s0 = ok s →
  (state_sorting (inner s) = state_sorting (inner s0)
   ∧ this_session (inner s) = this_session (inner s0)
   ∧ this_helper (inner s) = this_helper (inner s0)
   ∧ this_pressTimer (inner s) = this_pressTimer (inner s0)
   ∧ this_props (inner s) = this_props (inner s0))
  ∧ (state_sorting (inner s) = false → this_touched (inner s) = true →
     this_pos s = Some pos → changedOffset e = ok now →
     let delta := Point (x pos - x now) (y pos - y now) in
     let far := distance (this_props (inner s)) <= travelled delta in
     (far → isActive (this_manager (inner s)) = true →
        handleMove getActive isActive ly e s
        = let! pressed := handlePress getActive ly (native e) None (inner s) in
          ok (set_inner pressed (set_this_delta (Some delta) s)))
     ∧ (¬ far ∨ isActive (this_manager (inner s)) = false →
        handleMove getActive isActive ly e s = ok (set_this_delta (Some delta) s))).
Proof.
  intros Hdist H.
  assert (Hstart : state_sorting (inner s) = state_sorting (inner s0)
                   ∧ this_session (inner s) = this_session (inner s0)
                   ∧ this_helper (inner s) = this_helper (inner s0)
                   ∧ this_pressTimer (inner s) = this_pressTimer (inner s0)
                   ∧ this_props (inner s) = this_props (inner s0)).
  { unfold handleStart in H.
    destruct (bool_decide (button e0 = Some 2%Z) || shouldCancelStart (pressConfig s0) e0);
      [by injection H as <-|].
    apply bind_inv in H as (p & _ & H).
    destruct (closest (target e0 :: ancestors e0) (λ el, bool_decide (is_Some (sortable el))))
      as [[tag [[n owner]|] hd]|]; simpl in H.
    2,3: by injection H as <-.
    destruct (nodeIsChild _ owner && negb (state_sorting (inner s0))); simpl in H;
      [|by injection H as <-].
    destruct (useDragHandle (pressConfig s0) && _); simpl in H; [by injection H as <-|].
    rewrite Hdist in H. simpl in H.
    destruct (String.eqb _ "a"); simpl in H; by injection H as <-. }
  split; [done|].
  intros Hsort Htouched Hpos Hnow delta far.
  destruct Hstart as (_ & _ & _ & _ & Hp).
  unfold handleMove. rewrite Hsort, Htouched, Hpos, Hnow, Hp, Hdist. simpl.
  fold delta. subst far. rewrite Hp. split.
  - intros Hfar Hactive. apply Qle_bool_iff in Hfar. by rewrite Hfar, Hactive.
  - intros [Hnear|Hidle].
    + destruct (Qle_bool _ _) eqn:El; [|done]. apply Qle_bool_iff in El. done.
    + rewrite Hidle. by rewrite andb_false_r.
Qed.

End GestureFacts.

(** ** The end of a drag and the pause *)

Section EndFacts.
Import Js Utils Container Items Session Ending.
Local Open Scope Q_scope.

(** What the reset of an item writes into its element. *)
Lemma resetElement_at restyle d r n :
  resetElement restyle d r n
  = if decide (n = node r)
    then set_nodeStyle (restyle (nodeStyle (d n)))
           (set_info (set_translate (Some (Point 0 0)) (info (d n))) (d n))
    else d n.
Proof.
  unfold resetElement. destruct (decide (n = node r)) as [->|Hne].
  - by rewrite fn_lookup_insert.
  - by rewrite fn_lookup_insert_ne.
Qed.

Lemma foldl_reset restyle (Keep : element → element → Prop) (Post : element → Prop) :
  (∀ el, Keep el el) →
  (∀ el el', Keep el el' →
     Keep el (set_nodeStyle (restyle (nodeStyle el'))
                (set_info (set_translate (Some (Point 0 0)) (info el')) el'))) →
  (∀ el, Post (set_nodeStyle (restyle (nodeStyle el))
                 (set_info (set_translate (Some (Point 0 0)) (info el)) el))) →
  ∀ rs d n,
    Keep (d n) (foldl (resetElement restyle) d rs n)
    ∧ (n ∈ node <$> rs → Post (foldl (resetElement restyle) d rs n))
    ∧ (n ∉ node <$> rs → foldl (resetElement restyle) d rs n = d n).
Proof.
  intros Hrefl Hstep Hpost rs. induction rs as [|r rs IH] using rev_ind; intros d n.
  - simpl. split_and!; [done| |done]. intros Hin. by apply elem_of_nil in Hin.
  - rewrite foldl_app. cbn [foldl]. rewrite resetElement_at.
    destruct (IH d n) as (IH1 & IH2 & IH3).
    rewrite fmap_app. cbn [fmap list_fmap].
    destruct (decide (n = node r)) as [->|Hne].
    + split_and!.
      * by apply Hstep.
      * intros _. apply Hpost.
      * intros Hnot. destruct Hnot. apply elem_of_app. right. apply list_elem_of_here.
    + split_and!.
      * done.
      * intros Hin. apply elem_of_app in Hin as [Hin|Hin]; [by apply IH2|].
        apply list_elem_of_singleton in Hin. done.
      * intros Hnot. apply IH3. intros Hin. apply Hnot. apply elem_of_app. by left.
Qed.

(** [handleSortEnd] and [pauseSortMove] as the sequence of their blocks. *)
Lemma handleSortEnd_steps e s a :
  active (this_manager s) = Some a →
  handleSortEnd e s
  = let s2 := resetItems endStyle (activeCollection a)
                (removeHelper (hideSortableGhost (this_props s)) (removeListeners s)) in
    let s3 := set_state_sorting false
                (set_state_isOrigin false
                   (set_this_manager (set_active None (this_manager s2))
                      (set_this_autoscrollInterval None s2))) in
    ok (set_this_touched false
          (set_this_paused false
             (if onSortEnd (this_props s)
              then set_calls
                     (calls s3 ++ [sortEnd (Commit (this_index <$> this_session s3)
                                              (this_newIndex <$> this_session s3)
                                              (activeCollection a))]) s3
              else s3))).
Proof. intros Ha. unfold handleSortEnd. rewrite Ha. reflexivity. Qed.

Lemma pauseSortMove_steps s :
  pauseSortMove s
  = match this_paused s, active (this_manager s) with
    | false, Some a =>
        match refs (this_manager s) !! activeCollection a with
        | Some _ =>
            resetItems pauseStyle (activeCollection a)
              (set_this_paused true (stopAutoscroll s))
        | None => stopAutoscroll s
        end
    | _, _ => stopAutoscroll s
    end.
Proof.
  unfold pauseSortMove, resetItems, stopAutoscroll.
  destruct (this_autoscrollInterval s); simpl;
    destruct (this_paused s); simpl; try done;
    destruct (active (this_manager s)) as [a|]; simpl; try done;
    destruct (refs (this_manager s) !! activeCollection a); done.
Qed.

(** What the blocks keep and change. *)
Lemma removeListeners_spec s :
  let s' := removeListeners s in
  this_manager s' = this_manager s ∧ elements s' = elements s
  ∧ this_helper s' = this_helper s ∧ this_props s' = this_props s
  ∧ this_sortableGhost s' = this_sortableGhost s
  ∧ this_session s' = this_session s ∧ calls s' = calls s
  ∧ this_translate s' = this_translate s
  ∧ (∀ l, this_listenerNode s = Some l → l ∉ listeners s')
  ∧ (∀ l, l ∈ listeners s' → l ∈ listeners s).
Proof.
  unfold removeListeners. destruct (this_listenerNode s) as [l|]; simpl; split_and!; try done.
  - intros l' [= ->] Hin. apply list_elem_of_filter in Hin as [Hne _]. done.
  - intros l' Hin. by apply list_elem_of_filter in Hin as [_ ?].
Qed.

Lemma removeHelper_spec hide s :
  let s' := removeHelper hide s in
  this_manager s' = this_manager s ∧ this_props s' = this_props s
  ∧ this_helper s' = None ∧ listeners s' = listeners s
  ∧ this_session s' = this_session s ∧ calls s' = calls s
  ∧ this_translate s' = this_translate s
  ∧ (∀ n, box (elements s' n) = box (elements s n))
  ∧ (∀ n, (this_helper s ≠ None ∧ hide = true ∧ this_sortableGhost s = Some n
           ∧ elements s' n
             = set_nodeStyle (set_visibility visibilityEmpty opacityEmpty
                                (nodeStyle (elements s n))) (elements s n))
          ∨ elements s' n = elements s n)
  ∧ (∀ g, this_helper s ≠ None → hide = true → this_sortableGhost s = Some g →
       styleVisibility (nodeStyle (elements s' g)) = visibilityEmpty
       ∧ styleOpacity (nodeStyle (elements s' g)) = opacityEmpty
       ∧ this_sortableGhost s' = None).
Proof.
  unfold removeHelper. destruct (this_helper s) as [h|] eqn:Eh.
  - destruct hide; [destruct (this_sortableGhost s) as [g|] eqn:Eg|]; simpl;
      split_and!; try done.
    + intros n. destruct (decide (n = g)) as [->|Hne].
      * by rewrite fn_lookup_insert.
      * by rewrite fn_lookup_insert_ne.
    + intros n. destruct (decide (n = g)) as [->|Hne].
      * left. rewrite fn_lookup_insert. done.
      * right. by rewrite fn_lookup_insert_ne.
    + intros g' _ _ [= <-]. by rewrite fn_lookup_insert.
    + intros n. by right.
    + intros n. by right.
  - simpl. split_and!; try done. intros n. by right.
Qed.

Lemma resetItems_spec restyle collection s (Post : element → Prop) :
  (∀ el, Post (set_nodeStyle (restyle (nodeStyle el))
                 (set_info (set_translate (Some (Point 0 0)) (info el)) el))) →
  (∀ st, styleVisibility (restyle st) = styleVisibility st
         ∧ styleOpacity (restyle st) = styleOpacity st) →
  let s' := resetItems restyle collection s in
  let registered := default [] (refs (this_manager s) !! collection) in
  active (this_manager s') = active (this_manager s)
  ∧ this_props s' = this_props s ∧ this_helper s' = this_helper s
  ∧ listeners s' = listeners s ∧ this_session s' = this_session s
  ∧ calls s' = calls s ∧ this_sortableGhost s' = this_sortableGhost s
  ∧ this_translate s' = this_translate s
  ∧ this_autoscrollInterval s' = this_autoscrollInterval s
  ∧ this_paused s' = this_paused s
  ∧ (∀ rs, refs (this_manager s) !! collection = Some rs →
       refs (this_manager s') !! collection = Some (resetRef <$> rs))
  ∧ (∀ c, c ≠ collection → refs (this_manager s') !! c = refs (this_manager s) !! c)
  ∧ (∀ n, n ∈ node <$> registered → Post (elements s' n))
  ∧ (∀ n, n ∉ node <$> registered → elements s' n = elements s n)
  ∧ (∀ n, box (elements s' n) = box (elements s n)
          ∧ styleVisibility (nodeStyle (elements s' n))
            = styleVisibility (nodeStyle (elements s n))
          ∧ styleOpacity (nodeStyle (elements s' n))
            = styleOpacity (nodeStyle (elements s n))).
Proof.
  intros Hpost Hvis s' registered. subst s' registered. unfold resetItems.
  pose proof (foldl_reset restyle
              (λ el el', box el' = box el
                         ∧ styleVisibility (nodeStyle el') = styleVisibility (nodeStyle el)
                         ∧ styleOpacity (nodeStyle el') = styleOpacity (nodeStyle el))
              Post) as Hreset.
  assert (Hreset' := Hreset (λ el, conj eq_refl (conj eq_refl eq_refl))).
  clear Hreset. rename Hreset' into Hreset.
  specialize (Hreset ltac:(intros el el' (Hb & Hv & Ho);
                           destruct (Hvis (nodeStyle el')) as [Hv' Ho'];
                           unfold box in *; simpl in *;
                           split_and!; congruence) Hpost).
  destruct (refs (this_manager s) !! collection) as [rs|] eqn:Ers; cbn [default].
  - simpl. split_and!; try done.
    + intros rs' [= <-]. by rewrite lookup_insert_eq.
    + intros c Hc. by rewrite lookup_insert_ne.
    + intros n Hin. by apply (Hreset rs (elements s) n).
    + intros n Hnot. by apply (Hreset rs (elements s) n).
    + intros n. by apply (Hreset rs (elements s) n).
  - split_and!; try done. intros n Hin. by apply elem_of_nil in Hin.
Qed.

(** X17.  What [handleSortEnd] leaves of a drag.  It returns exactly when the
    manager has an active marker.  After it the container does not sort,
    no marker is active, no autoscroll interval runs, the helper is gone,
    and the listeners of the drag are removed.  Every registered item of
    the active collection has lost its cached offset, and its element has
    the translate zero, the transform [''] and the transition duration
    [''], with its index, offsets and size as before; the elements of
    no other item change, but for the hidden element, which is visible
    again.  [onSortEnd], when given, is called once, with the index and
    the new index of the session.  The session itself is kept. *)
Theorem handleSortEnd_cleans e s :
  (is_Some (active (this_manager s)) ↔ ∃ s', handleSortEnd e s = ok s')
  ∧ ∀ s' a, handleSortEnd e s = ok s' → active (this_manager s) = Some a →
      let registered := default [] (refs (this_manager s) !! activeCollection a) in
      active (this_manager s') = None
      ∧ state_sorting s' = false ∧ state_isOrigin s' = false
      ∧ this_autoscrollInterval s' = None
      ∧ this_helper s' = None
      ∧ this_paused s' = false ∧ this_touched s' = false
      ∧ this_session s' = this_session s
      ∧ (∀ l, this_listenerNode s = Some l → l ∉ listeners s')
      ∧ (∀ l, l ∈ listeners s' → l ∈ listeners s)
      ∧ (∀ rs, refs (this_manager s) !! activeCollection a = Some rs →
           refs (this_manager s') !! activeCollection a = Some (resetRef <$> rs))
      ∧ (∀ c, c ≠ activeCollection a →
           refs (this_manager s') !! c = refs (this_manager s) !! c)
      ∧ (∀ n, n ∈ node <$> registered →
           translate (info (elements s' n)) = Some (Point 0 0)
           ∧ Transform (nodeStyle (elements s' n)) = transformEmpty
           ∧ TransitionDuration (nodeStyle (elements s' n)) = durationEmpty)
      ∧ (∀ n, box (elements s' n) = box (elements s n))
      ∧ (∀ n, n ∉ node <$> registered →
           (this_helper s ≠ None ∧ hideSortableGhost (this_props s) = true
            ∧ this_sortableGhost s = Some n
            ∧ elements s' n
              = set_nodeStyle (set_visibility visibilityEmpty opacityEmpty
                                 (nodeStyle (elements s n))) (elements s n))
           ∨ elements s' n = elements s n)
      ∧ (∀ g, this_helper s ≠ None → hideSortableGhost (this_props s) = true →
           this_sortableGhost s = Some g →
           styleVisibility (nodeStyle (elements s' g)) = visibilityEmpty
           ∧ styleOpacity (nodeStyle (elements s' g)) = opacityEmpty
           ∧ this_sortableGhost s' = None)
      ∧ calls s'
        = (if onSortEnd (this_props s)
           then calls s ++ [sortEnd (Commit (this_index <$> this_session s)
                                       (this_newIndex <$> this_session s)
                                       (activeCollection a))]
           else calls s).
Proof.
  split.
  { split.
    - intros [a Ha]. rewrite (handleSortEnd_steps e s a Ha). by eexists.
    - intros [s' H]. unfold handleSortEnd in H.
      destruct (active (this_manager s)); [by eexists|done]. }
  intros s' a H Ha registered. rewrite (handleSortEnd_steps e s a Ha) in H.
  cbv zeta in H. injection H as <-.
  destruct (removeListeners_spec s) as (M1 & E1 & Hh1 & P1 & G1 & S1 & C1 & _ & L1 & L1').
  cbv zeta in *. set (s1 := removeListeners s) in *.
  destruct (removeHelper_spec (hideSortableGhost (this_props s)) s1)
    as (M2 & P2 & Hh2 & L2 & S2 & C2 & _ & B2 & E2 & G2).
  cbv zeta in *. set (s2 := removeHelper (hideSortableGhost (this_props s)) s1) in *.
  destruct (resetItems_spec endStyle (activeCollection a) s2
              (λ el, translate (info el) = Some (Point 0 0)
                     ∧ Transform (nodeStyle el) = transformEmpty
                     ∧ TransitionDuration (nodeStyle el) = durationEmpty))
    as (A3 & P3 & Hh3 & L3 & S3 & C3 & G3 & _ & _ & _ & R3 & R3' & In3 & Out3 & B3);
    [done|done|].
  cbv zeta in *. set (s3 := resetItems endStyle (activeCollection a) s2) in *.
  rewrite M2, M1 in R3, R3', In3, Out3. fold registered in In3, Out3.
  destruct (onSortEnd (this_props s)) eqn:Eend; simpl; split_and!; try done;
    try congruence;
    try (intros l Hl; rewrite L3, L2; by apply L1);
    try (intros l; rewrite L3, L2; by apply L1');
    try (intros n; destruct (B3 n) as (Hb & _ & _); by rewrite Hb, (B2 n), E1);
    try (intros n Hnot; rewrite (Out3 n Hnot); destruct (E2 n) as [(? & ? & ? & ?)|?];
         [left; rewrite <- Hh1, <- G1, <- E1; done|right; congruence]);
    try (intros g Hh Hhide Hg; rewrite <- Hh1 in Hh; rewrite <- G1 in Hg;
         destruct (G2 g Hh Hhide Hg) as (Hv & Ho & Hgh);
         destruct (B3 g) as (_ & -> & ->); split_and!; congruence).
Qed.

Lemma resetItems_elements restyle collection s rs :
  refs (this_manager s) !! collection = Some rs →
  elements (resetItems restyle collection s) = foldl (resetElement restyle) (elements s) rs.
Proof. intros H. unfold resetItems. by rewrite H. Qed.

Lemma stopAutoscroll_spec s :
  let s' := stopAutoscroll s in
  this_autoscrollInterval s' = None
  ∧ this_manager s' = this_manager s ∧ elements s' = elements s
  ∧ this_paused s' = this_paused s ∧ this_session s' = this_session s
  ∧ this_translate s' = this_translate s ∧ this_helper s' = this_helper s
  ∧ listeners s' = listeners s ∧ calls s' = calls s ∧ this_props s' = this_props s
  ∧ this_sortableGhost s' = this_sortableGhost s
  ∧ stopAutoscroll s' = s'.
Proof.
  unfold stopAutoscroll. destruct (this_autoscrollInterval s) eqn:E; simpl; rewrite ?E; done.
Qed.

(** X18.  What [pauseSortMove] does.  It stops the autoscroll.  When the
    container is not paused yet and the active collection has items, it
    marks the container paused, drops the cached offset of every item of
    the collection and gives its element the translate zero and the
    transform [translate3d(0,0,0)], leaving the transition duration, the
    index, the offsets and the size; no other element changes.  Else it
    changes neither items nor elements.  In both cases the session, the
    translate of the helper, the helper, the listeners, the active marker
    and the calls are kept, and pausing again changes nothing. *)
Theorem pauseSortMove_resets s :
  let s' := pauseSortMove s in
  pauseSortMove s' = s'
  ∧ this_autoscrollInterval s' = None
  ∧ (this_session s' = this_session s ∧ this_translate s' = this_translate s
     ∧ this_helper s' = this_helper s ∧ listeners s' = listeners s
     ∧ active (this_manager s') = active (this_manager s) ∧ calls s' = calls s)
  ∧ (∀ a rs, this_paused s = false → active (this_manager s) = Some a →
       refs (this_manager s) !! activeCollection a = Some rs →
       this_paused s' = true
       ∧ refs (this_manager s') !! activeCollection a = Some (resetRef <$> rs)
       ∧ (∀ c, c ≠ activeCollection a →
            refs (this_manager s') !! c = refs (this_manager s) !! c)
       ∧ (∀ n, n ∈ node <$> rs →
            translate (info (elements s' n)) = Some (Point 0 0)
            ∧ Transform (nodeStyle (elements s' n)) = translate3dZero)
       ∧ (∀ n, n ∉ node <$> rs → elements s' n = elements s n)
       ∧ (∀ n, box (elements s' n) = box (elements s n)
               ∧ TransitionDuration (nodeStyle (elements s' n))
                 = TransitionDuration (nodeStyle (elements s n))))
  ∧ (this_paused s = true ∨ active (this_manager s) = None
     ∨ (∃ a, active (this_manager s) = Some a
             ∧ refs (this_manager s) !! activeCollection a = None) →
       elements s' = elements s ∧ this_manager s' = this_manager s
       ∧ this_paused s' = this_paused s).
Proof.
  cbv zeta. rewrite !pauseSortMove_steps.
  destruct (stopAutoscroll_spec s)
    as (I0 & M0 & E0 & P0 & S0 & T0 & H0 & L0 & C0 & Pr0 & G0 & Idem0).
  cbv zeta in *.
  destruct (this_paused s) eqn:Ep.
  { rewrite P0, Idem0. split_and!; try done; congruence. }
  destruct (active (this_manager s)) as [a|] eqn:Ea.
  2: { rewrite P0, M0, Ea, Idem0. split_and!; try done; try congruence;
         by rewrite Ea. }
  destruct (refs (this_manager s) !! activeCollection a) as [rs|] eqn:Er.
  2: { rewrite P0, M0, Ea, Er, Idem0. split_and!; try done; try congruence;
         try (by rewrite Ea); intros a' rs _ [= <-]; congruence. }
  set (s0 := set_this_paused true (stopAutoscroll s)).
  destruct (resetItems_spec pauseStyle (activeCollection a) s0
              (λ el, translate (info el) = Some (Point 0 0)
                     ∧ Transform (nodeStyle el) = translate3dZero))
    as (A3 & P3 & Hh3 & L3 & S3 & C3 & G3 & T3 & I3 & Pa3 & R3 & R3' & In3 & Out3 & B3);
    [done|done|].
  cbv zeta in *. set (s3 := resetItems pauseStyle (activeCollection a) s0) in *.
  assert (Hs0 : this_manager s0 = this_manager s ∧ elements s0 = elements s).
  { subst s0. simpl. done. }
  destruct Hs0 as [M0' E0']. rewrite M0', Er in R3, In3, Out3. cbn [default] in In3, Out3.
  rewrite M0' in R3', A3.
  split; [|split; [|split; [|split]]].
  - rewrite Pa3. subst s0. simpl. unfold stopAutoscroll at 1. rewrite I3. simpl.
    by rewrite I0.
  - rewrite I3. subst s0. simpl. done.
  - split_and!; [rewrite S3|rewrite T3|rewrite Hh3|rewrite L3|rewrite A3|rewrite C3];
      subst s0; simpl; congruence.
  - intros a' rs' _ [= <-] Hrs'. rewrite Er in Hrs'. injection Hrs' as <-. split_and!.
    + rewrite Pa3. by subst s0.
    + by apply R3.
    + done.
    + done.
    + intros n Hn. rewrite (Out3 n Hn). by rewrite E0'.
    + intros n. destruct (B3 n) as (Hb & _ & _). rewrite Hb, E0'. split; [done|].
      subst s3. rewrite (resetItems_elements _ _ _ rs) by by rewrite M0'.
      rewrite E0'.
      by destruct (foldl_reset pauseStyle
                     (λ el el', TransitionDuration (nodeStyle el')
                                = TransitionDuration (nodeStyle el))
                     (λ _, True) ltac:(done) ltac:(done) ltac:(done) rs (elements s) n).
  - intros [?|[?|(a' & Ha' & Hr')]]; [done|done|]. congruence.
Qed.

End EndFacts.

(** ** Lock offsets *)

Section LockFacts.
Import Js Utils Container Items Session LockText.
Local Open Scope Q_scope.

#[local] Arguments digitChar : simpl never.

Lemma isDigit_digitChar d : isDecimal d → isDigit (digitChar d) = true.
Proof.
  intros [H0 H9]. unfold isDigit, digitChar.
  rewrite nat_ascii_embedding by lia.
  apply andb_true_iff. split; apply Nat.leb_le; lia.
Qed.

Lemma digit_of_char d : isDecimal d → Z.of_nat (nat_of_ascii (digitChar d) - 48) = d.
Proof.
  intros [H0 H9]. unfold digitChar. rewrite nat_ascii_embedding by lia. lia.
Qed.

(** The digits read from a text that starts with digits, up to a rest
    that does not start with one. *)
Lemma append_String c (s r : string) : (String c s ++ r)%string = String c (s ++ r)%string.
Proof. reflexivity. Qed.

Lemma digits_cons c s :
  digits (String c s)
  = if isDigit c
    then let '(ds, r) := digits s in (Z.of_nat (nat_of_ascii c - 48) :: ds, r)
    else ([], String c s).
Proof. reflexivity. Qed.

Lemma digits_rest (s : string) : startsWithDigit s = false → digits s = ([], s).
Proof.
  destruct s as [|c s]; [done|]. rewrite digits_cons. cbn [startsWithDigit]. by intros ->.
Qed.

Lemma digits_text ds rest :
  Forall isDecimal ds → startsWithDigit rest = false →
  digits (digitsText ds ++ rest)%string = (ds, rest).
Proof.
  intros Hds Hrest. induction Hds as [|d ds Hd Hds IH]; cbn [digitsText].
  - by apply digits_rest.
  - rewrite append_String, digits_cons, isDigit_digitChar by done.
    rewrite IH. by rewrite digit_of_char.
Qed.

Lemma digits_inv s ds rest :
  digits s = (ds, rest) →
  s = (digitsText ds ++ rest)%string ∧ Forall isDecimal ds ∧ startsWithDigit rest = false.
Proof.
  revert ds rest. induction s as [|c s IH]; intros ds rest H.
  - by injection H as <- <-.
  - rewrite digits_cons in H. destruct (isDigit c) eqn:Ec.
    + destruct (digits s) as [ds' r'] eqn:Ed. injection H as <- <-.
      destruct (IH ds' r' eq_refl) as (-> & Hds & Hr).
      unfold isDigit in Ec. apply andb_true_iff in Ec as [H1 H2].
      apply Nat.leb_le in H1, H2.
      assert (Hdec : isDecimal (Z.of_nat (nat_of_ascii c - 48))) by (unfold isDecimal; lia).
      split_and!; [|by constructor|done].
      cbn [digitsText]. rewrite append_String. f_equal. unfold digitChar.
      replace (48 + Z.to_nat (Z.of_nat (nat_of_ascii c - 48)))%nat with (nat_of_ascii c) by lia.
      by rewrite ascii_nat_embedding.
    + injection H as <- <-. cbn [digitsText startsWithDigit]. by rewrite Ec.
Qed.

Lemma exec_body (neg : bool) ints fraction u :
  Forall isDecimal ints → Forall isDecimal (default [] fraction) →
  (let '(ints0, s2) := digits (digitsText ints ++ fractionOf fraction ++ unitOf u) in
   let '(fracs, s3) :=
     match s2 with
     | String "." r => digits r
     | _ => ([], s2)
     end in
   if String.eqb s3 "px" then Some (LockMatch neg ints0 fracs px)
   else if String.eqb s3 "%" then Some (LockMatch neg ints0 fracs percent)
   else None)
  = Some (LockMatch neg ints (default [] fraction) u).
Proof.
  intros Hints Hfracs.
  rewrite digits_text; [|done|by destruct fraction, u].
  destruct fraction as [fracs|]; cbn [fractionOf default] in *.
  - rewrite append_String. cbv beta iota.
    rewrite digits_text; [|done|by destruct u]. by destruct u.
  - by destruct u.
Qed.

Lemma exec_text sg ints fraction u :
  Forall isDecimal ints → Forall isDecimal (default [] fraction) →
  execLockOffset (lockText sg ints fraction u)
  = Some (LockMatch (match sg with minusSign => true | _ => false end)
            ints (default [] fraction) u).
Proof.
  intros Hints Hfracs. unfold lockText, execLockOffset.
  destruct sg; cbn [signOf].
  - (* no sign: the text starts with a digit, the point or the unit *)
    change ("" ++ ?s)%string with s.
    pose proof (exec_body false ints fraction u Hints Hfracs) as Hbody.
    destruct (digitsText ints ++ fractionOf fraction ++ unitOf u)%string
      as [|c rest] eqn:Etext; [done|].
    assert (Hc : c ≠ "+"%char ∧ c ≠ "-"%char).
    { destruct ints as [|d ints'].
      - cbn [digitsText] in Etext. change ("" ++ ?s)%string with s in Etext.
        destruct fraction; [injection Etext as <- _; done|].
        destruct u; injection Etext as <- _; done.
      - cbn [digitsText] in Etext. rewrite append_String in Etext. injection Etext as <- _.
        apply Forall_cons in Hints as [[H0 H9] _]. unfold digitChar.
        split; intros Heq; apply (f_equal nat_of_ascii) in Heq;
          rewrite nat_ascii_embedding in Heq by lia; vm_compute in Heq.
        + assert (Z.to_nat d = 43 - 48)%nat by lia. lia.
        + lia. }
    destruct Hc as [Hplus Hminus].
    assert (Hsame : (match String c rest with
                     | String "+"%char r => (false, r)
                     | String "-"%char r => (true, r)
                     | _ => (false, String c rest)
                     end) = (false, String c rest)).
    { destruct c as [[] [] [] [] [] [] [] []]; try reflexivity; by destruct Hplus || by destruct Hminus. }
    rewrite Hsame. exact Hbody.
  - rewrite append_String. change ("" ++ ?s)%string with s. cbv beta iota.
    by apply exec_body.
  - rewrite append_String. change ("" ++ ?s)%string with s. cbv beta iota.
    by apply exec_body.
Qed.

(** What the pattern accepts is such a text. *)
Lemma sign_inv (s : string) neg s1 :
  (match s with
   | String "+" r => (false, r)
   | String "-" r => (true, r)
   | _ => (false, s)
   end) = (neg, s1) →
  ∃ sg, s = (signOf sg ++ s1)%string ∧ neg = match sg with minusSign => true | _ => false end.
Proof.
  destruct s as [|c r].
  - intros [= <- <-]. by exists noSign.
  - destruct c as [[] [] [] [] [] [] [] []]; intros [= <- <-];
      first [by exists plusSign|by exists minusSign|by exists noSign].
Qed.

Lemma fraction_inv (s2 : string) fracs s3 :
  startsWithDigit s2 = false →
  (match s2 with
   | String "." r => digits r
   | _ => ([], s2)
   end) = (fracs, s3) →
  ∃ fraction, s2 = (fractionOf fraction ++ s3)%string ∧ default [] fraction = fracs
              ∧ Forall isDecimal fracs.
Proof.
  intros Hstart. destruct s2 as [|c r].
  - intros [= <- <-]. by exists None.
  - destruct c as [[] [] [] [] [] [] [] []];
      try (intros [= <- <-]; by exists None).
    intros H. apply digits_inv in H as (-> & Hds & _). by exists (Some fracs).
Qed.

Lemma exec_inv str m :
  execLockOffset str = Some m →
  ∃ sg fraction,
    str = lockText sg (intDigits m) fraction (matchUnit m)
    ∧ default [] fraction = fracDigits m
    ∧ Forall isDecimal (intDigits m) ∧ Forall isDecimal (fracDigits m)
    ∧ negative m = match sg with minusSign => true | _ => false end.
Proof.
  unfold execLockOffset. intros H.
  destruct (match str with
            | String "+" r => (false, r)
            | String "-" r => (true, r)
            | _ => (false, str)
            end) as [neg s1] eqn:Esign.
  apply sign_inv in Esign as (sg & -> & ->).
  destruct (digits s1) as [ints s2] eqn:Eints.
  apply digits_inv in Eints as (-> & Hints & Hs2).
  destruct (match s2 with
            | String "." r => digits r
            | _ => ([], s2)
            end) as [fracs s3] eqn:Efrac.
  apply fraction_inv in Efrac as (fraction & -> & Hdef & Hfracs); [|done].
  exists sg, fraction. unfold lockText.
  destruct (String.eqb_spec s3 "px") as [->|_].
  { injection H as <-. simpl. by rewrite Hdef. }
  destruct (String.eqb_spec s3 "%") as [->|_]; [|done].
  injection H as <-. simpl. by rewrite Hdef.
Qed.


End LockFacts.

(** ** Locking to the edges of the container *)

Section EdgeLockFacts.
Import Js Utils Container Items Session LockText.
Local Open Scope Q_scope.

(** [updatePosition] with its steps named: the offset of the event, the
    session, the translate before and after the edge lock. *)
Lemma updatePosition_locked e s ss pos minL maxL :
  this_session s = Some ss →
  getOffset e = ok pos →
  lockToContainerEdges (this_props s) = true →
  getLockPixelOffsets (this_props s) ss = ok (minL, maxL) →
  let rawX := x pos - x (this_initialOffset ss)
              - (pageXOffset (window s) - left (this_initialWindowScroll ss)) in
  let rawY := y pos - y (this_initialOffset ss)
              - (pageYOffset (window s) - top (this_initialWindowScroll ss)) in
  let tx := limit ((λ m, m + (this_width ss / 2 - x minL)) <$> boundX (this_minTranslate ss))
              ((λ m, m - (this_width ss / 2 - x maxL)) <$> boundX (this_maxTranslate ss)) rawX in
  let ty := limit ((λ m, m + (this_height ss / 2 - y minL)) <$> boundY (this_minTranslate ss))
              ((λ m, m - (this_height ss / 2 - y maxL)) <$> boundY (this_maxTranslate ss)) rawY in
  ∃ s' tr,
    updatePosition e s = ok s' ∧ this_translate s' = Some tr
    ∧ (lockAxis (this_props s) ≠ Some "y"%string → x tr = tx)
    ∧ (lockAxis (this_props s) ≠ Some "x"%string → y tr = ty).
Proof.
  intros Hs Hpos Hlock Hoffsets. cbv zeta. unfold updatePosition.
  rewrite Hpos. cbn [Js.bind ok deref]. rewrite Hs. cbn [Js.bind ok deref].
  rewrite Hlock, Hoffsets. cbn [Js.bind ok deref].
  destruct (lockAxis (this_props s)) as [ax|] eqn:Eax.
  - destruct (String.eqb_spec ax "x") as [->|Hx].
    + eexists _, _. split; [reflexivity|]. split; [cbn [this_helper set_this_translate]; by destruct (this_helper s)|].
      split; [done|]. intros Hne. done.
    + destruct (String.eqb_spec ax "y") as [->|Hy].
      * eexists _, _. split; [reflexivity|]. split; [cbn [this_helper set_this_translate]; by destruct (this_helper s)|].
        split; [intros Hne; done|done].
      * eexists _, _. split; [reflexivity|]. split; [cbn [this_helper set_this_translate]; by destruct (this_helper s)|]. done.
  - eexists _, _. split; [reflexivity|]. split; [cbn [this_helper set_this_translate]; by destruct (this_helper s)|]. done.
Qed.

(** X20.  With [lockToContainerEdges], the translate that [updatePosition]
    computes stays, on each axis that has bounds and is not locked to
    zero, between the lower bound plus and the upper bound minus half
    the extent of the dragged element less the lock offset, when that
    range is not empty; inside the range the translate is that of the
    pointer. *)
Theorem updatePosition_within e s ss pos minL maxL :
  this_session s = Some ss →
  getOffset e = ok pos →
  lockToContainerEdges (this_props s) = true →
  getLockPixelOffsets (this_props s) ss = ok (minL, maxL) →
  ∃ s' tr,
    updatePosition e s = ok s' ∧ this_translate s' = Some tr
    ∧ (∀ lowest highest,
         boundX (this_minTranslate ss) = Some lowest →
         boundX (this_maxTranslate ss) = Some highest →
         lockAxis (this_props s) ≠ Some "y"%string →
         let lo := lowest + (this_width ss / 2 - x minL) in
         let hi := highest - (this_width ss / 2 - x maxL) in
         let raw := x pos - x (this_initialOffset ss)
                    - (pageXOffset (window s) - left (this_initialWindowScroll ss)) in
         lo <= hi →
         lo <= x tr ∧ x tr <= hi ∧ (lo <= raw → raw <= hi → x tr = raw))
    ∧ (∀ lowest highest,
         boundY (this_minTranslate ss) = Some lowest →
         boundY (this_maxTranslate ss) = Some highest →
         lockAxis (this_props s) ≠ Some "x"%string →
         let lo := lowest + (this_height ss / 2 - y minL) in
         let hi := highest - (this_height ss / 2 - y maxL) in
         let raw := y pos - y (this_initialOffset ss)
                    - (pageYOffset (window s) - top (this_initialWindowScroll ss)) in
         lo <= hi →
         lo <= y tr ∧ y tr <= hi ∧ (lo <= raw → raw <= hi → y tr = raw)).
Proof.
  intros Hs Hpos Hlock Hoffsets.
  destruct (updatePosition_locked e s ss pos minL maxL Hs Hpos Hlock Hoffsets)
    as (s' & tr & Hrun & Htr & Hx & Hy).
  exists s', tr. split; [done|]. split; [done|]. split_and!.
  - intros lowest highest Hlow Hhigh Hax lo hi raw Hrange.
    rewrite (Hx Hax), Hlow, Hhigh. cbn [fmap option_fmap option_map].
    destruct (limit_between lo hi raw Hrange) as (H1 & H2 & H3). done.
  - intros lowest highest Hlow Hhigh Hax lo hi raw Hrange.
    rewrite (Hy Hax), Hlow, Hhigh. cbn [fmap option_fmap option_map].
    destruct (limit_between lo hi raw Hrange) as (H1 & H2 & H3). done.
Qed.

(** X21.  A lock offset is examined only when the position is updated with
    [lockToContainerEdges]: the constructor takes any lock offset, and
    without [lockToContainerEdges] no update fails an [invariant].  With
    it, an update of a started drag fails the [invariant] on the shape
    of the prop when the offset is an array that has not exactly two
    values, the [invariant] on the text when the offset is a text that
    the pattern rejects, and the [invariant] on finiteness when the
    offset is a number that is not finite; for a finite number it
    returns. *)
Theorem lockOffset_checked_on_update e s ss pos :
  this_session s = Some ss →
  getOffset e = ok pos →
  (∀ p d w s0, constructor p d w = ok s0 → lockOffset (this_props s0) = lockOffset p)
  ∧ (lockToContainerEdges (this_props s) = false → ∃ s', updatePosition e s = ok s')
  ∧ (lockToContainerEdges (this_props s) = true →
       (∀ vs, lockOffset (this_props s) = lockArray vs → length vs ≠ 2%nat →
          updatePosition e s = throw (Invariant lockArrayMessage))
       ∧ (∀ str, lockOffset (this_props s) = lockSingle (lockString str) →
            execLockOffset str = None →
            updatePosition e s = throw (Invariant lockStringMessage))
       ∧ (∀ q, lockOffset (this_props s) = lockSingle (lockNumber (Some q)) →
            ∃ s', updatePosition e s = ok s')
       ∧ (lockOffset (this_props s) = lockSingle (lockNumber None) →
            updatePosition e s = throw (Invariant lockFiniteMessage))).
Proof.
  intros Hs Hpos. split_and!.
  - intros p d w s0 H. unfold constructor in H.
    destruct (invariant _ _); [done|]. by injection H as <-.
  - intros Hlock. unfold updatePosition.
    rewrite Hpos. cbn [Js.bind ok deref]. rewrite Hs. cbn [Js.bind ok deref].
    rewrite Hlock. by eexists.
  - intros Hlock. split_and!.
    + intros vs Hvs Hlen. unfold updatePosition, getLockPixelOffsets.
      rewrite Hpos. cbn [Js.bind ok deref]. rewrite Hs. cbn [Js.bind ok deref].
      rewrite Hlock, Hvs.
      destruct vs as [|a [|b [|c vs]]]; simpl in Hlen; try done.
    + intros str Hstr Hnone. unfold updatePosition, getLockPixelOffsets, getLockPixelOffset.
      rewrite Hpos. cbn [Js.bind ok deref]. rewrite Hs. cbn [Js.bind ok deref].
      rewrite Hlock, Hstr, Hnone. reflexivity.
    + intros q Hq. unfold updatePosition, getLockPixelOffsets.
      rewrite Hpos. cbn [Js.bind ok deref]. rewrite Hs. cbn [Js.bind ok deref].
      rewrite Hlock, Hq. by eexists.
    + intros Hq. unfold updatePosition, getLockPixelOffsets.
      rewrite Hpos. cbn [Js.bind ok deref]. rewrite Hs. cbn [Js.bind ok deref].
      rewrite Hlock, Hq. reflexivity.
Qed.

End EdgeLockFacts.

(** ** What a reflow changes *)

Section ReflowFacts.
Import Js Utils Container Items Session.
Local Open Scope Q_scope.

Lemma box_insert (d : dom) k v n :
  box v = box (d k) → box (<[k := v]> d n) = box (d n).
Proof.
  intros Hv. destruct (decide (n = k)) as [->|Hne].
  - by rewrite fn_lookup_insert.
  - by rewrite fn_lookup_insert_ne.
Qed.

Lemma animateNode_box c i f f' :
  animateNode c i f = ok f' → ∀ n, box (els f' n) = box (els f n).
Proof.
  unfold animateNode. intros H n.
  apply bind_inv in H as (r & _ & H). rewrite cache_ref in H. cbn [node] in H.
  destruct (strictEq _ _).
  - destruct (hideSortableGhost (config c)); injection H as <-; [|done].
    cbn [els]. by apply box_insert.
  - apply bind_inv in H as ([tr cur] & _ & H). injection H as <-.
    cbn [els]. by apply box_insert.
Qed.

Lemma applyNode_box p allowed i f f' :
  applyNode p allowed i f = ok f' → ∀ n, box (els f' n) = box (els f n).
Proof.
  unfold applyNode. intros H n.
  apply bind_inv in H as (r & _ & H).
  destruct (translate _); injection H as <-; [|done].
  cbn [els]. by apply box_insert.
Qed.

(** X22.  What [animateNodes] leaves alone, for an active marker whose
    collection has registered items.  It returns only when the
    container has a session and a translate.  It then changes nothing of
    the container but the elements, the items of the active collection,
    [sortableGhost] and [newIndex]: the props, the window, the
    translate, the helper, the listeners, the calls, the autoscroll
    interval, the timers and the state of sorting are as before, the
    items of the other collections too, and of every element the index,
    the offsets, the size and the parent. *)
Theorem animateNodes_changes_only s s' a registered :
  active (this_manager s) = Some a →
  refs (this_manager s) !! activeCollection a = Some registered →
  animateNodes s = ok s' →
  ∃ ss,
    this_session s = Some ss
    ∧ is_Some (this_translate s)
    ∧ (this_props s' = this_props s ∧ window s' = window s
       ∧ this_translate s' = this_translate s ∧ this_helper s' = this_helper s
       ∧ listeners s' = listeners s ∧ this_listenerNode s' = this_listenerNode s
       ∧ calls s' = calls s
       ∧ this_autoscrollInterval s' = this_autoscrollInterval s
       ∧ this_isAutoScrolling s' = this_isAutoScrolling s
       ∧ this_pressTimer s' = this_pressTimer s
       ∧ this_paused s' = this_paused s ∧ this_touched s' = this_touched s
       ∧ state_sorting s' = state_sorting s ∧ state_isOrigin s' = state_isOrigin s)
    ∧ active (this_manager s') = Some a
    ∧ (∀ c, c ≠ activeCollection a →
         refs (this_manager s') !! c = refs (this_manager s) !! c)
    ∧ (∃ i, this_session s' = Some (set_this_newIndex i ss))
    ∧ (∀ n, box (elements s' n) = box (elements s n)).
Proof.
  unfold animateNodes. intros Hactive _ H.
  apply bind_inv in H as ([c f] & Hc & H).
  apply bind_inv in H as (a0 & Ha & H).
  apply bind_inv in H as (g & Hg & H).
  injection H as <-.
  unfold computeNodes in Hc. apply bind_inv in Hc as ([ordered c'] & Hctx & Hc).
  apply bind_inv in Hc as (f' & Hloop & Hc). injection Hc as <- <-.
  destruct (dragContext_ok _ _ _ Hctx)
    as (a' & registered' & ss & tr & Ha' & Hr & _ & Hs & Ht & _ & _ & Hdrag).
  rewrite Ha' in Ha. injection Ha as ->.
  rewrite Hactive in Ha'. injection Ha' as <-.
  exists ss. rewrite Hdrag. simpl. split_and!; try done; try by eexists.
  - intros col Hcol. by rewrite lookup_insert_ne.
  - intros n.
    assert (H1 : ∀ n, box (els f' n) = box (elements s n)).
    { apply (forLoop_preserves (λ f, ∀ n, box (els f n) = box (elements s n)) _ _
               (λ i f1 f2 Hb Hf1 n, eq_trans (animateNode_box _ _ _ _ Hb n) (Hf1 n))
               _ _ _ Hloop). done. }
    apply (forLoop_preserves (λ f, ∀ n, box (els f n) = box (elements s n)) _ _
             (λ i f1 f2 Hb Hf1 n, eq_trans (applyNode_box _ _ _ _ _ Hb n) (Hf1 n))
             _ _ _ Hg). done.
Qed.

(** X23.  The cached offsets.  After the reflow of a ready state the items of
    the active collection are the items it had, each with an offset:
    the offset it had cached before, and, when it had none, the edge
    offset of its element.  An offset once cached is reused as it is
    until a pause or the end of the drag drops it. *)
Theorem animateNodes_caches_offsets s :
  ready s = true →
  ∃ s' a registered after,
    animateNodes s = ok s'
    ∧ active (this_manager s) = Some a
    ∧ refs (this_manager s) !! activeCollection a = Some registered
    ∧ refs (this_manager s') !! activeCollection a = Some after
    ∧ after ≡ₚ (λ r, Ref (node r) (offsetOf (elements s) r)) <$> registered
    ∧ (∀ r, r ∈ registered →
         is_Some (offsetOf (elements s) r)
         ∧ (∀ e, edgeOffset r = Some e → offsetOf (elements s) r = Some e)
         ∧ (edgeOffset r = None →
              offsetOf (elements s) r = getEdgeOffset (elements s (node r))))
    ∧ (∀ r, r ∈ after → is_Some (edgeOffset r)).
Proof.
  intros Hready.
  destruct (ready_spec s Hready)
    as (a & registered & ss & tr & ordered & c & Ha & Hr & Hs & Ht & Hord & Hctx
        & Hdrag & Hcfg & Hiso & Hnd & Hmeas & Hgrid).
  destruct (ready_moves s ordered c Hready Hctx) as (ms & Hms).
  pose proof (computeNodes_spec s ordered c Hctx Hnd) as Hcomp.
  rewrite Hms in Hcomp.
  destruct Hcomp as (f & Hcomp & _ & _ & Hnodes & Hrefs & _ & _).
  assert (Hnd' : NoDup (node <$> nodes f)) by by rewrite Hnodes.
  destruct (pass2 (config c) (isDropAllowed c (newIdx f) a) f Hnd'
              (length (nodes f)) ltac:(lia)) as (g & Hg & Hinv).
  assert (Hf : nodes f = (λ r, Ref (node r) (offsetOf (elements s) r)) <$> ordered).
  { apply list_eq. intros j. rewrite list_lookup_fmap.
    destruct (ordered !! j) as [r|] eqn:Ej.
    - by rewrite (Hrefs j r Ej).
    - apply lookup_ge_None in Ej. apply lookup_ge_None.
      apply (f_equal length) in Hnodes. rewrite !length_fmap in Hnodes. lia. }
  assert (Hperm : ordered ≡ₚ registered) by (rewrite Hord; apply merge_sort_Permutation).
  eexists _, a, registered, (nodes g). split_and!.
  - unfold animateNodes. rewrite Hcomp. cbn [Js.bind ok]. rewrite Ha. cbn [Js.bind ok deref].
    rewrite Hg. reflexivity.
  - done.
  - done.
  - simpl. by rewrite lookup_insert_eq.
  - rewrite (inv2_nodes _ _ _ _ _ Hinv), Hf. by rewrite Hperm.
  - intros r Hin. rewrite <- Hperm in Hin. destruct (Hmeas r Hin) as [Hsome _].
    split; [done|]. destruct (offsetOf_cases (elements s) r) as [(e & E1 & E2)|(E1 & E2)].
    + split; [congruence|congruence].
    + split; [congruence|done].
  - intros r Hin. rewrite (inv2_nodes _ _ _ _ _ Hinv), Hf in Hin.
    apply list_elem_of_fmap in Hin as (r0 & -> & Hin0). simpl.
    by destruct (Hmeas r0 Hin0).
Qed.

(** X24.  The dragged element in a reflow.  With [hideSortableGhost], the
    reflow of a ready state leaves every registered element that
    carries the index of the drag hidden, with opacity zero; the
    visibility and the opacity of every other element, and of all
    elements without [hideSortableGhost], are as before. *)
Theorem animateNodes_hides_ghost s :
  ready s = true →
  ∃ s' ordered c,
    animateNodes s = ok s'
    ∧ dragContext s = ok (ordered, c)
    ∧ ∀ n,
        let dragged :=
          n ∈ node <$> ordered
          ∧ strictEq (index (info (elements s n))) (this_index (drag c)) = true in
        (hideSortableGhost (this_props s) = true → dragged →
           styleVisibility (nodeStyle (elements s' n)) = visibilityHidden
           ∧ styleOpacity (nodeStyle (elements s' n)) = opacityZero)
        ∧ (hideSortableGhost (this_props s) = false ∨ ¬ dragged →
           styleVisibility (nodeStyle (elements s' n))
           = styleVisibility (nodeStyle (elements s n))
           ∧ styleOpacity (nodeStyle (elements s' n))
             = styleOpacity (nodeStyle (elements s n))).
Proof.
  intros Hready.
  destruct (animateNodes_ready s Hready)
    as (ordered & c & ms & s' & a & Hctx & Hms & Hrun & Ha & Hnd & Hlen & Hitem
        & (Hsess & Hels & Hrest) & _).
  destruct (dragContext_ok _ _ _ Hctx) as (_ & _ & _ & _ & _ & _ & _ & _ & _ & Hcfg & _).
  exists s', ordered, c. split; [done|]. split; [done|]. intros n.
  assert (Hpaint : ∀ p allowed el,
            styleVisibility (nodeStyle (paint p allowed el)) = styleVisibility (nodeStyle el)
            ∧ styleOpacity (nodeStyle (paint p allowed el)) = styleOpacity (nodeStyle el)).
  { intros p allowed el. unfold paint. destruct (translate (info el)); [|done]. simpl.
    by destruct (truthy (transitionDuration p)). }
  destruct (decide (n ∈ node <$> ordered)) as [Hin|Hnot].
  - apply list_elem_of_fmap in Hin as (r & -> & Hin).
    apply list_elem_of_lookup in Hin as (j & Hj).
    destruct (lookup_lt_is_Some_2 ms j) as [m Hm].
    { rewrite Hlen. by eapply lookup_lt_Some. }
    rewrite (Hels j r m Hj Hm).
    destruct (Hpaint (config c)
                (isDropAllowed c (tentativeIndex c (elements s) ordered ms) a)
                (place (config c) m (elements s (node r)))) as [-> ->].
    pose proof (Hitem j r m Hj Hm) as Hmove. unfold itemMove in Hmove.
    rewrite Hj in Hmove. cbn [Js.bind ok deref] in Hmove.
    destruct (strictEq (index (info (elements s (node r)))) (this_index (drag c))) eqn:Eq.
    + injection Hmove as <-. cbn [place]. rewrite Hcfg. split.
      * intros -> _. done.
      * intros [->|Hnd']; [done|]. destruct Hnd'. split; [|done].
        apply list_elem_of_fmap. exists r. split; [done|]. by eapply list_elem_of_lookup_2.
    + apply bind_inv in Hmove as (mv & _ & Hmove). injection Hmove as <-. cbn [place].
      split; [|done]. intros _ [_ Hd]. done.
  - rewrite (Hrest n Hnot). split; [|done]. intros _ [Hin _]. done.
Qed.

End ReflowFacts.

(** ** More on the autoscroll *)

Section AutoscrollFacts.
Import Js Utils Container Items Session.
Local Open Scope Q_scope.

Lemma animateNodes_untouched s s' :
  animateNodes s = ok s' →
  this_props s' = this_props s ∧ window s' = window s
  ∧ this_translate s' = this_translate s ∧ this_helper s' = this_helper s
  ∧ this_autoscrollInterval s' = this_autoscrollInterval s
  ∧ this_isAutoScrolling s' = this_isAutoScrolling s.
Proof.
  unfold animateNodes. intros H.
  apply bind_inv in H as ([c f] & _ & H).
  apply bind_inv in H as (a & _ & H).
  apply bind_inv in H as (g & _ & H).
  by injection H as <-.
Qed.

Lemma scrollContainer_set v s : scrollContainer (set_scrollContainer v s) = v.
Proof.
  unfold scrollContainer, set_scrollContainer. simpl.
  by destruct (useWindowAsScrollContainer (this_props s)).
Qed.

Lemma set_scrollContainer_more v s :
  settle (window (set_scrollContainer v s)) = settle (window s)
  ∧ this_helper (set_scrollContainer v s) = this_helper s
  ∧ this_isAutoScrolling (set_scrollContainer v s) = this_isAutoScrolling s.
Proof. unfold set_scrollContainer. by destruct (useWindowAsScrollContainer _). Qed.

(** X27.  One run of the autoscroll interval.  Without an interval nothing
    runs.  With one, the scroll container is asked to scroll by
    [speed * direction] on both axes, which the DOM may clamp, and the
    translate of the session moves by the whole of it whether the
    container scrolled or not; then the items are reflowed.  The helper
    is not given the new translate, the interval stays as it is. *)
Theorem autoscrollTick_moves s :
  (this_autoscrollInterval s = None → autoscrollTick s = ok s)
  ∧ ∀ v s', this_autoscrollInterval s = Some v → autoscrollTick s = ok s' →
      let dx := 1 * x (speed v) * x (direction v) in
      let dy := 1 * y (speed v) * y (direction v) in
      scrollTop (scrollContainer s') = settle (window s) (scrollTop (scrollContainer s) + dy)
      ∧ scrollLeft (scrollContainer s')
        = settle (window s) (scrollLeft (scrollContainer s) + dx)
      ∧ (∃ tr, this_translate s = Some tr
               ∧ this_translate s' = Some (Point (x tr + dx) (y tr + dy)))
      ∧ this_helper s' = this_helper s
      ∧ this_autoscrollInterval s' = Some v
      ∧ this_isAutoScrolling s' = true.
Proof.
  split.
  { intros H. unfold autoscrollTick. by rewrite H. }
  intros v s' Ev H. cbv zeta.
  unfold autoscrollTick in H. rewrite Ev in H.
  set (s0 := set_this_isAutoScrolling true s) in H.
  cbv zeta in H.
  match type of H with
  | context [set_scrollContainer ?v1 s0] => set (vA := v1) in H; set (sA := set_scrollContainer vA s0) in H
  end.
  match type of H with
  | context [set_scrollContainer ?v2 sA] => set (vB := v2) in H; set (sB := set_scrollContainer vB sA) in H
  end.
  destruct (set_scrollContainer_keeps vA s0) as (A1 & A2 & A3 & A4 & A5 & A6).
  destruct (set_scrollContainer_more vA s0) as (A7 & A8 & A9).
  destruct (set_scrollContainer_keeps vB sA) as (B1 & B2 & B3 & B4 & B5 & B6).
  destruct (set_scrollContainer_more vB sA) as (B7 & B8 & B9).
  fold sA in A1, A2, A3, A4, A5, A6, A7, A8, A9.
  fold sB in B1, B2, B3, B4, B5, B6, B7, B8, B9.
  apply bind_inv in H as (tr & Htr & H).
  assert (Ht : this_translate s = Some tr).
  { rewrite B1, A1 in Htr. simpl in Htr. destruct (this_translate s); by inversion Htr. }
  set (s1 := set_this_translate _ sB) in H.
  destruct (animateNodes_untouched s1 s' H) as (K1 & K2 & K3 & K4 & K8 & K9).
  assert (Hsc : scrollContainer s' = scrollContainer sB).
  { unfold scrollContainer. rewrite K1, K2. subst s1. done. }
  rewrite Hsc. subst sB. rewrite scrollContainer_set. subst vB. cbn [scrollTop scrollLeft].
  subst sA. rewrite scrollContainer_set. subst vA. cbn [scrollTop scrollLeft].
  split_and!.
  - done.
  - by rewrite A7.
  - exists tr. split; [done|]. rewrite K3. subst s1. done.
  - rewrite K4. subst s1. cbn [this_helper set_this_translate]. by rewrite B8, A8.
  - rewrite K8. subst s1. cbn [this_autoscrollInterval set_this_translate].
    rewrite B4, A4. subst s0. done.
  - rewrite K9. subst s1. cbn [this_isAutoScrolling set_this_translate].
    rewrite B9, A9. subst s0. done.
Qed.

End AutoscrollFacts.

(** ** A move of the pointer, and a press that is released *)

Section MoveFacts.
Import Js Utils Container Items Session Ending.
Local Open Scope Q_scope.

Variable getActive : dom → manager → result (option ref).
Variable ly : layout.

Lemma filter_all {A} (P : A → Prop) `{∀ x, Decision (P x)} (l : list A) :
  (∀ x, x ∈ l → P x) → filter P l = l.
Proof.
  induction l as [|x l IH]; intros Hall; [done|].
  rewrite filter_cons_True by (apply Hall, list_elem_of_here).
  f_equal. apply IH. intros y Hy. apply Hall. by apply list_elem_of_further.
Qed.

Lemma autoscroll_untouched s s' :
  autoscroll s = ok s' →
  this_translate s' = this_translate s ∧ this_helper s' = this_helper s
  ∧ this_paused s' = this_paused s ∧ calls s' = calls s
  ∧ this_props s' = this_props s ∧ elements s' = elements s
  ∧ this_manager s' = this_manager s.
Proof.
  unfold autoscroll. intros H.
  apply bind_inv in H as (tr & _ & H). apply bind_inv in H as (ss & _ & H).
  injection H as <-.
  destruct (this_autoscrollInterval s); destruct (negb _ || negb _); done.
Qed.

Lemma animateNodes_paused s s' :
  animateNodes s = ok s' → this_paused s' = this_paused s.
Proof.
  unfold animateNodes. intros H.
  apply bind_inv in H as ([c f] & _ & H).
  apply bind_inv in H as (a & _ & H).
  apply bind_inv in H as (g & _ & H).
  by injection H as <-.
Qed.

(** X15.  The helper follows the pointer.  After a move that is neither
    locked to an axis nor to the edges of the container, the translate of
    the session, which is also the transform of the helper, is the way of
    the pointer since the press, less the way the window has scrolled
    since; the container is not paused any more, and [onSortMove], when
    given, has been called with the event. *)
Theorem handleSortMove_follows_pointer e s s' ss pos :
  handleSortMove e s = ok s' →
  this_session s = Some ss →
  getOffset e = ok pos →
  lockToContainerEdges (this_props s) = false →
  lockAxis (this_props s) = None →
  let moved :=
    Point (x pos - x (this_initialOffset ss)
           - (pageXOffset (window s) - left (this_initialWindowScroll ss)))
          (y pos - y (this_initialOffset ss)
           - (pageYOffset (window s) - top (this_initialWindowScroll ss))) in
  this_translate s' = Some moved
  ∧ (∀ h, this_helper s = Some h →
       this_helper s'
       = Some (Helper (helperTop h) (helperLeft h) (helperWidth h) (helperHeight h)
                 (helperClassList h) (Some moved)))
  ∧ (this_helper s = None → this_helper s' = None)
  ∧ this_paused s' = false
  ∧ calls s' = (if onSortMove (this_props s) then calls s ++ [sortMove e] else calls s).
Proof.
  intros H Hs Hpos Hlock Hax moved. unfold handleSortMove in H.
  set (s0 := if this_paused s then set_this_paused false s else s) in H.
  assert (H0 : this_session s0 = Some ss ∧ this_props s0 = this_props s
               ∧ window s0 = window s ∧ this_helper s0 = this_helper s
               ∧ this_paused s0 = false ∧ calls s0 = calls s).
  { subst s0. destruct (this_paused s) eqn:Ep; simpl; rewrite ?Ep; done. }
  destruct H0 as (Hs0 & Hp0 & Hw0 & Hh0 & Hpa0 & Hc0).
  apply bind_inv in H as (s1 & H1 & H).
  apply bind_inv in H as (s2 & H2 & H).
  apply bind_inv in H as (s3 & H3 & H).
  injection H as <-.
  assert (H1' : this_translate s1 = Some moved
                ∧ this_helper s1
                  = match this_helper s with
                    | Some h => Some (Helper (helperTop h) (helperLeft h) (helperWidth h)
                                        (helperHeight h) (helperClassList h) (Some moved))
                    | None => None
                    end
                ∧ this_paused s1 = false ∧ calls s1 = calls s
                ∧ this_props s1 = this_props s).
  { unfold updatePosition in H1. rewrite Hpos in H1. cbn [Js.bind ok deref] in H1.
    rewrite Hs0 in H1. cbn [Js.bind ok deref] in H1.
    rewrite Hp0, Hlock, Hax, Hw0 in H1. cbn [Js.bind ok deref] in H1.
    injection H1 as <-. cbn [this_helper set_this_translate]. rewrite Hh0.
    destruct (this_helper s); simpl; rewrite ?Hpa0, ?Hc0, ?Hp0; done. }
  destruct H1' as (T1 & Hh1 & Pa1 & C1 & P1).
  destruct (animateNodes_untouched s1 s2 H2) as (P2 & _ & T2 & Hh2 & _ & _).
  pose proof (animateNodes_paused s1 s2 H2) as Pa2.
  assert (C2 : calls s2 = calls s1).
  { destruct (animateNodes_inv s1 s2 H2) as (? & ? & ? & ? & _ & _ & _ & _ & _ & _ & _ & _ & _ & _ & _ & C).
    done. }
  destruct (autoscroll_untouched s2 s3 H3) as (T3 & Hh3 & Pa3 & C3 & P3 & _ & _).
  assert (Hcalls : calls (if onSortMove (this_props s3)
                          then set_calls (calls s3 ++ [sortMove e]) s3 else s3)
                   = (if onSortMove (this_props s) then calls s ++ [sortMove e] else calls s)).
  { rewrite P3, P2, P1. destruct (onSortMove (this_props s)); simpl; congruence. }
  destruct (onSortMove (this_props s3)); cbn [this_translate this_helper this_paused set_calls];
    (split_and!; [congruence| |intros Hn; rewrite Hh3, Hh2, Hh1, Hn; done|congruence|done]);
    intros h Hh; rewrite Hh3, Hh2, Hh1, Hh; done.
Qed.

(** X16.  A press that is released without a move.  The end handler after a
    press from the container itself returns; [onSortStart] and
    [onSortEnd], when given, have been called once each, the second with
    a new index equal to the old index, the index of the active marker;
    the container does not sort, the helper is gone, the pressed element
    is visible again when it was hidden, and the listeners are those
    from before the press when the listener of the drag was not among
    them. *)
Theorem press_release e e' s s1 r :
  getActive (elements s) (this_manager s) = ok (Some r) →
  handlePress getActive ly e None s = ok s1 →
  ∃ s2 a,
    handleSortEnd e' s1 = ok s2
    ∧ active (this_manager s) = Some a
    ∧ calls s2
      = calls s
        ++ (if onSortStart (this_props s)
            then [sortStart (node r) (activeIndex a) (activeCollection a)] else [])
        ++ (if onSortEnd (this_props s)
            then [sortEnd (Commit (Some (activeIndex a)) (Some (activeIndex a))
                             (activeCollection a))]
            else [])
    ∧ state_sorting s2 = false
    ∧ active (this_manager s2) = None
    ∧ this_helper s2 = None
    ∧ (hideSortableGhost (this_props s) = true →
         styleVisibility (nodeStyle (elements s2 (node r))) = visibilityEmpty
         ∧ styleOpacity (nodeStyle (elements s2 (node r))) = opacityEmpty)
    ∧ (useCustomEvents (this_props s) = false →
         (match touches e with Some _ => onNode (node r) | None => onWindow end)
         ∉ listeners s →
         listeners s2 = listeners s).
Proof.
  intros Hfound H.
  destruct (handlePress_fields getActive ly e s s1 r Hfound H)
    as (a & ss & pos & Ha & Hpos & Hs & Hm & Hp & Hw & Hsort & Horigin & _ & _ & _ & _ & _
        & Hnode & Hidx & Hnew & _ & _ & _ & _ & _ & _ & _ & _ & _ & Hhelper & Hels & Hghost
        & Hcalls & Hlisten).
  assert (Ha1 : active (this_manager s1) = Some a) by by rewrite Hm.
  eexists _, a. split; [by apply handleSortEnd_steps|]. split; [done|].
  cbv zeta.
  destruct (removeListeners_spec s1) as (M1 & E1 & Hh1 & P1 & G1 & S1 & C1 & _ & L1 & L1').
  cbv zeta in *. set (sa := removeListeners s1) in *.
  destruct (removeHelper_spec (hideSortableGhost (this_props s1)) sa)
    as (M2 & P2 & Hh2 & L2 & S2 & C2 & _ & B2 & E2 & G2).
  cbv zeta in *. set (sb := removeHelper (hideSortableGhost (this_props s1)) sa) in *.
  destruct (resetItems_spec endStyle (activeCollection a) sb (λ _, True))
    as (A3 & P3 & Hh3 & L3 & S3 & C3 & G3 & _ & _ & _ & R3 & R3' & In3 & Out3 & B3);
    [done|done|].
  cbv zeta in *. set (sc := resetItems endStyle (activeCollection a) sb) in *.
  assert (Hsess : this_session sc = Some ss) by congruence.
  assert (Hcls : calls sc = calls s1) by congruence.
  split_and!.
  - rewrite Hp. destruct (onSortEnd (this_props s)); cbn [calls set_calls set_this_touched
      set_this_paused set_state_sorting set_state_isOrigin set_this_manager
      set_this_autoscrollInterval this_session].
    + rewrite Hsess, Hcls, Hcalls. cbn [fmap option_fmap option_map]. rewrite Hidx, Hnew.
      destruct (onSortStart (this_props s)); by rewrite <- ?app_assoc.
    + rewrite Hcls, Hcalls. destruct (onSortStart (this_props s)); by rewrite ?app_nil_r.
  - by destruct (onSortEnd (this_props s1)).
  - by destruct (onSortEnd (this_props s1)).
  - destruct (onSortEnd (this_props s1)); simpl; congruence.
  - intros Hhide. rewrite Hhide in Hghost.
    assert (Hh : this_helper sa ≠ None) by (rewrite Hh1, Hhelper; done).
    assert (Hg : this_sortableGhost sa = Some (node r)) by congruence.
    rewrite Hp in G2. destruct (G2 (node r) Hh Hhide Hg) as (Hv & Ho & _).
    destruct (B3 (node r)) as (_ & Hv' & Ho').
    destruct (onSortEnd (this_props s1)); simpl; split; congruence.
  - intros Hcustom Hnot. rewrite Hcustom in Hlisten. cbv zeta in Hlisten.
    destruct Hlisten as [Hl Hln].
    rewrite bool_decide_eq_false_2 in Hl by done.
    assert (Hfinal : listeners sc = listeners s).
    { rewrite L3, L2. subst sa. unfold removeListeners. rewrite Hln. simpl. rewrite Hl.
      rewrite filter_app. rewrite filter_cons_False by (intros Hne; by apply Hne).
      rewrite filter_nil, app_nil_r.
      apply filter_all. intros l Hin ->. done. }
    destruct (onSortEnd (this_props s1)); simpl; done.
Qed.

End MoveFacts.

(** ** A reflow repeated *)

Section Idempotence.
Import Js Utils Container Items Session.
Local Open Scope Q_scope.

(** The constants of a reflow, spelled out. *)
Lemma dragContext_eq s a registered ss tr :
  active (this_manager s) = Some a →
  refs (this_manager s) !! activeCollection a = Some registered →
  this_session s = Some ss →
  this_translate s = Some tr →
  dragContext s
  = ok (merge_sort (byIndex (elements s)) registered,
        Reflow (this_props s) (state_isOrigin s) ss
          (Edge (top (this_offsetEdge ss) + y tr
                 + (scrollTop (scrollContainer s) - top (this_initialScroll ss)))
                (left (this_offsetEdge ss) + x tr
                 + (scrollLeft (scrollContainer s) - left (this_initialScroll ss))))
          (Edge (pageYOffset (window s) - top (this_initialWindowScroll ss))
                (pageXOffset (window s) - left (this_initialWindowScroll ss)))).
Proof.
  intros Ha Hr Hs Ht. unfold dragContext, getOrderedRefs.
  rewrite Ha. cbn [Js.bind ok deref]. rewrite Hr. cbn [Js.bind ok deref].
  rewrite Hs. cbn [Js.bind ok deref]. rewrite Ht. reflexivity.
Qed.

(** The decision for an item reads of the element its index and its
    size only, when no hover callback is given, and of the session
    everything but the new index. *)
Lemma decideMove_same c c1 el el1 eo nx pv :
  config c1 = config c → isOrigin c1 = isOrigin c →
  sortingOffset c1 = sortingOffset c → scrollDifference c1 = scrollDifference c →
  (∃ i, drag c1 = set_this_newIndex i (drag c)) →
  box el1 = box el → onSortHover (config c) = None →
  decideMove c1 el1 eo nx pv = decideMove c el eo nx pv.
Proof.
  destruct c as [cfg iso dr so sd], c1 as [cfg1 iso1 dr1 so1 sd1].
  cbn [config isOrigin sortingOffset scrollDifference drag].
  intros -> -> -> -> [i ->] Hbox Hhover.
  destruct el as [[idx col tr] t l w h p st], el1 as [[idx1 col1 tr1] t1 l1 w1 h1 p1 st1].
  unfold box in Hbox. cbn in Hbox. injection Hbox as -> -> -> -> -> ->.
  destruct dr.
  unfold decideMove, decideGrid, decideRow, decideColumn, isBefore, isAfter, gridBefore,
    gridAfter, passesRight, passesLeft, halfWidth, halfHeight, boxLeft, boxTop, slotX, slotY.
  cbn [config isOrigin sortingOffset scrollDifference drag set_this_newIndex
       this_axis this_index this_width this_height this_marginOffset
       this_containerBoundingRect info index offsetWidth offsetHeight translate].
  rewrite Hhover. reflexivity.
Qed.

Lemma itemMove_same c c1 d d1 ordered j :
  config c1 = config c → isOrigin c1 = isOrigin c →
  sortingOffset c1 = sortingOffset c → scrollDifference c1 = scrollDifference c →
  (∃ i, drag c1 = set_this_newIndex i (drag c)) →
  (∀ n, box (d1 n) = box (d n)) → onSortHover (config c) = None →
  itemMove c1 d1 ((λ r, Ref (node r) (offsetOf d r)) <$> ordered) j = itemMove c d ordered j.
Proof.
  intros Hcfg Hiso Hso Hsd Hdrag Hbox Hhover. unfold itemMove.
  rewrite list_lookup_fmap. destruct (ordered !! j) as [r|] eqn:Ej; [|done].
  cbn [fmap option_fmap option_map Js.bind ok deref node].
  assert (Hidx : index (info (d1 (node r))) = index (info (d (node r)))).
  { pose proof (Hbox (node r)) as Hb. unfold box in Hb. by injection Hb. }
  assert (Hi : this_index (drag c1) = this_index (drag c)).
  { destruct Hdrag as [i ->]. by destruct (drag c). }
  rewrite Hidx, Hi. destruct (strictEq _ _); [done|].
  assert (Hcache : ∀ r0, cacheEdgeOffset d1 (Ref (node r0) (offsetOf d r0))
                         = cacheEdgeOffset d r0).
  { intros r0. rewrite (cache_again d1 d r0 (Ref (node r0) (offsetOf d r0)));
      [by rewrite cache_ref|done|done|by right]. }
  assert (Hoff : offsetOf d1 (Ref (node r) (offsetOf d r)) = offsetOf d r).
  { unfold offsetOf at 1. rewrite Hcache. done. }
  rewrite Hoff.
  assert (Hnext : cacheEdgeOffset d1 <$> ((λ r, Ref (node r) (offsetOf d r)) <$> ordered) !! S j
                  = cacheEdgeOffset d <$> ordered !! S j).
  { rewrite list_lookup_fmap. destruct (ordered !! S j) as [rn|]; [|done].
    cbn [fmap option_fmap option_map]. by rewrite Hcache. }
  assert (Hprev : cacheEdgeOffset d1 <$>
                    (if (0 <? j)%nat
                     then ((λ r, Ref (node r) (offsetOf d r)) <$> ordered) !! (j - 1)%nat
                     else None)
                  = cacheEdgeOffset d <$>
                      (if (0 <? j)%nat then ordered !! (j - 1)%nat else None)).
  { destruct (0 <? j)%nat; [|done]. rewrite list_lookup_fmap.
    destruct (ordered !! (j - 1)%nat) as [rp|]; [|done].
    cbn [fmap option_fmap option_map]. by rewrite Hcache. }
  rewrite Hnext, Hprev.
  by rewrite (decideMove_same c c1 (d (node r)) (d1 (node r))).
Qed.

Lemma itemMoves_same c c1 d d1 ordered k :
  config c1 = config c → isOrigin c1 = isOrigin c →
  sortingOffset c1 = sortingOffset c → scrollDifference c1 = scrollDifference c →
  (∃ i, drag c1 = set_this_newIndex i (drag c)) →
  (∀ n, box (d1 n) = box (d n)) → onSortHover (config c) = None →
  itemMoves c1 d1 ((λ r, Ref (node r) (offsetOf d r)) <$> ordered) k = itemMoves c d ordered k.
Proof.
  intros Hcfg Hiso Hso Hsd Hdrag Hbox Hhover. induction k as [|k IH]; [done|].
  cbn [itemMoves]. rewrite IH. by rewrite (itemMove_same c c1 d d1).
Qed.

Lemma tracksFrom_same d d1 : ∀ ordered ms cur,
  (∀ n, box (d1 n) = box (d n)) →
  tracksFrom cur d1 ((λ r, Ref (node r) (offsetOf d r)) <$> ordered) ms
  = tracksFrom cur d ordered ms.
Proof.
  intros ordered ms cur Hbox. unfold tracksFrom. revert ms cur.
  induction ordered as [|r ordered IH]; intros ms cur; [done|].
  destruct ms as [|m ms]; [done|]. cbn [fmap list_fmap zip zip_with foldl fst snd node].
  assert (Hidx : index (info (d1 (node r))) = index (info (d (node r)))).
  { pose proof (Hbox (node r)) as Hb. unfold box in Hb. by injection Hb. }
  rewrite Hidx. apply IH.
Qed.

(** Painting what is placed, twice. *)
Lemma paint_place_again p allowed m el :
  paint p allowed (place p m (paint p allowed (place p m el)))
  = paint p allowed (place p m el).
Proof.
  destruct el as [[idx col [tr|]] t l w h pa [tf du vi op]];
    destruct m as [mv|]; destruct allowed; unfold paint, place, hide;
    destruct (hideSortableGhost p); cbn; destruct (truthy (transitionDuration p));
    reflexivity.
Qed.

(** The items that a reflow leaves registered. *)
Lemma animateNodes_registry s ordered c ms s' a :
  dragContext s = ok (ordered, c) →
  NoDup (node <$> ordered) →
  itemMoves c (elements s) ordered (length ordered) = ok ms →
  animateNodes s = ok s' →
  active (this_manager s) = Some a →
  this_manager s'
  = set_refs (<[activeCollection a := (λ r, Ref (node r) (offsetOf (elements s) r)) <$> ordered]>
                (refs (this_manager s))) (this_manager s).
Proof.
  intros Hctx Hnd Hms Hrun Ha.
  pose proof (computeNodes_spec s ordered c Hctx Hnd) as Hcomp.
  rewrite Hms in Hcomp.
  destruct Hcomp as (f & Hcomp & _ & _ & Hnodes & Hrefs & _ & _).
  assert (Hnd' : NoDup (node <$> nodes f)) by by rewrite Hnodes.
  destruct (pass2 (config c) (isDropAllowed c (newIdx f) a) f Hnd'
              (length (nodes f)) ltac:(lia)) as (g & Hg & Hinv).
  assert (Hf : nodes f = (λ r, Ref (node r) (offsetOf (elements s) r)) <$> ordered).
  { apply list_eq. intros j. rewrite list_lookup_fmap.
    destruct (ordered !! j) as [r|] eqn:Ej.
    - by rewrite (Hrefs j r Ej).
    - apply lookup_ge_None in Ej. apply lookup_ge_None.
      apply (f_equal length) in Hnodes. rewrite !length_fmap in Hnodes. lia. }
  unfold animateNodes in Hrun. rewrite Hcomp in Hrun. cbn [Js.bind ok] in Hrun.
  rewrite Ha in Hrun. cbn [Js.bind ok deref] in Hrun. rewrite Hg in Hrun.
  cbn [Js.bind ok] in Hrun. injection Hrun as <-.
  cbn [this_manager set_this_session set_this_sortableGhost set_elements set_this_manager].
  by rewrite (inv2_nodes _ _ _ _ _ Hinv), Hf.
Qed.

Lemma cached_again d d1 r :
  (∀ n, box (d1 n) = box (d n)) →
  Ref (node (Ref (node r) (offsetOf d r))) (offsetOf d1 (Ref (node r) (offsetOf d r)))
  = Ref (node r) (offsetOf d r).
Proof.
  intros Hbox. cbn [node]. f_equal. unfold offsetOf at 1.
  rewrite (cache_again d1 d r (Ref (node r) (offsetOf d r))); [done|done|done|by right].
Qed.

Lemma newIndex_twice i j ss :
  set_this_newIndex j (set_this_newIndex i ss) = set_this_newIndex j ss.
Proof. by destruct ss. Qed.

(** X25.  A reflow repeated changes nothing.  When the reflow of a ready state
    whose items carry distinct indices, without hover callback, is
    followed by a second reflow, with the translate, the scroll
    positions and the props as they are, the second reflow returns and
    leaves every element, the new index and the rest of the session, and
    the registered items with their cached offsets as the first one
    left them. *)
Theorem animateNodes_idempotent s s1 a registered :
  ready s = true →
  onSortHover (this_props s) = None →
  active (this_manager s) = Some a →
  refs (this_manager s) !! activeCollection a = Some registered →
  NoDup ((λ r, index (info (elements s (node r)))) <$> registered) →
  animateNodes s = ok s1 →
  ∃ s2,
    animateNodes s1 = ok s2
    ∧ (∀ n, elements s2 n = elements s1 n)
    ∧ this_session s2 = this_session s1
    ∧ this_manager s2 = this_manager s1.
Proof.
  intros Hready Hhover Ha Hr Hdistinct Hrun.
  destruct (ready_spec s Hready)
    as (a' & registered' & ss & tr & ordered & c & Ha' & Hr' & Hs & Ht & Hord & Hctx
        & Hdrag & Hcfg & Hiso & Hnd & Hmeas & Hgrid).
  rewrite Ha in Ha'. injection Ha' as <-. rewrite Hr in Hr'. injection Hr' as <-.
  destruct (ready_moves s ordered c Hready Hctx) as (ms & Hms).
  pose proof (animateNodes_spec s ordered c Hctx Hnd) as Hspec.
  rewrite Hms in Hspec.
  destruct Hspec as (s1' & a' & Hrun' & Ha' & Hlen & Hitem & (Hsess & Hels & Hrest)
                     & Hp1 & Hact1 & Hw1 & Ht1 & _ & _ & Hiso1 & _).
  rewrite Hrun in Hrun'. injection Hrun' as <-.
  rewrite Ha in Ha'. injection Ha' as <-.
  pose proof (animateNodes_registry s ordered c ms s1 a Hctx Hnd Hms Hrun Ha) as Hm1.
  set (cached := λ r, Ref (node r) (offsetOf (elements s) r)) in *.
  set (ordered' := cached <$> ordered) in *.
  set (tentative := tentativeIndex c (elements s) ordered ms) in *.
  set (allowed := isDropAllowed c tentative a) in *.
  (* the elements keep index, offsets and size *)
  assert (Hbox : ∀ n, box (elements s1 n) = box (elements s n)).
  { intros n. destruct (decide (n ∈ node <$> ordered)) as [Hin|Hnot].
    - apply list_elem_of_fmap in Hin as (r & -> & Hin).
      apply list_elem_of_lookup in Hin as (j & Hj).
      destruct (lookup_lt_is_Some_2 ms j) as [m Hm].
      { rewrite Hlen. by eapply lookup_lt_Some. }
      rewrite (Hels j r m Hj Hm). by rewrite paint_box, place_box.
    - by rewrite (Hrest n Hnot). }
  assert (Hidx : ∀ n, index (info (elements s1 n)) = index (info (elements s n))).
  { intros n. pose proof (Hbox n) as Hb. unfold box in Hb. by injection Hb. }
  (* the state after the first reflow *)
  assert (Ha1 : active (this_manager s1) = Some a) by by rewrite Hact1.
  assert (Hr1 : refs (this_manager s1) !! activeCollection a = Some ordered').
  { rewrite Hm1. cbn [refs set_refs]. by rewrite lookup_insert_eq. }
  assert (Ht1' : this_translate s1 = Some tr) by by rewrite Ht1.
  pose proof (dragContext_eq s1 a ordered' _ tr Ha1 Hr1 Hsess Ht1') as Hctx1.
  pose proof (dragContext_eq s a registered ss tr Ha Hr Hs Ht) as Hctx0.
  rewrite Hctx in Hctx0. injection Hctx0 as _ Hc.
  (* the order of the items is the same *)
  assert (Hperm : ordered ≡ₚ registered) by (rewrite Hord; apply merge_sort_Permutation).
  assert (Hdistinct' : NoDup ((λ r, index (info (elements s (node r)))) <$> ordered))
    by by rewrite Hperm.
  assert (Hsorted : merge_sort (byIndex (elements s1)) ordered' = ordered').
  { apply (StronglySorted_unique_strong (byIndex (elements s1))).
    - intros x1 x2 Hx1 Hx2 H12 H21.
      rewrite merge_sort_Permutation in Hx1.
      apply list_elem_of_fmap in Hx1 as (r1 & -> & Hr1').
      apply list_elem_of_fmap in Hx2 as (r2 & -> & Hr2').
      unfold byIndex in H12, H21. cbn [node cached] in H12, H21. rewrite !Hidx in H12, H21.
      apply list_elem_of_lookup in Hr1' as (j1 & Hj1).
      apply list_elem_of_lookup in Hr2' as (j2 & Hj2).
      assert (j1 = j2).
      { apply (NoDup_fmap_lookup (λ r, index (info (elements s (node r)))) ordered j1 j2 r1 r2);
          [done|done|done|]. cbn beta. lia. }
      subst j2. congruence.
    - apply ordered_sorted.
    - subst ordered'. rewrite Hord.
      apply (StronglySorted_fmap cached (byIndex (elements s)) (byIndex (elements s1)));
        [|apply ordered_sorted].
      intros x y Hxy. unfold byIndex in *. cbn [node cached]. by rewrite !Hidx.
    - apply merge_sort_Permutation. }
  rewrite Hsorted in Hctx1.
  assert (Hnd1 : NoDup (node <$> ordered')).
  { subst ordered'. rewrite <- list_fmap_compose.
    by replace (node ∘ cached) with node by done. }
  match type of Hctx1 with dragContext s1 = ok (_, ?c1') => set (c1 := c1') in * end.
  assert (Hc1 : config c1 = config c ∧ isOrigin c1 = isOrigin c
                ∧ sortingOffset c1 = sortingOffset c
                ∧ scrollDifference c1 = scrollDifference c
                ∧ (∃ i, drag c1 = set_this_newIndex i (drag c))).
  { subst c1. rewrite Hc. cbn [config isOrigin sortingOffset scrollDifference drag].
    unfold scrollContainer. rewrite Hp1, Hw1, Hiso1.
    split_and!; try done; by eexists. }
  destruct Hc1 as (Hcfg1 & Hiso1' & Hso1 & Hsd1 & Hdrag1).
  assert (Hhover' : onSortHover (config c) = None) by by rewrite Hcfg.
  assert (Hms1 : itemMoves c1 (elements s1) ordered' (length ordered') = ok ms).
  { subst ordered'. rewrite length_fmap.
    rewrite (itemMoves_same c c1 (elements s) (elements s1)); done. }
  pose proof (animateNodes_spec s1 ordered' c1 Hctx1 Hnd1) as Hspec2.
  rewrite Hms1 in Hspec2.
  destruct Hspec2 as (s2 & a2 & Hrun2 & Ha2 & Hlen2 & Hitem2 & (Hsess2 & Hels2 & Hrest2)
                      & Hp2 & Hact2 & _).
  rewrite Ha1 in Ha2. injection Ha2 as <-.
  (* the tentative index and the answer of the drop predicate are the same *)
  assert (Hi1 : this_index (drag c1) = this_index (drag c)).
  { destruct Hdrag1 as [i ->]. by destruct (drag c). }
  assert (Htent : tentativeIndex c1 (elements s1) ordered' ms = tentative).
  { subst tentative. unfold tentativeIndex, tracks. subst ordered' cached.
    rewrite (tracksFrom_same (elements s) (elements s1)) by done. by rewrite Hi1. }
  assert (Hallowed : isDropAllowed c1 tentative a = allowed).
  { subst allowed. unfold isDropAllowed. by rewrite Hcfg1, Hiso1', Hi1. }
  rewrite Htent, Hallowed in Hsess2, Hels2.
  exists s2. split; [done|]. split_and!.
  - intros n. destruct (decide (n ∈ node <$> ordered)) as [Hin|Hnot].
    + apply list_elem_of_fmap in Hin as (r & -> & Hin).
      apply list_elem_of_lookup in Hin as (j & Hj).
      destruct (lookup_lt_is_Some_2 ms j) as [m Hm].
      { rewrite Hlen. by eapply lookup_lt_Some. }
      assert (Hj' : ordered' !! j = Some (cached r)).
      { subst ordered'. by rewrite list_lookup_fmap, Hj. }
      pose proof (Hels2 j (cached r) m Hj' Hm) as H2. cbn [node cached] in H2.
      rewrite H2, (Hels j r m Hj Hm), Hcfg1. apply paint_place_again.
    + apply Hrest2. subst ordered'. rewrite <- list_fmap_compose.
      by replace (node ∘ cached) with node by done.
  - rewrite Hsess2, Hsess, Hi1.
    assert (Hci : drag c1 = set_this_newIndex (if allowed then tentative else this_index (drag c))
                              (drag c)).
    { subst c1. done. }
    rewrite Hci. by rewrite newIndex_twice.
  - rewrite (animateNodes_registry s1 ordered' c1 ms s2 a Hctx1 Hnd1 Hms1 Hrun2 Ha1).
    rewrite Hm1. cbn [refs set_refs active]. unfold set_refs. f_equal.
    rewrite insert_insert_eq. f_equal. subst ordered'. rewrite <- list_fmap_compose.
    apply list_fmap_ext. intros j r Hj. by apply cached_again.
Qed.

End Idempotence.

(** ** The theorems at the examples *)

Section AtLimits.
Import Utils.
Local Open Scope Q_scope.

Lemma limit_within_witness :
  0 <= 10
  ∧ limit (Some 0) (Some 10) 12 = 10
  ∧ limit (Some 0) (Some 10) (-3) = 0
  ∧ limit (Some 0) (Some 10) 7 = 7.
Proof.
  assert (H : 0 <= 10) by (vm_compute; discriminate).
  split; [exact H|].
  split; [apply (limit_within 0 10 12 H); reflexivity|].
  split; [apply (limit_within 0 10 (-3) H); reflexivity|].
  apply (limit_within 0 10 7 H); vm_compute; discriminate.
Defined.

End AtLimits.

Section AtMoves.
Import Utils.
Local Open Scope Z_scope.

Lemma arrayMove_round_trip_witness :
  ∃ h1 moved h2 back,
    arrayMove 1 {[ 5%nat := [Some 10; Some 11; Some 12] ]} 5%nat 0 2 = Some (h1, moved)
    ∧ arrayMove 1 h1 moved 2 0 = Some (h2, back)
    ∧ h2 !! back = Some [Some 10; Some 11; Some 12].
Proof.
  destruct (arrayMove_round_trip (A:=Z) {[ 5%nat := [Some 10; Some 11; Some 12] ]} 5%nat
              [Some 10; Some 11; Some 12] 0 2 1)
    as (h1 & moved & h2 & back & Hthere & Hback & Hres & _).
  - reflexivity.
  - simpl. lia.
  - simpl. lia.
  - exists h1, moved, h2, back. split; [exact Hthere|]. split; [exact Hback|exact Hres].
Defined.

Lemma arrayMove_missing_source_witness :
  ∃ h' array,
    arrayMove 1 {[ 5%nat := [Some 10; Some 11; Some 12] ]} 5%nat 7 1 = Some (h', array)
    ∧ h' !! array = Some [Some 10; None; Some 11; Some 12].
Proof.
  assert (H1 : ({[ 5%nat := [Some 10; Some 11; Some 12] ]} : gmap nat (list (option Z)))
                !! 5%nat = Some [Some 10; Some 11; Some 12]) by reflexivity.
  assert (H2 : Z.of_nat (length [Some 10; Some 11; Some 12]) ≤ 7) by (simpl; lia).
  destruct (proj1 (arrayMove_missing_source {[ 5%nat := [Some 10; Some 11; Some 12] ]}
                     5%nat [Some 10; Some 11; Some 12] 7 1 1 H1 H2))
    as (h' & array & Hrun & Hres & _).
  - simpl. lia.
  - exists h', array. split; [exact Hrun|exact Hres].
Defined.

Lemma arrayMove_negative_witness :
  arrayMove 1 {[ 5%nat := [Some 10; Some 11; Some 12] ]} 5%nat (-1) 0
  = arrayMove 1 {[ 5%nat := [Some 10; Some 11; Some 12] ]} 5%nat 2 0
  ∧ arrayMove 1 {[ 5%nat := [Some 10; Some 11; Some 12] ]} 5%nat 0 (-1)
    = arrayMove 1 {[ 5%nat := [Some 10; Some 11; Some 12] ]} 5%nat 0 1.
Proof.
  assert (H1 : ({[ 5%nat := [Some 10; Some 11; Some 12] ]} : gmap nat (list (option Z)))
                !! 5%nat = Some [Some 10; Some 11; Some 12]) by reflexivity.
  destruct (arrayMove_negative {[ 5%nat := [Some 10; Some 11; Some 12] ]} 5%nat
              [Some 10; Some 11; Some 12] 1 H1) as [Hfrom Hto].
  split.
  - apply (Hfrom 1%nat 0%nat); simpl; lia.
  - apply (Hto 0%nat 1%nat); simpl; lia.
Defined.

End AtMoves.

Section AtPresses.
Import Js Utils Container Items Session Examples Press Presses.
Local Open Scope Q_scope.

Lemma press_starts_witness :
  activeItem (elements columnStart) (this_manager columnStart) = ok (Some (Ref 1 None))
  ∧ handlePress activeItem columnLayout (mouse 50 150) None columnStart = ok columnDrag
  ∧ ∃ ss, this_session columnDrag = Some ss ∧ this_node ss = 1%nat
          ∧ this_index ss = Some 1%Z ∧ this_newIndex ss = Some 1%Z.
Proof.
  assert (H1 : activeItem (elements columnStart) (this_manager columnStart)
               = ok (Some (Ref 1 None))) by (vm_compute; reflexivity).
  assert (H2 : handlePress activeItem columnLayout (mouse 50 150) None columnStart
               = ok columnDrag) by (vm_compute; reflexivity).
  split; [exact H1|]. split; [exact H2|].
  destruct (press_starts activeItem columnLayout (mouse 50 150) columnStart columnDrag
              (Ref 1 None) H1 H2)
    as (ss & a & Hs & Ha & _ & _ & Hnode & Hidx & Hnew & _).
  exists ss. vm_compute in Ha. injection Ha as <-.
  split; [exact Hs|]. split; [exact Hnode|]. split; [exact Hidx|exact Hnew].
Defined.

Lemma handleStart_marker_witness :
  handleStart activeItem columnLayout (click 50 150 1) (columnIdle delayed)
  = ok (columnPressed delayed)
  ∧ active (this_manager (inner (columnIdle delayed))) = None
  ∧ active (this_manager (inner (columnPressed delayed))) = Some (Marker (Some 1%Z) "0").
Proof.
  assert (H : handleStart activeItem columnLayout (click 50 150 1) (columnIdle delayed)
              = ok (columnPressed delayed)) by (vm_compute; reflexivity).
  split; [exact H|]. split; [reflexivity|].
  apply (proj1 (handleStart_marker activeItem columnLayout (click 50 150 1)
                  (columnIdle delayed) (columnPressed delayed) H) 1%nat 7%nat).
  split_and!; [discriminate|reflexivity|reflexivity|reflexivity|reflexivity|discriminate].
Defined.

Lemma tap_leaves_idle_witness :
  state_sorting (inner (columnIdle delayed)) = false
  ∧ this_pressTimer (inner (columnIdle delayed)) = None
  ∧ Qeq_bool (pressDelay (this_props (inner (columnIdle delayed)))) 0 = false
  ∧ handleStart activeItem columnLayout (click 50 150 1) (columnIdle delayed)
    = ok (columnPressed delayed)
  ∧ is_Some (this_pressTimer (inner (columnPressed delayed)))
  ∧ this_pressTimer (inner (handleEnd (columnPressed delayed))) = None
  ∧ active (this_manager (inner (handleEnd (columnPressed delayed)))) = None.
Proof.
  assert (H1 : state_sorting (inner (columnIdle delayed)) = false) by reflexivity.
  assert (H2 : this_pressTimer (inner (columnIdle delayed)) = None) by reflexivity.
  assert (H3 : Qeq_bool (pressDelay (this_props (inner (columnIdle delayed)))) 0 = false)
    by reflexivity.
  assert (H4 : handleStart activeItem columnLayout (click 50 150 1) (columnIdle delayed)
               = ok (columnPressed delayed)) by (vm_compute; reflexivity).
  split; [exact H1|]. split; [exact H2|]. split; [exact H3|]. split; [exact H4|].
  split; [vm_compute; by eexists|].
  destruct (tap_leaves_idle activeItem columnLayout (click 50 150 1) (columnIdle delayed)
              (columnPressed delayed) H1 H2 (or_intror H3) H4)
    as (_ & Hactive & Htimer & _).
  split; [exact Htimer|exact Hactive].
Defined.

Lemma threshold_cancels_press_witness :
  state_sorting (inner (columnPressed delayed)) = false
  ∧ this_touched (inner (columnPressed delayed)) = true
  ∧ truthy (distance (this_props (inner (columnPressed delayed)))) = false
  ∧ this_pos (columnPressed delayed) = Some (Point 50 150)
  ∧ changedOffset (click 52 154 1) = ok (Point 52 154)
  ∧ ∃ s',
      acts activeItem (λ m, bool_decide (is_Some (active m))) columnLayout
        [moved (click 52 154 1); cancelTimer; pressTimer] (columnPressed delayed) = ok s'
      ∧ this_pressTimer (inner s') = None
      ∧ state_sorting (inner s') = false.
Proof.
  assert (H1 : state_sorting (inner (columnPressed delayed)) = false)
    by (vm_compute; reflexivity).
  assert (H2 : this_touched (inner (columnPressed delayed)) = true)
    by (vm_compute; reflexivity).
  assert (H3 : truthy (distance (this_props (inner (columnPressed delayed)))) = false)
    by (vm_compute; reflexivity).
  assert (H4 : this_pos (columnPressed delayed) = Some (Point 50 150))
    by (vm_compute; reflexivity).
  assert (H5 : changedOffset (click 52 154 1) = ok (Point 52 154)) by reflexivity.
  split; [exact H1|]. split; [exact H2|]. split; [exact H3|]. split; [exact H4|].
  split; [exact H5|].
  destruct (proj1 (threshold_cancels_press activeItem (λ m, bool_decide (is_Some (active m)))
                     columnLayout (click 52 154 1) (columnPressed delayed)
                     (Point 50 150) (Point 52 154) H1 H2 H3 H4 H5))
    as (s' & Hrun & _ & Htimer & _ & Hsort & _).
  - right. vm_compute. discriminate.
  - exists s'. split; [exact Hrun|]. split; [exact Htimer|exact Hsort].
Defined.

Lemma distance_starts_press_witness :
  truthy (distance (this_props (inner (columnIdle distant)))) = true
  ∧ handleStart activeItem columnLayout (click 50 150 1) (columnIdle distant)
    = ok (columnPressed distant)
  ∧ state_sorting (inner (columnPressed distant)) = false
  ∧ this_pressTimer (inner (columnPressed distant)) = None
  ∧ handleMove activeItem (λ m, bool_decide (is_Some (active m))) columnLayout
      (click 52 154 1) (columnPressed distant)
    = ok (set_this_delta (Some (Point (50 - 52) (150 - 154))) (columnPressed distant)).
Proof.
  assert (H1 : truthy (distance (this_props (inner (columnIdle distant)))) = true)
    by reflexivity.
  assert (H2 : handleStart activeItem columnLayout (click 50 150 1) (columnIdle distant)
               = ok (columnPressed distant)) by (vm_compute; reflexivity).
  split; [exact H1|]. split; [exact H2|].
  destruct (distance_starts_press activeItem (λ m, bool_decide (is_Some (active m)))
              columnLayout (click 50 150 1) (columnIdle distant) (columnPressed distant)
              (click 52 154 1) (Point 50 150) (Point 52 154) H1 H2)
    as ((Hsort & _ & _ & Htimer & _) & Hmove).
  split; [by rewrite Hsort|]. split; [by rewrite Htimer|].
  apply Hmove.
  - vm_compute; reflexivity.
  - vm_compute; reflexivity.
  - vm_compute; reflexivity.
  - reflexivity.
  - left. vm_compute. intros Hfar. by apply Hfar.
Defined.

Lemma handleSortMove_follows_pointer_witness :
  handleSortMove (mouse 50 151) columnDrag = ok columnMoved
  ∧ this_session columnDrag = Some columnSession
  ∧ getOffset (mouse 50 151) = ok (Point 50 151)
  ∧ lockToContainerEdges (this_props columnDrag) = false
  ∧ lockAxis (this_props columnDrag) = None
  ∧ this_paused columnMoved = false
  ∧ calls columnMoved = calls columnDrag.
Proof.
  assert (H1 : handleSortMove (mouse 50 151) columnDrag = ok columnMoved)
    by (vm_compute; reflexivity).
  assert (H2 : this_session columnDrag = Some columnSession) by (vm_compute; reflexivity).
  assert (H3 : getOffset (mouse 50 151) = ok (Point 50 151)) by reflexivity.
  assert (H4 : lockToContainerEdges (this_props columnDrag) = false) by reflexivity.
  assert (H5 : lockAxis (this_props columnDrag) = None) by reflexivity.
  split; [exact H1|]. split; [exact H2|]. split; [exact H3|]. split; [exact H4|].
  split; [exact H5|].
  destruct (handleSortMove_follows_pointer (mouse 50 151) columnDrag columnMoved
              columnSession (Point 50 151) H1 H2 H3 H4 H5)
    as (_ & _ & _ & Hpaused & Hcalls).
  split; [exact Hpaused|exact Hcalls].
Defined.

Lemma press_release_witness :
  activeItem (elements columnStart) (this_manager columnStart) = ok (Some (Ref 1 None))
  ∧ handlePress activeItem columnLayout (mouse 50 150) None columnStart = ok columnDrag
  ∧ ∃ s2,
      handleSortEnd (mouse 50 150) columnDrag = ok s2
      ∧ calls s2 = [sortEnd (Commit (Some (Some 1%Z)) (Some (Some 1%Z)) "0")]
      ∧ state_sorting s2 = false
      ∧ this_helper s2 = None.
Proof.
  assert (H1 : activeItem (elements columnStart) (this_manager columnStart)
               = ok (Some (Ref 1 None))) by (vm_compute; reflexivity).
  assert (H2 : handlePress activeItem columnLayout (mouse 50 150) None columnStart
               = ok columnDrag) by (vm_compute; reflexivity).
  split; [exact H1|]. split; [exact H2|].
  destruct (press_release activeItem columnLayout (mouse 50 150) (mouse 50 150) columnStart
              columnDrag (Ref 1 None) H1 H2)
    as (s2 & a & Hend & Ha & Hcalls & Hsort & _ & Hhelper & _).
  exists s2. vm_compute in Ha. injection Ha as <-.
  split; [exact Hend|]. split; [exact Hcalls|]. split; [exact Hsort|exact Hhelper].
Defined.

Lemma updatePosition_within_witness :
  this_session edgeDrag = Some edgeSession
  ∧ getOffset (mouse 50 900) = ok (Point 50 900)
  ∧ lockToContainerEdges (this_props edgeDrag) = true
  ∧ getLockPixelOffsets (this_props edgeDrag) edgeSession = ok edgeLock
  ∧ ∃ s' tr, updatePosition (mouse 50 900) edgeDrag = ok s'
             ∧ this_translate s' = Some tr ∧ y tr <= 150.
Proof.
  assert (H1 : this_session edgeDrag = Some edgeSession) by (vm_compute; reflexivity).
  assert (H2 : getOffset (mouse 50 900) = ok (Point 50 900)) by reflexivity.
  assert (H3 : lockToContainerEdges (this_props edgeDrag) = true) by reflexivity.
  assert (H4 : getLockPixelOffsets (this_props edgeDrag) edgeSession = ok edgeLock)
    by (vm_compute; reflexivity).
  split; [exact H1|]. split; [exact H2|]. split; [exact H3|]. split; [exact H4|].
  destruct (updatePosition_within (mouse 50 900) edgeDrag edgeSession (Point 50 900)
              (fst edgeLock) (snd edgeLock) H1 H2 H3 H4)
    as (s' & tr & Hrun & Htr & _ & Hy).
  exists s', tr. split; [exact Hrun|]. split; [exact Htr|].
  edestruct Hy as (_ & Hhi & _).
  - vm_compute; reflexivity.
  - vm_compute; reflexivity.
  - discriminate.
  - vm_compute; discriminate.
  - apply (Qle_trans _ _ _ Hhi). vm_compute; discriminate.
Defined.

Lemma lockOffset_checked_on_update_witness :
  this_session columnDrag = Some columnSession
  ∧ getOffset (mouse 50 151) = ok (Point 50 151)
  ∧ ∃ s', updatePosition (mouse 50 151) columnDrag = ok s'.
Proof.
  assert (H1 : this_session columnDrag = Some columnSession) by (vm_compute; reflexivity).
  assert (H2 : getOffset (mouse 50 151) = ok (Point 50 151)) by reflexivity.
  split; [exact H1|]. split; [exact H2|].
  apply (proj1 (proj2 (lockOffset_checked_on_update (mouse 50 151) columnDrag columnSession
                         (Point 50 151) H1 H2))).
  reflexivity.
Defined.

Lemma animateNodes_changes_only_witness :
  animateNodes rowMoved = ok rowReflowed
  ∧ this_helper rowReflowed = this_helper rowMoved
  ∧ ∀ n, box (elements rowReflowed n) = box (elements rowMoved n).
Proof.
  assert (H : animateNodes rowMoved = ok rowReflowed) by (vm_compute; reflexivity).
  split; [exact H|].
  assert (Ha : active (this_manager rowMoved) = Some (Marker (Some 1%Z) "0"))
    by (vm_compute; reflexivity).
  assert (Hr : refs (this_manager rowMoved) !! activeCollection (Marker (Some 1%Z) "0")
               = Some [Ref 1 None; Ref 2 None; Ref 0 None]) by (vm_compute; reflexivity).
  destruct (animateNodes_changes_only rowMoved rowReflowed _ _ Ha Hr H)
    as (ss & _ & _ & (_ & _ & _ & Hh & _) & _ & _ & _ & Hbox).
  split; [exact Hh|exact Hbox].
Defined.

Lemma animateNodes_caches_offsets_witness :
  ready rowMoved = true
  ∧ ∃ s' after,
      animateNodes rowMoved = ok s'
      ∧ refs (this_manager s') !! "0"%string = Some after
      ∧ after ≡ₚ (λ r, Ref (node r) (offsetOf (elements rowMoved) r))
                   <$> [Ref 1 None; Ref 2 None; Ref 0 None].
Proof.
  assert (H : ready rowMoved = true) by (vm_compute; reflexivity).
  split; [exact H|].
  destruct (animateNodes_caches_offsets rowMoved H)
    as (s' & a & registered & after & Hrun & Ha & Hr & Hafter & Hperm & _).
  vm_compute in Ha. injection Ha as <-.
  assert (Hreg : refs (this_manager rowMoved) !! "0"%string
                 = Some [Ref 1 None; Ref 2 None; Ref 0 None]) by (vm_compute; reflexivity).
  cbn [activeCollection] in Hr, Hafter. rewrite Hreg in Hr. injection Hr as <-.
  exists s', after. split; [exact Hrun|]. split; [exact Hafter|exact Hperm].
Defined.

Lemma animateNodes_hides_ghost_witness :
  ready rowMoved = true
  ∧ ∃ s' ordered c,
      animateNodes rowMoved = ok s' ∧ dragContext rowMoved = ok (ordered, c).
Proof.
  assert (H : ready rowMoved = true) by (vm_compute; reflexivity).
  split; [exact H|].
  destruct (animateNodes_hides_ghost rowMoved H) as (s' & ordered & c & Hrun & Hctx & _).
  exists s', ordered, c. split; [exact Hrun|exact Hctx].
Defined.

Lemma animateNodes_idempotent_witness :
  ready rowMoved = true
  ∧ animateNodes rowMoved = ok rowReflowed
  ∧ ∃ s2, animateNodes rowReflowed = ok s2
          ∧ this_manager s2 = this_manager rowReflowed.
Proof.
  assert (H1 : ready rowMoved = true) by (vm_compute; reflexivity).
  assert (H2 : animateNodes rowMoved = ok rowReflowed) by (vm_compute; reflexivity).
  split; [exact H1|]. split; [exact H2|].
  destruct (animateNodes_idempotent rowMoved rowReflowed (Marker (Some 1%Z) "0")
              [Ref 1 None; Ref 2 None; Ref 0 None] H1)
    as (s2 & Hrun & _ & _ & Hm).
  - reflexivity.
  - vm_compute; reflexivity.
  - vm_compute; reflexivity.
  - apply (bool_decide_unpack _). vm_compute. exact I.
  - exact H2.
  - exists s2. split; [exact Hrun|exact Hm].
Defined.

End AtPresses.
